(** * node-it-glue: the JSON:API transcoder, query builder, error table,
      retry policy and pagination engine, embedded from the TypeScript.

    Layout:
    - [Js]         the fragment of JavaScript values the sources manipulate
                   (dynamic values, objects in property order, truthiness,
                   [String(v)], [Array.prototype.join], [URLSearchParams]);
    - [Jsonapi]    src/jsonapi.ts;
    - [Errors]     src/errors.ts;
    - [Http]       the retry wiring of src/http.ts;
    - [Pagination] src/pagination.ts;
    - [Props]      predicates and reference definitions of the statements;
    - [Fixtures]   concrete inputs;
    then the facts, component by component.

    Conventions.  JavaScript numbers are integers ([Z]); NaN, fractions and
    infinities are outside the model.  Strings are ASCII strings, so
    [toUpperCase]/[toLowerCase] act on the letters A-Z/a-z only.  An object
    is the list of its own properties in property order, without duplicate
    keys; keys that look like array indices (which JavaScript would
    enumerate first) are not distinguished. *)

From Stdlib Require Import ZArith Lia Ascii String.
From stdpp Require Import base strings list gmap pretty.

Set Warnings "-register-all".
Open Scope string_scope.

(* ===================================================================== *)
(** * JavaScript values                                                   *)
(* ===================================================================== *)

Module Js.

Inductive JsValue : Type :=
| JUndefined
| JNull
| JBool (b : bool)
| JNum (n : Z)
| JStr (s : string)
| JArr (items : list JsValue)
| JObj (props : list (string * JsValue)).

(** Thrown values.  [TypeError] is what the engine raises on a property
    read from [null]/[undefined] or a call of a non-function. *)
Inductive JsError : Type :=
| TypeError (msg : string).

(** The outcome of code that may throw. *)
Inductive Res (A : Type) : Type :=
| Ok (a : A)
| Throw (e : JsError).
Arguments Ok {A} a.
Arguments Throw {A} e.

#[export] Instance Res_bind : MBind Res := fun A B k r =>
  match r with
  | Ok a => k a
  | Throw e => Throw e
  end.

(** [arr.map(f)] for an [f] that may throw: left to right, the first throw
    wins. *)
Fixpoint mapM {A B} (f : A -> Res B) (l : list A) : Res (list B) :=
  match l with
  | [] => Ok []
  | x :: l' => y ← f x; ys ← mapM f l'; Ok (y :: ys)
  end.

Definition is_Throw {A} (r : Res A) : bool :=
  match r with Throw _ => true | Ok _ => false end.

(** [v === null || v === undefined] *)
Definition nullish (v : JsValue) : bool :=
  match v with
  | JUndefined | JNull => true
  | _ => false
  end.

(** ToBoolean. *)
Definition truthy (v : JsValue) : bool :=
  match v with
  | JUndefined | JNull => false
  | JBool b => b
  | JNum n => negb (n =? 0)%Z
  | JStr s => negb (s =? EmptyString)
  | JArr _ | JObj _ => true
  end.

(** [a || b] and [a ?? b] on values. *)
Definition js_or (a b : JsValue) : JsValue := if truthy a then a else b.
Definition js_coalesce (a b : JsValue) : JsValue := if nullish a then b else a.

Definition isArray (v : JsValue) : bool :=
  match v with JArr _ => true | _ => false end.

(** [typeof v === 'object' && v !== null && !Array.isArray(v)] *)
Definition isPlainObject (v : JsValue) : bool :=
  match v with JObj _ => true | _ => false end.

(** ** Objects: own properties in order *)

Fixpoint obj_get (k : string) (props : list (string * JsValue)) : option JsValue :=
  match props with
  | [] => None
  | (k', v) :: ps => if k =? k' then Some v else obj_get k ps
  end.

(** [o[k] = v] on an object made by a literal, for a key other than
    [__proto__]: overwrite in place when [k] is already a property,
    append otherwise.  An assignment to [__proto__] runs the setter of
    [Object.prototype] and adds no own property, and the engine lists the
    keys that are array indices before the others: what is stated of the
    own properties of a built object excludes the first, and what is
    stated of their order excludes both ([Props.ordinary_key]). *)
Fixpoint obj_set (k : string) (v : JsValue) (props : list (string * JsValue))
  : list (string * JsValue) :=
  match props with
  | [] => [(k, v)]
  | (k', v') :: ps => if k =? k' then (k, v) :: ps else (k', v') :: obj_set k v ps
  end.

(** [k in o] for an object without inherited data properties. *)
Definition obj_has (k : string) (props : list (string * JsValue)) : bool :=
  match obj_get k props with Some _ => true | None => false end.

(** [v.k] on a [v] that is not [null]/[undefined], for a property name [k]
    that is neither ["length"], an index, nor a prototype member (true of
    every name the sources read): the own property of an object,
    [undefined] on everything else.  This is also [v?.k] for every [v]. *)
Definition prop (v : JsValue) (k : string) : JsValue :=
  match v with
  | JObj props => default JUndefined (obj_get k props)
  | _ => JUndefined
  end.

(** [v.k]: a [TypeError] on [null]/[undefined]. *)
Definition get_prop (v : JsValue) (k : string) : Res JsValue :=
  if nullish v
  then Throw (TypeError ("Cannot read properties of null or undefined, reading " ++ k))
  else Ok (prop v k).

(** [v?.[0]] *)
Definition get_index0_opt (v : JsValue) : JsValue :=
  match v with
  | JArr (x :: _) => x
  | JStr (String c _) => JStr (String c EmptyString)
  | JObj props => default JUndefined (obj_get "0" props)
  | _ => JUndefined
  end.

Fixpoint string_chars (s : string) : list JsValue :=
  match s with
  | EmptyString => []
  | String c s' => JStr (String c EmptyString) :: string_chars s'
  end.

(** [Object.entries(v)] for a [v] that is not [null]/[undefined]: the own
    properties of an object, the indexed elements of an array or of a
    string, nothing for numbers and booleans. *)
Definition entries (v : JsValue) : list (string * JsValue) :=
  match v with
  | JObj props => props
  | JArr items => imap (fun i x => (pretty i, x)) items
  | JStr s => imap (fun i x => (pretty i, x)) (string_chars s)
  | _ => []
  end.

(** ** Conversion to string *)

Fixpoint join_strings (sep : string) (l : list string) : string :=
  match l with
  | [] => EmptyString
  | [s] => s
  | s :: l' => s ++ sep ++ join_strings sep l'
  end.

(** [String(v)].  Inside an array, [null] and [undefined] elements render
    as the empty string ([Array.prototype.join]). *)
Fixpoint toString (v : JsValue) : string :=
  match v with
  | JUndefined => "undefined"
  | JNull => "null"
  | JBool true => "true"
  | JBool false => "false"
  | JNum n => pretty n
  | JStr s => s
  | JArr items =>
      join_strings ","
        (map (fun x => if nullish x then EmptyString else toString x) items)
  | JObj _ => "[object Object]"
  end.

(** [items.join(sep)] *)
Definition join (sep : string) (items : list JsValue) : string :=
  join_strings sep (map (fun x => if nullish x then EmptyString else toString x) items).

(** ** URLSearchParams *)

(** The entries of a [URLSearchParams], in order. *)
Definition URLSearchParams : Type := list (string * string).

(** [sp.set(name, value)]: the first entry called [name] takes the value and
    the other entries called [name] are removed; appended when there is
    none. *)
Fixpoint usp_set (name value : string) (sp : URLSearchParams) : URLSearchParams :=
  match sp with
  | [] => [(name, value)]
  | (n, v) :: sp' =>
      if name =? n
      then (name, value) :: List.filter (fun e => negb (name =? e.1)) sp'
      else (n, v) :: usp_set name value sp'
  end.

(** ** ASCII letters *)

Definition is_lower (c : ascii) : bool :=
  (97 <=? N_of_ascii c)%N && (N_of_ascii c <=? 122)%N.

Definition is_upper (c : ascii) : bool :=
  (65 <=? N_of_ascii c)%N && (N_of_ascii c <=? 90)%N.

Definition char_toUpperCase (c : ascii) : ascii :=
  if is_lower c then ascii_of_N (N_of_ascii c - 32) else c.

Definition char_toLowerCase (c : ascii) : ascii :=
  if is_upper c then ascii_of_N (N_of_ascii c + 32) else c.

(** [s.toLowerCase()] *)
Fixpoint toLowerCase (s : string) : string :=
  match s with
  | EmptyString => EmptyString
  | String c s' => String (char_toLowerCase c) (toLowerCase s')
  end.

End Js.

(* ===================================================================== *)
(** * src/jsonapi.ts                                                      *)
(* ===================================================================== *)

Module Jsonapi.
Import Js.

(** [str.replace(/-([a-z])/g, (_, char) => char.toUpperCase())]: a scan from
    the left; a hyphen followed by a lowercase letter is replaced by the
    capital and both characters are consumed. *)
Fixpoint kebabToCamel (str : string) : string :=
  match str with
  | EmptyString => EmptyString
  | String a t =>
      match t with
      | String c rest =>
          if Ascii.eqb a "-" && is_lower c
          then String (char_toUpperCase c) (kebabToCamel rest)
          else String a (kebabToCamel t)
      | EmptyString => String a EmptyString
      end
  end.

(** [str.replace(/([a-z])([A-Z])/g, '$1-$2')]: a lowercase letter followed
    by a capital gets a hyphen between them and both are consumed. *)
Fixpoint hyphenate (str : string) : string :=
  match str with
  | EmptyString => EmptyString
  | String a t =>
      match t with
      | String c rest =>
          if is_lower a && is_upper c
          then String a (String "-" (String c (hyphenate rest)))
          else String a (hyphenate t)
      | EmptyString => String a EmptyString
      end
  end.

Definition camelToKebab (str : string) : string :=
  toLowerCase (hyphenate str).

Fixpoint convertKeysToCamel (obj : JsValue) : JsValue :=
  match obj with
  | JUndefined | JNull => obj
  | JArr items => JArr (map convertKeysToCamel items)
  | JObj props =>
      JObj (fold_left
              (fun result '(key, value) =>
                 obj_set (kebabToCamel key) (convertKeysToCamel value) result)
              props [])
  | _ => obj
  end.

(** One turn of the loop of [deserializeRelationships]. *)
Definition relationship_step (result : list (string * JsValue))
    (entry : string * JsValue) : Res (list (string * JsValue)) :=
  let '(key, value) := entry in
  let camelKey := kebabToCamel key in
  data ← get_prop value "data";
  match data with
  | JNull => Ok (obj_set camelKey (JArr []) result)
  | JArr _ => Ok (obj_set camelKey data result)
  | _ => Ok (obj_set camelKey (JArr [data]) result)
  end.

Fixpoint relationship_loop (es : list (string * JsValue))
    (result : list (string * JsValue)) : Res (list (string * JsValue)) :=
  match es with
  | [] => Ok result
  | e :: es' => result' ← relationship_step result e; relationship_loop es' result'
  end.

Definition deserializeRelationships (relationships : JsValue) : Res JsValue :=
  if negb (truthy relationships) then Ok JUndefined
  else
    result ← relationship_loop (entries relationships) [];
    Ok (if (0 <? length result)%nat then JObj result else JUndefined).

Definition deserializeResource (resource : JsValue) : Res JsValue :=
  id ← get_prop resource "id";
  type ← get_prop resource "type";
  let result := [("id", id); ("type", type)] in
  let attributes := prop resource "attributes" in
  let result :=
    if truthy attributes
    then fold_left
           (fun result '(key, value) =>
              obj_set (kebabToCamel key) (convertKeysToCamel value) result)
           (entries attributes) result
    else result in
  relationships ← deserializeRelationships (prop resource "relationships");
  Ok (JObj (if truthy relationships
            then obj_set "relationships" relationships result
            else result)).

Definition deserializeMeta (meta : JsValue) : JsValue :=
  if negb (truthy meta) then JUndefined
  else JObj
         [("currentPage", js_coalesce (prop meta "current-page") (JNum 1));
          ("nextPage", js_coalesce (prop meta "next-page") JNull);
          ("prevPage", js_coalesce (prop meta "prev-page") JNull);
          ("totalPages", js_coalesce (prop meta "total-pages") (JNum 1));
          ("totalCount", js_coalesce (prop meta "total-count") (JNum 0))].

(** The object literal [{ data, meta, included }]. *)
Record Deserialized : Type := mkDeserialized {
  data : JsValue;
  meta : JsValue;
  included : JsValue;
}.

(** [response.included?.map((resource) => deserializeResource(resource))]:
    in decoded JSON only an array has a [map] method. *)
Definition deserializeIncluded (included : JsValue) : Res JsValue :=
  match included with
  | JUndefined | JNull => Ok JUndefined
  | JArr items => decoded ← mapM deserializeResource items; Ok (JArr decoded)
  | _ => Throw (TypeError "response.included.map is not a function")
  end.

Definition deserialize (response : JsValue) : Res Deserialized :=
  rawMeta ← get_prop response "meta";
  let meta := deserializeMeta rawMeta in
  let rawData := prop response "data" in
  match rawData with
  | JArr items =>
      data ← mapM deserializeResource items;
      included ← deserializeIncluded (prop response "included");
      Ok (mkDeserialized (JArr data) meta included)
  | _ =>
      data ← deserializeResource rawData;
      included ← deserializeIncluded (prop response "included");
      Ok (mkDeserialized data meta included)
  end.

(** [prefix ? `${prefix}[${kebabKey}]` : kebabKey] *)
Definition paramKey (prefix kebabKey : string) : string :=
  if prefix =? EmptyString then kebabKey else prefix ++ "[" ++ kebabKey ++ "]".

(** The inner function [addParam] of [buildQueryParams]; the
    [URLSearchParams] it closes over is passed through. *)
Fixpoint addParam (prefix : string) (value : JsValue)
    (searchParams : URLSearchParams) : URLSearchParams :=
  match value with
  | JUndefined | JNull => searchParams
  | JObj props =>
      fold_left
        (fun sp '(key, nestedValue) =>
           addParam (paramKey prefix (camelToKebab key)) nestedValue sp)
        props searchParams
  | JArr items => usp_set prefix (join "," items) searchParams
  | _ => usp_set prefix (toString value) searchParams
  end.

Definition buildQueryParams (params : list (string * JsValue)) : URLSearchParams :=
  fold_left
    (fun sp '(key, value) =>
       if nullish value then sp else addParam (camelToKebab key) value sp)
    params [].

(** [if (operators.op !== undefined) result[`${key}[op]`] = operators.op] *)
Definition set_operator (key op : string) (operators : JsValue)
    (result : list (string * JsValue)) : list (string * JsValue) :=
  match prop operators op with
  | JUndefined => result
  | v => obj_set (key ++ "[" ++ op ++ "]") v result
  end.

(** [typeof value === 'object' && !Array.isArray(value) &&
    ('gt' in value || 'gte' in value || 'lt' in value || 'lte' in value)]
    for a [value] that is not [null]. *)
Definition isOperatorObject (value : JsValue) : bool :=
  match value with
  | JObj props =>
      obj_has "gt" props || obj_has "gte" props
      || obj_has "lt" props || obj_has "lte" props
  | _ => false
  end.

(** One turn of the loop of [buildFilterParams]. *)
Definition filter_step (result : list (string * JsValue))
    (entry : string * JsValue) : list (string * JsValue) :=
  let '(key, value) := entry in
  if nullish value then result
  else if isOperatorObject value
  then set_operator key "lte" value
         (set_operator key "lt" value
            (set_operator key "gte" value
               (set_operator key "gt" value result)))
  else obj_set key value result.

(** [filter] is [None] for an absent ([undefined]) argument. *)
Definition buildFilterParams (filter : option (list (string * JsValue)))
  : list (string * JsValue) :=
  match filter with
  | None => []
  | Some props => fold_left filter_step props []
  end.

(** The mirror of [convertKeysToCamel]. *)
Fixpoint convertKeysToKebab (obj : JsValue) : JsValue :=
  match obj with
  | JUndefined | JNull => obj
  | JArr items => JArr (map convertKeysToKebab items)
  | JObj props =>
      JObj (fold_left
              (fun result '(key, value) =>
                 obj_set (camelToKebab key) (convertKeysToKebab value) result)
              props [])
  | _ => obj
  end.

Definition serializeAttributes (data : list (string * JsValue))
  : list (string * JsValue) :=
  fold_left
    (fun attributes '(key, value) =>
       if (key =? "id") || (key =? "type") then attributes
       else obj_set (camelToKebab key) (convertKeysToKebab value) attributes)
    data [].

(** [serialize(type, data, id?)]; [id] is [None] for an absent argument.
    The resource is built with [id: id || ''] and the [id] property is
    deleted again when [!id], that is for an absent or empty id. *)
Definition serialize (type : string) (data : list (string * JsValue))
    (id : option string) : JsValue :=
  let attributes := JObj (serializeAttributes data) in
  let resource :=
    match id with
    | Some (String c s) =>
        [("id", JStr (String c s)); ("type", JStr type); ("attributes", attributes)]
    | _ => [("type", JStr type); ("attributes", attributes)]
    end in
  JObj [("data", JObj resource)].

End Jsonapi.

(* ===================================================================== *)
(** * src/errors.ts                                                       *)
(* ===================================================================== *)

Module Errors.
Import Js.

(** The class hierarchy rooted at [ITGlueError]; one constructor per class,
    with the arguments its constructor stores.  [new_ITGlueError] builds a
    direct instance of the base class. *)
Inductive ITGlueError : Type :=
| new_ITGlueError (message : string) (statusCode : Z) (response : JsValue)
    (url method : option string)
| new_ITGlueAuthenticationError (message : string) (statusCode : Z)
    (response : JsValue) (url method : option string)
| new_ITGlueNotFoundError (message : string) (response : JsValue)
    (url method : option string)
| new_ITGlueValidationError (message : string) (errors : JsValue)
    (response : JsValue) (url method : option string)
| new_ITGlueRateLimitError (message : string) (retryAfter : option Z)
    (response : JsValue) (url method : option string)
| new_ITGlueServerError (message : string) (statusCode : Z)
    (response : JsValue) (url method : option string)
| new_ITGlueNetworkError (message : string) (cause : option string)
    (url method : option string)
| new_ITGlueTimeoutError (message : string) (timeout : Z)
    (url method : option string).

(** The error kinds of the taxonomy. *)
Inductive ErrorKind : Type :=
| Authentication | NotFound | Validation | RateLimit
| Server | Network | Timeout | Generic.

Definition kind (e : ITGlueError) : ErrorKind :=
  match e with
  | new_ITGlueError _ _ _ _ _ => Generic
  | new_ITGlueAuthenticationError _ _ _ _ _ => Authentication
  | new_ITGlueNotFoundError _ _ _ _ => NotFound
  | new_ITGlueValidationError _ _ _ _ _ => Validation
  | new_ITGlueRateLimitError _ _ _ _ _ => RateLimit
  | new_ITGlueServerError _ _ _ _ _ => Server
  | new_ITGlueNetworkError _ _ _ _ => Network
  | new_ITGlueTimeoutError _ _ _ _ => Timeout
  end.

(** [error.message] *)
Definition message (e : ITGlueError) : string :=
  match e with
  | new_ITGlueError m _ _ _ _
  | new_ITGlueAuthenticationError m _ _ _ _
  | new_ITGlueNotFoundError m _ _ _
  | new_ITGlueValidationError m _ _ _ _
  | new_ITGlueRateLimitError m _ _ _ _
  | new_ITGlueServerError m _ _ _ _
  | new_ITGlueNetworkError m _ _ _
  | new_ITGlueTimeoutError m _ _ _ => m
  end.

(** [error.statusCode], as each constructor passes it to [super]. *)
Definition statusCode (e : ITGlueError) : Z :=
  match e with
  | new_ITGlueError _ s _ _ _
  | new_ITGlueAuthenticationError _ s _ _ _
  | new_ITGlueServerError _ s _ _ _ => s
  | new_ITGlueNotFoundError _ _ _ _ => 404
  | new_ITGlueValidationError _ _ _ _ _ => 422
  | new_ITGlueRateLimitError _ _ _ _ _ => 429
  | new_ITGlueNetworkError _ _ _ _
  | new_ITGlueTimeoutError _ _ _ _ => 0
  end.

(** [error.errors]: the field [ITGlueValidationError] adds; [undefined] on
    the other classes. *)
Definition errors (e : ITGlueError) : JsValue :=
  match e with
  | new_ITGlueValidationError _ errs _ _ _ => errs
  | _ => JUndefined
  end.

(** [message || fallback], then the conversion to string that the [Error]
    constructor applies to its argument. *)
Definition message_or (message : JsValue) (fallback : string) : string :=
  toString (js_or message (JStr fallback)).

Definition createErrorFromResponse (statusCode : Z) (response : JsValue)
    (url method : option string) : ITGlueError :=
  let responseBody := response in
  let errors := prop responseBody "errors" in
  let message :=
    js_or (js_or (prop (get_index0_opt errors) "detail")
                 (prop (get_index0_opt errors) "title"))
          (prop responseBody "message") in
  if (statusCode =? 401)%Z || (statusCode =? 403)%Z then
    new_ITGlueAuthenticationError
      (message_or message "Authentication failed. Check your API key.")
      statusCode response url method
  else if (statusCode =? 404)%Z then
    new_ITGlueNotFoundError
      (message_or message "Resource not found.") response url method
  else if (statusCode =? 422)%Z then
    new_ITGlueValidationError
      (message_or message "Validation failed.")
      (js_or errors (JArr [])) response url method
  else if (statusCode =? 429)%Z then
    new_ITGlueRateLimitError
      (message_or message "Rate limit exceeded.") None response url method
  else if (500 <=? statusCode)%Z then
    new_ITGlueServerError
      (message_or message "Server error occurred.")
      statusCode response url method
  else
    new_ITGlueError
      (message_or message ("HTTP error " ++ pretty statusCode))
      statusCode response url method.

(** [error.response], [error.url] and [error.method], as each constructor
    passes them to [super]. *)
Definition response (e : ITGlueError) : JsValue :=
  match e with
  | new_ITGlueError _ _ r _ _
  | new_ITGlueAuthenticationError _ _ r _ _
  | new_ITGlueNotFoundError _ r _ _
  | new_ITGlueValidationError _ _ r _ _
  | new_ITGlueRateLimitError _ _ r _ _
  | new_ITGlueServerError _ _ r _ _ => r
  | new_ITGlueNetworkError _ _ _ _
  | new_ITGlueTimeoutError _ _ _ _ => JUndefined
  end.

Definition url (e : ITGlueError) : option string :=
  match e with
  | new_ITGlueError _ _ _ u _
  | new_ITGlueAuthenticationError _ _ _ u _
  | new_ITGlueNotFoundError _ _ u _
  | new_ITGlueValidationError _ _ _ u _
  | new_ITGlueRateLimitError _ _ _ u _
  | new_ITGlueServerError _ _ _ u _
  | new_ITGlueNetworkError _ _ u _
  | new_ITGlueTimeoutError _ _ u _ => u
  end.

Definition method (e : ITGlueError) : option string :=
  match e with
  | new_ITGlueError _ _ _ _ m
  | new_ITGlueAuthenticationError _ _ _ _ m
  | new_ITGlueNotFoundError _ _ _ m
  | new_ITGlueValidationError _ _ _ _ m
  | new_ITGlueRateLimitError _ _ _ _ m
  | new_ITGlueServerError _ _ _ _ m
  | new_ITGlueNetworkError _ _ _ m
  | new_ITGlueTimeoutError _ _ _ m => m
  end.

(** The callback of [getErrorMessages]: the truthy ones of [error.title],
    [error.detail] and [`(${error.source.pointer})`], joined by [": "], or
    the fallback when that is the empty string. *)
Definition errorMessage (error : JsValue) : Res string :=
  title ← get_prop error "title";
  let parts := if truthy title then [title] else [] in
  let detail := prop error "detail" in
  let parts := if truthy detail then (parts ++ [detail])%list else parts in
  let pointer := prop (prop error "source") "pointer" in
  let parts :=
    if truthy pointer
    then (parts ++ [JStr ("(" ++ toString pointer ++ ")")])%list
    else parts in
  let joined := join ": " parts in
  Ok (if joined =? EmptyString then "Unknown validation error" else joined).

(** [ITGlueValidationError.getErrorMessages], as a function of
    [this.errors]: only an array has a [map] method. *)
Definition getErrorMessages (errors : JsValue) : Res (list string) :=
  match errors with
  | JArr es => mapM errorMessage es
  | _ => Throw (TypeError "this.errors.map is not a function")
  end.

End Errors.

(* ===================================================================== *)
(** * src/http.ts: the retry wiring                                       *)
(* ===================================================================== *)

Module Http.
Import Js Errors.

(** What a request can throw: an error of the library, or any other
    [Error] (a [TypeError] of the runtime, a [DOMException], ...). *)
Inductive Thrown : Type :=
| ThrownITGlue (e : ITGlueError)
| ThrownOther (name message : string).

(** [error instanceof ITGlueRateLimitError]; the class has no subclass. *)
Definition instanceof_ITGlueRateLimitError (error : Thrown) : bool :=
  match error with
  | ThrownITGlue (new_ITGlueRateLimitError _ _ _ _ _) => true
  | _ => false
  end.

(** [error instanceof ITGlueServerError]; the class has no subclass. *)
Definition instanceof_ITGlueServerError (error : Thrown) : bool :=
  match error with
  | ThrownITGlue (new_ITGlueServerError _ _ _ _ _) => true
  | _ => false
  end.

(** The [shouldRetry] arrow function that [requestWithRetry] passes. *)
Definition shouldRetry (error : Thrown) : bool :=
  instanceof_ITGlueRateLimitError error || instanceof_ITGlueServerError error.

(** The relevant part of [ResolvedConfig.rateLimiter]. *)
Record RateLimitConfig : Type := mkRateLimitConfig {
  retryAfterMs : Z;
  maxRetries : nat;
}.

Record RetryConfig : Type := mkRetryConfig {
  cfg_maxRetries : nat;
  cfg_baseDelayMs : Z;
  cfg_maxDelayMs : Z;
  cfg_shouldRetry : Thrown -> bool;
}.

Section Retry.
(** The state of the outside world, the result type of a request, and the
    effect on the world of the pause before retry number [i] (the length
    of the pause is random and is not observed). *)
Context {W A : Type}.
Variable wait : nat -> W -> W.

(** An attempt either throws or returns. *)
Definition Attempt : Type := W -> (Thrown + A) * W.

(** Modelled from the spec: [retryWithBackoff] of src/rate-limiter.ts,
    which is not among the sources.  Run the attempt; a success is
    returned at once; a failure is raised again when [shouldRetry]
    rejects it or when the attempts already made exceed [maxRetries];
    otherwise the engine pauses and tries again.  [retriesLeft] is
    [maxRetries] minus the index of the attempt. *)
Fixpoint retry_loop (config : RetryConfig) (attempt : Attempt)
    (retriesLeft attemptIndex : nat) (w : W) : (Thrown + A) * W :=
  match attempt w with
  | (inr v, w') => (inr v, w')
  | (inl error, w') =>
      if cfg_shouldRetry config error then
        match retriesLeft with
        | O => (inl error, w')
        | S r => retry_loop config attempt r (S attemptIndex) (wait attemptIndex w')
        end
      else (inl error, w')
  end.

(** Modelled from the spec: [retryWithBackoff attempt config] starts the
    loop at attempt 0 with [maxRetries] retries left, so that at most
    [maxRetries + 1] attempts are made. *)
Definition retryWithBackoff (attempt : Attempt) (config : RetryConfig)
  : W -> (Thrown + A) * W :=
  retry_loop config attempt (cfg_maxRetries config) 0.

(** [HttpClient.requestWithRetry]; [request] stands for
    [() => this.request<T>(method, path, options)]. *)
Definition requestWithRetry (rateLimiter : RateLimitConfig)
    (request : Attempt) : W -> (Thrown + A) * W :=
  retryWithBackoff request
    {| cfg_maxRetries := maxRetries rateLimiter;
       cfg_baseDelayMs := retryAfterMs rateLimiter;
       cfg_maxDelayMs := 60000;
       cfg_shouldRetry := shouldRetry |}.
End Retry.

End Http.

(* ===================================================================== *)
(** * src/pagination.ts                                                   *)
(* ===================================================================== *)

Module Pagination.

Definition DEFAULT_PAGE_SIZE : Z := 50.
Definition MAX_PAGE_SIZE : Z := 1000.

(** The page descriptor handed to the fetcher. *)
Record PaginationParams : Type := mkParams {
  number : Z;
  size : Z;
}.

(** [nextPage] and [prevPage] are [None] for [null]. *)
Record PaginationMeta : Type := mkMeta {
  currentPage_ : Z;
  nextPage : option Z;
  prevPage : option Z;
  totalPages : Z;
  totalCount : Z;
}.

Record PaginationOptions : Type := mkOptions {
  startPage : option Z;
  pageSize : option Z;
  maxItems : option Z;
}.

(** [x || d] on an optional number: [undefined] and [0] are falsy. *)
Definition or_default (x : option Z) (d : Z) : Z :=
  match x with
  | Some n => if (n =? 0)%Z then d else n
  | None => d
  end.

(** [{ ...options, maxItems: count }] *)
Definition spread_maxItems (options : PaginationOptions) (count : Z)
  : PaginationOptions :=
  {| startPage := startPage options;
     pageSize := pageSize options;
     maxItems := Some count |}.

Section Engine.
(** Items, the state of the world the fetcher acts on, and the reasons a
    fetch can be rejected with. *)
Context {T W E : Type}.

(** A page as the fetcher resolves it; [meta] is [None] when the field is
    missing, which the iterator tolerates ([meta?.nextPage]). *)
Record PaginatedResponse : Type := mkResponse {
  data : list T;
  meta : option PaginationMeta;
}.

(** [PageFetcher<T>]: an effectful function of the page descriptor whose
    promise resolves with a page or rejects. *)
Definition PageFetcher : Type :=
  PaginationParams -> W -> (E + PaginatedResponse) * W.

(** The variables the closure of [next] captures by reference;
    [lastMeta] is the variable [meta]. *)
Record Cursor : Type := mkCursor {
  currentPage : Z;
  currentItems : list T;
  currentIndex : nat;
  totalReturned : nat;
  hasMore : bool;
  lastMeta : option PaginationMeta;
}.

#[export] Instance Cursor_inhabited : Inhabited Cursor :=
  populate (mkCursor 1 [] 0 0 true None).

(** The store of cursors (one cell per iterator built), the world of the
    fetcher, and the log of the calls the fetcher has received. *)
Record Machine : Type := mkMachine {
  heap : gmap nat Cursor;
  world : W;
  fetchLog : list PaginationParams;
}.

(** The iterator object: what its closure captures by value, and the
    location of its cursor. *)
Record Iterator : Type := mkIterator {
  it_fetcher : PageFetcher;
  it_pageSize : Z;
  it_maxItems : option Z;
  it_cursor : nat;
}.

(** The iterable holds the one iterator it was built with. *)
Record Iterable : Type := mkIterable {
  iterator : Iterator;
}.

(** [{ done: true, value: undefined }] and [{ done: false, value: item }] *)
Inductive IteratorResult : Type :=
| IterDone
| IterValue (item : T).

(** How the [while] loop of [next] is left. *)
Inductive LoopExit : Type :=
| Rejected (e : E) (c : Cursor) (w : W) (log : list PaginationParams)
| ReturnedDone (c : Cursor) (w : W) (log : list PaginationParams)
| Exited (c : Cursor) (w : W) (log : list PaginationParams).

(** [meta?.nextPage !== null && meta?.nextPage !== undefined] *)
Definition has_next (meta : option PaginationMeta) : bool :=
  match meta with
  | Some mt => match nextPage mt with Some _ => true | None => false end
  | None => false
  end.

(** [while (currentIndex >= currentItems.length && hasMore) { ... }];
    [None] when [fuel] turns of the loop were not enough. *)
Fixpoint fetch_while (fuel : nat) (it : Iterator) (c : Cursor) (w : W)
    (log : list PaginationParams) : option LoopExit :=
  if (length (currentItems c) <=? currentIndex c)%nat && hasMore c then
    match fuel with
    | O => None
    | S fuel' =>
        let page := mkParams (currentPage c) (it_pageSize it) in
        match it_fetcher it page w with
        | (inl e, w') => Some (Rejected e c w' (log ++ [page]))
        | (inr response, w') =>
            let c' :=
              {| currentItems := data response;
                 lastMeta := meta response;
                 currentIndex := 0;
                 currentPage := currentPage c + 1;
                 hasMore := has_next (meta response);
                 totalReturned := totalReturned c |} in
            if (length (currentItems c') =? 0)%nat
            then Some (ReturnedDone c' w' (log ++ [page]))
            else fetch_while fuel' it c' w' (log ++ [page])
        end
    end
  else Some (Exited c w log).

(** Write the cursor of [it] back. *)
Definition store (it : Iterator) (m : Machine) (c : Cursor) (w : W)
    (log : list PaginationParams) : Machine :=
  {| heap := <[it_cursor it := c]> (heap m); world := w; fetchLog := log |}.

(** [maxItems !== undefined && totalReturned >= maxItems] *)
Definition cap_reached (it : Iterator) (c : Cursor) : bool :=
  match it_maxItems it with
  | Some maxItems => (maxItems <=? Z.of_nat (totalReturned c))%Z
  | None => false
  end.

(** [iterator.next()].  The test [currentIndex >= currentItems.length] and
    the read [currentItems[currentIndex++]] that follows it are one lookup:
    it fails exactly when the index is past the end. *)
Definition next (fuel : nat) (it : Iterator) (m : Machine)
  : option ((E + IteratorResult) * Machine) :=
  let c := heap m !!! it_cursor it in
  if cap_reached it c then Some (inr IterDone, m)
  else
    match fetch_while fuel it c (world m) (fetchLog m) with
    | None => None
    | Some (Rejected e c' w' log') => Some (inl e, store it m c' w' log')
    | Some (ReturnedDone c' w' log') => Some (inr IterDone, store it m c' w' log')
    | Some (Exited c' w' log') =>
        match currentItems c' !! currentIndex c' with
        | None => Some (inr IterDone, store it m c' w' log')
        | Some item =>
            let c'' :=
              {| currentItems := currentItems c';
                 lastMeta := lastMeta c';
                 currentIndex := S (currentIndex c');
                 currentPage := currentPage c';
                 hasMore := hasMore c';
                 totalReturned := S (totalReturned c') |} in
            Some (inr (IterValue item), store it m c'' w' log')
        end
    end.

Definition createPaginatedIterator (fetcher : PageFetcher)
    (options : PaginationOptions) (m : Machine) : Iterable * Machine :=
  let pageSize := Z.min (or_default (pageSize options) DEFAULT_PAGE_SIZE) MAX_PAGE_SIZE in
  let startPage := or_default (startPage options) 1 in
  let maxItems := maxItems options in
  let l := fresh (dom (heap m)) in
  let c :=
    {| currentPage := startPage;
       currentItems := [];
       currentIndex := 0;
       totalReturned := 0;
       hasMore := true;
       lastMeta := None |} in
  (mkIterable (mkIterator fetcher pageSize maxItems l),
   {| heap := <[l := c]> (heap m); world := world m; fetchLog := fetchLog m |}).

(** [iterable[Symbol.asyncIterator]()] *)
Definition asyncIterator (iterable : Iterable) : Iterator :=
  iterator iterable.

(** The [for await] loop of [toArray] over an iterator, pushing onto
    [results]; [None] when [fuel] turns were not enough. *)
Fixpoint drain (fuel : nat) (it : Iterator) (results : list T) (m : Machine)
  : option ((E + list T) * Machine) :=
  match fuel with
  | O => None
  | S fuel' =>
      match next fuel it m with
      | None => None
      | Some (inl e, m') => Some (inl e, m')
      | Some (inr IterDone, m') => Some (inr results, m')
      | Some (inr (IterValue item), m') => drain fuel' it (results ++ [item]) m'
      end
  end.

(** [iterable.toArray()] *)
Definition toArray (fuel : nat) (iterable : Iterable) (m : Machine)
  : option ((E + list T) * Machine) :=
  drain fuel (asyncIterator iterable) [] m.

Definition collectAll (fuel : nat) (fetcher : PageFetcher)
    (options : PaginationOptions) (m : Machine)
  : option ((E + list T) * Machine) :=
  let '(iterable, m') := createPaginatedIterator fetcher options m in
  toArray fuel iterable m'.

Definition take (fuel : nat) (fetcher : PageFetcher) (count : Z)
    (options : PaginationOptions) (m : Machine)
  : option ((E + list T) * Machine) :=
  let '(iterable, m') :=
    createPaginatedIterator fetcher (spread_maxItems options count) m in
  toArray fuel iterable m'.

(** ** The page iterator *)

(** The variables the closure of the page iterator captures by
    reference. *)
Record PageCursor : Type := mkPageCursor {
  pc_currentPage : Z;
  pc_hasMore : bool;
}.

#[export] Instance PageCursor_inhabited : Inhabited PageCursor :=
  populate (mkPageCursor 1 true).

(** The store of the cursors of page iterators, the world of the fetcher
    and the log of the calls it has received. *)
Record PageMachine : Type := mkPageMachine {
  pheap : gmap nat PageCursor;
  pworld : W;
  pfetchLog : list PaginationParams;
}.

(** The page iterator object: what its closure captures by value, and the
    location of its cursor. *)
Record PageIterator : Type := mkPageIterator {
  pit_fetcher : PageFetcher;
  pit_pageSize : Z;
  pit_startPage : Z;
  pit_cursor : nat;
}.

Record PageIterable : Type := mkPageIterable {
  page_iterator : PageIterator;
}.

Inductive PageResult : Type :=
| PageDone
| PageValue (response : PaginatedResponse).

(** [iterator.next()] of [createPageIterator]. *)
Definition page_next (it : PageIterator) (m : PageMachine)
  : (E + PageResult) * PageMachine :=
  let c := pheap m !!! pit_cursor it in
  if negb (pc_hasMore c) then (inr PageDone, m)
  else
    let page := mkParams (pc_currentPage c) (pit_pageSize it) in
    match pit_fetcher it page (pworld m) with
    | (inl e, w') =>
        (inl e,
         {| pheap := pheap m; pworld := w'; pfetchLog := pfetchLog m ++ [page] |})
    | (inr response, w') =>
        let c' :=
          {| pc_currentPage := pc_currentPage c + 1;
             pc_hasMore := has_next (meta response) |} in
        let m' :=
          {| pheap := <[pit_cursor it := c']> (pheap m);
             pworld := w';
             pfetchLog := pfetchLog m ++ [page] |} in
        if (length (data response) =? 0)%nat
           && (pit_startPage it + 1 <? pc_currentPage c')%Z
        then (inr PageDone, m')
        else (inr (PageValue response), m')
    end.

Definition createPageIterator (fetcher : PageFetcher)
    (options : PaginationOptions) (m : PageMachine) : PageIterable * PageMachine :=
  let pageSize := Z.min (or_default (pageSize options) DEFAULT_PAGE_SIZE) MAX_PAGE_SIZE in
  let startPage := or_default (startPage options) 1 in
  let l := fresh (dom (pheap m)) in
  (mkPageIterable (mkPageIterator fetcher pageSize startPage l),
   {| pheap := <[l := mkPageCursor startPage true]> (pheap m);
      pworld := pworld m;
      pfetchLog := pfetchLog m |}).

(** The [for await] loop of the page iterable's [toArray]; [None] when
    [fuel] turns were not enough. *)
Fixpoint page_drain (fuel : nat) (it : PageIterator)
    (results : list PaginatedResponse) (m : PageMachine)
  : option ((E + list PaginatedResponse) * PageMachine) :=
  match fuel with
  | O => None
  | S fuel' =>
      match page_next it m with
      | (inl e, m') => Some (inl e, m')
      | (inr PageDone, m') => Some (inr results, m')
      | (inr (PageValue response), m') =>
          page_drain fuel' it (results ++ [response]) m'
      end
  end.

(** [iterable.toArray()] of the page iterable. *)
Definition page_toArray (fuel : nat) (iterable : PageIterable) (m : PageMachine)
  : option ((E + list PaginatedResponse) * PageMachine) :=
  page_drain fuel (page_iterator iterable) [] m.

End Engine.

Arguments PaginatedResponse : clear implicits.
Arguments PageFetcher : clear implicits.
Arguments Cursor : clear implicits.
Arguments Machine : clear implicits.
Arguments Iterator : clear implicits.
Arguments Iterable : clear implicits.
Arguments IteratorResult : clear implicits.
Arguments LoopExit : clear implicits.
Arguments PageMachine : clear implicits.
Arguments PageIterator : clear implicits.
Arguments PageIterable : clear implicits.
Arguments PageResult : clear implicits.

End Pagination.

(* ===================================================================== *)
(** * src/config.ts                                                       *)
(* ===================================================================== *)

Module Config.
Import Js.

(** [REGION_URLS], the own properties of the table in order. *)
Definition REGION_URLS : list (string * string) :=
  [("us", "https://api.itglue.com");
   ("eu", "https://api.eu.itglue.com");
   ("au", "https://api.au.itglue.com")].

Definition DEFAULT_CONFIG_region : string := "us".

(** The fields of [ITGlueClientConfig] that [resolveBaseUrl] reads; [None]
    for an absent field. *)
Record ITGlueClientConfig : Type := mkClientConfig {
  region : option string;
  baseUrl : option string;
}.

(** A thrown [Error] with its message. *)
Inductive Thrown : Type :=
| Error (msg : string).

Fixpoint only_slashes (s : string) : bool :=
  match s with
  | EmptyString => true
  | String c s' => Ascii.eqb c "/" && only_slashes s'
  end.

(** [s.replace(/\/+$/, '')]: the match starts at the first slash after
    which only slashes follow up to the end, and is removed. *)
Fixpoint strip_trailing_slashes (s : string) : string :=
  match s with
  | EmptyString => EmptyString
  | String c s' =>
      if Ascii.eqb c "/" && only_slashes s' then EmptyString
      else String c (strip_trailing_slashes s')
  end.

(** [table[key]] for a key that is no member of [Object.prototype]. *)
Fixpoint table_get (key : string) (table : list (string * string)) : option string :=
  match table with
  | [] => None
  | (k, v) :: table' => if key =? k then Some v else table_get key table'
  end.

(** [s || d] on an optional string: [undefined] and the empty string are
    falsy. *)
Definition string_or (s : option string) (d : string) : string :=
  match s with
  | Some (String c s') => String c s'
  | _ => d
  end.

Definition quote : string := String (ascii_of_nat 34) EmptyString.

(** [resolveBaseUrl(config)] *)
Definition resolveBaseUrl (config : ITGlueClientConfig) : Thrown + string :=
  match baseUrl config with
  | Some (String c s) => inr (strip_trailing_slashes (String c s))
  | _ =>
      let region := string_or (region config) DEFAULT_CONFIG_region in
      match table_get region REGION_URLS with
      | Some (String c s) => inr (String c s)
      | _ =>
          inl (Error ("Invalid region " ++ quote ++ region ++ quote
                      ++ ". Valid regions are: "
                      ++ join_strings ", " (map fst REGION_URLS)))
      end
  end.

End Config.

(* ===================================================================== *)
(** * src/resources/base.ts                                               *)
(* ===================================================================== *)

Module Resources.
Import Js Jsonapi Pagination.

(** [buildListParams(params)] of [BaseResource]; [params] is [None] for an
    absent argument.  [params.filter] is truthy where it is handed to
    [buildFilterParams], which reads it with [Object.entries]. *)
Definition buildListParams (params : option (list (string * JsValue)))
  : list (string * JsValue) :=
  match params with
  | None => []
  | Some ps =>
      let result := [] in
      let result :=
        if obj_has "filter" ps && truthy (prop (JObj ps) "filter")
        then obj_set "filter"
               (JObj (buildFilterParams (Some (entries (prop (JObj ps) "filter")))))
               result
        else result in
      let result :=
        if truthy (prop (JObj ps) "page")
        then obj_set "page" (prop (JObj ps) "page") result else result in
      let result :=
        if truthy (prop (JObj ps) "sort")
        then obj_set "sort" (prop (JObj ps) "sort") result else result in
      let result :=
        if truthy (prop (JObj ps) "include")
        then obj_set "include" (prop (JObj ps) "include") result else result in
      result
  end.

(** The page descriptor as the iterator builds it:
    [{ number: currentPage, size: pageSize }]. *)
Definition page_object (page : PaginationParams) : JsValue :=
  JObj [("number", JNum (number page)); ("size", JNum (size page))].

(** [{ ...baseParams, page }] *)
Definition spread_page (baseParams : list (string * JsValue))
    (page : PaginationParams) : list (string * JsValue) :=
  obj_set "page" (page_object page) baseParams.

Section ListAll.
Context {T W E : Type}.
(** [client.list(path, queryParams)]: the request, acting on the world. *)
Variable client_list :
  string -> list (string * JsValue) -> W -> (E + PaginatedResponse T) * W.

(** [listAll(params)] of a resource at [basePath]. *)
Definition listAll (basePath : string) (params : option (list (string * JsValue)))
    (m : Machine T W) : Iterable T W E * Machine T W :=
  let baseParams := buildListParams params in
  createPaginatedIterator
    (fun page w =>
       let queryParams := spread_page baseParams page in
       client_list basePath queryParams w)
    (mkOptions None (Some DEFAULT_PAGE_SIZE) None) m.

End ListAll.

End Resources.

(* ===================================================================== *)
(** * Predicates and reference definitions used by the statements         *)
(* ===================================================================== *)

Module Props.
Import Js Jsonapi.

(** Keys made of lowercase words joined by capitalization: ASCII letters
    only, and a capital only directly after a lowercase letter (so the key
    does not begin with a capital and has no run of capitals).
    [afterLower] tells whether the previous character was lowercase. *)
Fixpoint camel_words (afterLower : bool) (k : string) : bool :=
  match k with
  | EmptyString => true
  | String c k' =>
      if is_lower c then camel_words true k'
      else if is_upper c then afterLower && camel_words false k'
      else false
  end.

Definition singleCapitalCamel (k : string) : bool := camel_words false k.

(** Characters of ASCII.  The regular expressions of the key conversions
    name ASCII letters only, but [toLowerCase] and [toUpperCase] of the
    engine also change letters outside ASCII, which [Js.toLowerCase] does
    not: statements about keys are made for ASCII keys. *)
Definition is_ascii (c : ascii) : bool := (N_of_ascii c <? 128)%N.

Fixpoint ascii_only (s : string) : bool :=
  match s with
  | EmptyString => true
  | String c s' => is_ascii c && ascii_only s'
  end.

(** In [s], which follows the character [prev], every capital directly
    follows a lowercase letter and no hyphen is directly followed by a
    lowercase letter. *)
Fixpoint restorable_after (prev : ascii) (s : string) : bool :=
  match s with
  | EmptyString => true
  | String c s' =>
      (negb (is_upper c) || is_lower prev)
      && negb (Ascii.eqb prev "-" && is_lower c)
      && restorable_after c s'
  end.

(** Internal keys that come back from the wire: every capital directly
    follows a lowercase letter (so the key does not begin with a capital)
    and no hyphen is directly followed by a lowercase letter. *)
Definition restorableKey (s : string) : bool :=
  match s with
  | EmptyString => true
  | String c s' => negb (is_upper c) && restorable_after c s'
  end.

(** Wire keys that come back from the internal convention: no capital,
    and every hyphen that is directly followed by a lowercase letter
    directly follows a lowercase letter that does not itself follow such
    a hyphen.  [afterLower] tells whether the character before [s] is a
    lowercase letter that [kebabToCamel] leaves as it is. *)
Fixpoint wire_after (afterLower : bool) (s : string) : bool :=
  match s with
  | EmptyString => true
  | String a t =>
      match t with
      | String c rest =>
          if Ascii.eqb a "-" && is_lower c
          then afterLower && wire_after false rest
          else negb (is_upper a) && wire_after (is_lower a) t
      | EmptyString => negb (is_upper a)
      end
  end.

Definition restorableWireKey (s : string) : bool := wire_after false s.

(** Property names made of digits only: the engine keeps the array
    indices among them before the other keys of an object, whatever the
    order of the assignments. *)
Definition is_digit (c : ascii) : bool :=
  (48 <=? N_of_ascii c)%N && (N_of_ascii c <=? 57)%N.

Fixpoint digits_only (s : string) : bool :=
  match s with
  | EmptyString => true
  | String c s' => is_digit c && digits_only s'
  end.

Definition index_like (k : string) : bool :=
  match k with
  | EmptyString => false
  | String _ _ => digits_only k
  end.

(** The keys for which an assignment [o[k] = v] to an object literal adds
    an own property after the existing ones or overwrites one in place:
    every key but [__proto__], which runs the setter of
    [Object.prototype], and the index-like keys. *)
Definition ordinary_key (k : string) : bool :=
  negb (k =? "__proto__") && negb (index_like k).

(** Keys of objects that survive encoding and decoding. *)
Definition roundTripKey (k : string) : bool :=
  ascii_only k && restorableKey k && ordinary_key k.

(** ** Filter expansion, in the words of the specification *)

Definition operator_names : list string := ["gt"; "gte"; "lt"; "lte"].

(** The assignments one filter entry gives rise to: none for a [null] or
    [undefined] value; one key [field[op]] per operator that is defined
    for an operator object; the entry itself otherwise. *)
Definition filter_emits (entry : string * JsValue) : list (string * JsValue) :=
  let '(field, value) := entry in
  if nullish value then []
  else if isOperatorObject value then
    flat_map
      (fun op =>
         match prop value op with
         | JUndefined => []
         | v => [(field ++ "[" ++ op ++ "]", v)]
         end)
      operator_names
  else [(field, value)].

(** An object built by successive assignments [o[k] = v]. *)
Definition assign_all (assignments : list (string * JsValue))
    (o : list (string * JsValue)) : list (string * JsValue) :=
  fold_left (fun o '(k, v) => obj_set k v o) assignments o.

(** ** Query parameters *)

(** The tree with every property whose value is [null] or [undefined]
    removed, at every depth of nested maps.  Lists are left as they are. *)
Fixpoint strip_nullish (v : JsValue) : JsValue :=
  match v with
  | JObj props =>
      JObj (flat_map
              (fun '(k, x) => if nullish x then [] else [(k, strip_nullish x)])
              props)
  | _ => v
  end.

Definition strip_nullish_props (params : list (string * JsValue))
  : list (string * JsValue) :=
  flat_map (fun '(k, x) => if nullish x then [] else [(k, strip_nullish x)]) params.

(** ** Shapes that decode *)

(** A resource decodes when it is not [null]/[undefined] and, if it has a
    truthy [relationships], none of the entries of that is [null] or
    [undefined]. *)
Definition resource_decodes (resource : JsValue) : bool :=
  negb (nullish resource)
  && (negb (truthy (prop resource "relationships"))
      || forallb (fun e => negb (nullish e.2))
           (entries (prop resource "relationships"))).

(** An envelope decodes when it is not [null]/[undefined], its [data] is a
    list of resources that decode or one value that decodes, and its
    [included] is absent or a list of resources that decode. *)
Definition envelope_decodes (response : JsValue) : bool :=
  negb (nullish response)
  && match prop response "data" with
     | JArr items => forallb resource_decodes items
     | d => resource_decodes d
     end
  && match prop response "included" with
     | JUndefined | JNull => true
     | JArr items => forallb resource_decodes items
     | _ => false
     end.

(** ** Keys *)

Fixpoint has_upper (s : string) : bool :=
  match s with
  | EmptyString => false
  | String c s' => is_upper c || has_upper s'
  end.

(** A hyphen directly before a lowercase letter, somewhere in the string. *)
Fixpoint has_hyphen_lower (s : string) : bool :=
  match s with
  | EmptyString => false
  | String a t =>
      match t with
      | String c _ => (Ascii.eqb a "-" && is_lower c) || has_hyphen_lower t
      | EmptyString => false
      end
  end.

(** What [kebabToCamel] returns has no hyphen before a lowercase letter,
    and it begins with a lowercase letter only if its argument does. *)
Definition decoded_ok (s : string) : Prop :=
  has_hyphen_lower (kebabToCamel s) = false
  /\ forall c r, s = String c r ->
                 exists d r', kebabToCamel s = String d r'
                              /\ (is_lower d = true -> is_lower c = true).

(** ** Values that survive encoding and decoding *)

(** Keys that [serializeAttributes] keeps. *)
Definition is_attribute_key (k : string) : bool :=
  negb ((k =? "id") || (k =? "type")).

(** Every object in the value, at any depth, has keys that survive
    encoding and decoding, and no key twice. *)
Fixpoint camelClean (v : JsValue) : bool :=
  match v with
  | JObj props =>
      forallb (fun '(k, x) => roundTripKey k && camelClean x) props
      && bool_decide (NoDup (map fst props))
  | JArr items => forallb camelClean items
  | _ => true
  end.

(** ** The pagination cursor *)

(** ** Validation messages, in words *)

(** A field of an error that is absent or holds a string. *)
Definition as_field (field : option string) : JsValue :=
  match field with
  | None => JUndefined
  | Some text => JStr text
  end.

(** The field when it is present and not empty. *)
Definition present (field : option string) : list string :=
  match field with
  | Some (String c text) => [String c text]
  | _ => []
  end.

(** The message of a validation error with the given title, detail and
    pointer: those that are present, the pointer in parentheses, joined
    by a colon and a space; a fixed text when none is present. *)
Definition described_message (title detail pointer : option string) : string :=
  match (present title ++ present detail
         ++ map (fun p => ("(" ++ p ++ ")")%string) (present pointer))%list with
  | [] => "Unknown validation error"
  | parts => join_strings ": " parts
  end.

(** Booleans, numbers and strings. *)
Definition is_primitive (v : JsValue) : bool :=
  match v with
  | JBool _ | JNum _ | JStr _ => true
  | _ => false
  end.

(** The names of the query that belong to the page descriptor. *)
Definition is_page_name (e : string * string) : bool :=
  String.prefix "page" e.1.

Fixpoint ends_with_slash (s : string) : bool :=
  match s with
  | EmptyString => false
  | String c EmptyString => Ascii.eqb c "/"
  | String _ s' => ends_with_slash s'
  end.

Fixpoint slashes (k : nat) : string :=
  match k with
  | O => EmptyString
  | S k' => String "/" (slashes k')
  end.

(** Prefixes whose first character already tells them from the names of
    the page descriptor. *)
Definition starts_off_page (prefix : string) : bool :=
  match prefix with
  | String c _ => negb (Ascii.eqb c "p")
  | EmptyString => false
  end.

Section Cursor.
Import Pagination.
Context {T W E : Type}.

(** The cursor of an iterator in a machine. *)
Definition cursor_of (it : Iterator T W E) (m : Machine T W) : Cursor T :=
  heap m !!! it_cursor it.

(** The parts of a machine that one iterator sees: its cursor, the world
    and the log of fetches. *)
Definition in_state (it : Iterator T W E) (m : Machine T W)
    (c : Cursor T) (w : W) (log : list PaginationParams) : Prop :=
  cursor_of it m = c /\ world m = w /\ fetchLog m = log.

(** The cursor after a page has been received. *)
Definition loaded (c : Cursor T) (response : PaginatedResponse T) : Cursor T :=
  {| currentItems := data response;
     lastMeta := meta response;
     currentIndex := 0;
     currentPage := (currentPage c + 1)%Z;
     hasMore := has_next (meta response);
     totalReturned := totalReturned c |}.

(** The cursor after an item has been handed out. *)
Definition advanced (c : Cursor T) : Cursor T :=
  {| currentItems := currentItems c;
     lastMeta := lastMeta c;
     currentIndex := S (currentIndex c);
     currentPage := currentPage c;
     hasMore := hasMore c;
     totalReturned := S (totalReturned c) |}.

(** The item iterator with [maxItems = n] and the other options as given,
    drained to an array: what the specification says [take] is. *)
Definition drained_with_cap (fuel : nat) (fetcher : PageFetcher T W E) (n : Z)
    (options : PaginationOptions) (m : Machine T W)
  : option ((E + list T) * Machine T W) :=
  let capped :=
    {| startPage := startPage options;
       pageSize := pageSize options;
       maxItems := Some n |} in
  let '(iterable, m') := createPaginatedIterator fetcher capped m in
  toArray fuel iterable m'.

(** A source that serves the pages of a list: page [k] (from 1) is the
    [k]-th list, with [nextPage = k + 1] unless it is the last one; a page
    past the end is empty.  It ignores the requested size, never rejects
    and leaves the world alone. *)
Definition page_source (pages : list (list T)) : PageFetcher T W E :=
  fun page w =>
    let k := number page in
    (inr {| data := nth (Z.to_nat (k - 1)) pages [];
            meta := Some {| currentPage_ := k;
                            nextPage := if (k <? Z.of_nat (length pages))%Z
                                        then Some (k + 1)%Z else None;
                            prevPage := if (1 <? k)%Z then Some (k - 1)%Z else None;
                            totalPages := Z.of_nat (length pages);
                            totalCount := Z.of_nat (length (concat pages)) |} |},
     w).

(** How many of the pages [rest] must be fetched to hand out [need] more
    items when [avail] items are still buffered. *)
Fixpoint pages_needed (need avail : nat) (rest : list (list T)) : nat :=
  if (need <=? avail)%nat then 0%nat
  else match rest with
       | [] => 0%nat
       | page :: rest' => S (pages_needed (need - avail) (length page) rest')
       end.

(** The descriptors of pages [first + 1 .. first + count], all of one
    size. *)
Definition page_requests (size : Z) (first count : nat) : list PaginationParams :=
  map (fun k => mkParams (Z.of_nat k + 1) size) (seq first count).

(** The page descriptors [first], [first + 1], ... ([count] of them), all
    of one size. *)
Definition requests_from (first size : Z) (count : nat) : list PaginationParams :=
  map (fun i => mkParams (first + Z.of_nat i) size) (seq 0 count).

(** The pages up to the first empty one. *)
Fixpoint leading_pages (pages : list (list T)) : list (list T) :=
  match pages with
  | [] => []
  | page :: rest =>
      match page with
      | [] => []
      | _ :: _ => page :: leading_pages rest
      end
  end.

(** How many of the pages [rest] are asked for once the pages before them
    have been received: those up to the first empty one, and that one. *)
Definition further_requests (rest : list (list T)) : nat :=
  let k := length (leading_pages rest) in
  if (k <? length rest)%nat then S k else k.

(** The parts of a page machine that one page iterator sees. *)
Definition page_state (it : PageIterator T W E) (m : PageMachine W)
    (c : PageCursor) (w : W) (log : list PaginationParams) : Prop :=
  pheap m !!! pit_cursor it = c /\ pworld m = w /\ pfetchLog m = log.

End Cursor.

End Props.

(* ===================================================================== *)
(** * Concrete inputs used by the examples                                *)
(* ===================================================================== *)

Module Fixtures.
Import Js Errors Http.


(** A request that answers 503 the first time and succeeds afterwards,
    counting its attempts in the world. *)
Definition once_503 : @Attempt nat unit :=
  fun attempts =>
    match attempts with
    | O => (inl (ThrownITGlue (createErrorFromResponse 503 JNull None None)), 1%nat)
    | S n => (inr tt, S (S n))
    end.

Section Sources.
Import Pagination.

(** Page 1 holds two items and points to page 2; page 2 holds two items
    and is the last. *)
Definition two_pages : PageFetcher string unit string :=
  fun page w =>
    if (number page =? 1)%Z then
      (inr (mkResponse ["1"; "2"] (Some (mkMeta 1 (Some 2%Z) None 2 4))), w)
    else if (number page =? 2)%Z then
      (inr (mkResponse ["3"; "4"] (Some (mkMeta 2 None (Some 1%Z) 2 4))), w)
    else (inl "no such page", w).

(** Page 1 is empty yet points to page 2; page 2 holds one item. *)
Definition empty_then_item : PageFetcher string unit string :=
  fun page w =>
    if (number page =? 1)%Z then
      (inr (mkResponse [] (Some (mkMeta 1 (Some 2%Z) None 2 1))), w)
    else if (number page =? 2)%Z then
      (inr (mkResponse ["x"] (Some (mkMeta 2 None (Some 1%Z) 2 1))), w)
    else (inl "no such page", w).

(** Ten pages of three items: 30 items in all. *)
Definition thirty_items : list (list nat) :=
  map (fun k => [3 * k; 3 * k + 1; 3 * k + 2]%nat) (seq 0 10).

(** A machine in which nothing has happened yet. *)
Definition fresh_machine {T} : Machine T unit := mkMachine ∅ tt [].

End Sources.

End Fixtures.

(* ===================================================================== *)
(** * Facts about the JavaScript fragment                                 *)
(* ===================================================================== *)

Section CharFacts.
Import Js.

Ltac by_cases_on_char c :=
  destruct c as [[] [] [] [] [] [] [] []]; vm_compute; try reflexivity; try discriminate.

Lemma lower_not_upper c : is_lower c = true -> is_upper c = false.
Proof. by_cases_on_char c. Qed.

Lemma lower_not_hyphen c : is_lower c = true -> Ascii.eqb c "-" = false.
Proof. by_cases_on_char c. Qed.

Lemma upper_not_hyphen c : is_upper c = true -> Ascii.eqb c "-" = false.
Proof. by_cases_on_char c. Qed.

Lemma toLowerCase_lower c : is_lower c = true -> char_toLowerCase c = c.
Proof. by_cases_on_char c. Qed.

Lemma toLowerCase_upper_is_lower c :
  is_upper c = true -> is_lower (char_toLowerCase c) = true.
Proof. by_cases_on_char c. Qed.

Lemma toUpperCase_toLowerCase c :
  is_upper c = true -> char_toUpperCase (char_toLowerCase c) = c.
Proof. by_cases_on_char c. Qed.

Lemma toLowerCase_not_hyphen c :
  Ascii.eqb c "-" = false -> Ascii.eqb (char_toLowerCase c) "-" = false.
Proof. by_cases_on_char c. Qed.

End CharFacts.

(* ===================================================================== *)
(** * Key conversion (src/jsonapi.ts)                                     *)
(* ===================================================================== *)

Section KeyConversion.
Import Js Jsonapi Props.

Example kebabToCamel_examples :
  kebabToCamel "organization-type-name" = "organizationTypeName"
  /\ kebabToCamel "some-url-value" = "someUrlValue"
  /\ kebabToCamel EmptyString = EmptyString.
Proof. repeat split. Qed.

Example camelToKebab_examples :
  camelToKebab "organizationTypeName" = "organization-type-name"
  /\ camelToKebab "someURLValue" = "some-urlvalue"
  /\ camelToKebab EmptyString = EmptyString.
Proof. repeat split. Qed.

(** A character that is not a hyphen is copied by [kebabToCamel]. *)
Lemma kebabToCamel_cons a s :
  Ascii.eqb a "-" = false ->
  kebabToCamel (String a s) = String a (kebabToCamel s).
Proof. intros Ha. destruct s as [|c s]; simpl; rewrite ?Ha; reflexivity. Qed.

(** A hyphen before a lowercase letter becomes the capital. *)
Lemma kebabToCamel_hyphen c s :
  is_lower c = true ->
  kebabToCamel (String "-" (String c s)) = String (char_toUpperCase c) (kebabToCamel s).
Proof. intros Hc. simpl. rewrite Hc. reflexivity. Qed.

Lemma hyphenate_match a c s :
  is_lower a = true -> is_upper c = true ->
  hyphenate (String a (String c s)) = String a (String "-" (String c (hyphenate s))).
Proof. intros Ha Hc. simpl. rewrite Ha, Hc. reflexivity. Qed.

Lemma hyphenate_skip a s :
  (forall c s', s = String c s' -> is_lower a && is_upper c = false) ->
  hyphenate (String a s) = String a (hyphenate s).
Proof.
  intros H. destruct s as [|c s']; [reflexivity|].
  simpl. rewrite (H c s' eq_refl). reflexivity.
Qed.

(** ** Characters *)

Ltac by_char c :=
  destruct c as [[] [] [] [] [] [] [] []]; vm_compute; try reflexivity; try discriminate.

Lemma toLowerCase_not_upper_fixed c : is_upper c = false -> char_toLowerCase c = c.
Proof. by_char c. Qed.

Lemma toLowerCase_upper_moves c : is_upper c = true -> char_toLowerCase c <> c.
Proof. by_char c. Qed.

Lemma toLowerCase_hyphen c : Ascii.eqb (char_toLowerCase c) "-" = Ascii.eqb c "-".
Proof. by_char c. Qed.

Lemma toLowerCase_is_lower c :
  is_lower (char_toLowerCase c) = is_lower c || is_upper c.
Proof. by_char c. Qed.

Lemma toUpperCase_lower_not_hyphen c :
  is_lower c = true -> char_toUpperCase c <> "-"%char.
Proof. by_char c. Qed.

Lemma toUpperCase_lower_is_upper c :
  is_lower c = true -> is_upper (char_toUpperCase c) = true.
Proof. by_char c. Qed.

Lemma toLowerCase_toUpperCase_lower c :
  is_lower c = true -> char_toLowerCase (char_toUpperCase c) = c.
Proof. by_char c. Qed.

Lemma lower_is_ascii c : is_lower c = true -> is_ascii c = true.
Proof. by_char c. Qed.

Lemma upper_is_ascii c : is_upper c = true -> is_ascii c = true.
Proof. by_char c. Qed.

(** ** The two scans, one step at a time *)

Lemma hyphenate_head a s : exists t, hyphenate (String a s) = String a t.
Proof.
  destruct s as [|c s]; [eexists; reflexivity|].
  simpl. destruct (is_lower a && is_upper c); eexists; reflexivity.
Qed.

Lemma kebabToCamel_skip a s :
  (forall c s', s = String c s' -> Ascii.eqb a "-" && is_lower c = false) ->
  kebabToCamel (String a s) = String a (kebabToCamel s).
Proof.
  intros H. destruct s as [|c s']; [reflexivity|].
  simpl. rewrite (H c s' eq_refl). reflexivity.
Qed.

(** After a capital the rest of a key is judged as a key of its own. *)
Lemma restorable_after_upper c s :
  is_upper c = true -> restorable_after c s = restorableKey s.
Proof.
  intros Hc. destruct s as [|d s]; [reflexivity|].
  cbn [restorable_after restorableKey].
  rewrite (upper_not_hyphen c Hc).
  replace (is_lower c) with false
    by (destruct (is_lower c) eqn:L; [rewrite (lower_not_upper c L) in Hc; discriminate|reflexivity]).
  rewrite orb_false_r. cbn [andb negb]. rewrite andb_true_r. reflexivity.
Qed.

(** ** From the internal convention to the wire and back *)

(** The round trip of [camelToKebab] and [kebabToCamel] gives a key back
    exactly when every capital of the key directly follows a lowercase
    letter and no hyphen is directly followed by a lowercase letter. *)
Lemma roundtrip_iff n :
  forall s,
    (String.length s <= n)%nat ->
    kebabToCamel (camelToKebab s) = s <-> restorableKey s = true.
Proof.
  unfold camelToKebab.
  induction n as [|n IH]; intros s Hlen.
  { destruct s; [split; reflexivity|cbn in Hlen; lia]. }
  destruct s as [|a [|c rest]].
  - split; reflexivity.
  - cbn [hyphenate toLowerCase kebabToCamel restorableKey restorable_after].
    rewrite andb_true_r. destruct (is_upper a) eqn:Ua; cbn [negb].
    + split; [|discriminate]. intros [= H]. destruct (toLowerCase_upper_moves a Ua H).
    + rewrite (toLowerCase_not_upper_fixed a Ua). split; reflexivity.
  - cbn [String.length] in Hlen.
    destruct (is_lower a && is_upper c) eqn:Hpair.
    + (* a lowercase letter and a capital: a hyphen goes in and comes out *)
      apply andb_true_iff in Hpair as [La Uc].
      rewrite (hyphenate_match a c rest La Uc). cbn [toLowerCase].
      rewrite (toLowerCase_lower a La).
      rewrite (kebabToCamel_cons a _ (lower_not_hyphen a La)).
      change (char_toLowerCase "-") with "-"%char.
      rewrite (kebabToCamel_hyphen _ _ (toLowerCase_upper_is_lower c Uc)).
      rewrite (toUpperCase_toLowerCase c Uc).
      cbn [restorableKey restorable_after].
      rewrite (lower_not_upper a La), La, (lower_not_hyphen a La), Uc.
      cbn [negb orb andb]. rewrite (restorable_after_upper c rest Uc).
      rewrite <- (IH rest) by lia.
      split; [intros [= H]; exact H|intros ->; reflexivity].
    + (* no hyphen goes in after [a] *)
      rewrite (hyphenate_skip a (String c rest))
        by (intros c' s' [= <- <-]; exact Hpair).
      cbn [toLowerCase].
      destruct (hyphenate_head c rest) as [t Ht].
      pose proof (IH (String c rest)) as IHc.
      rewrite Ht in *. cbn [toLowerCase] in *.
      destruct (Ascii.eqb a "-" && (is_lower c || is_upper c)) eqn:Hmatch.
      * (* a hyphen of the key before a letter: it is taken for a joint *)
        apply andb_true_iff in Hmatch as [Ha Hc].
        apply Ascii.eqb_eq in Ha. subst a.
        change (char_toLowerCase "-") with "-"%char.
        assert (Llc : is_lower (char_toLowerCase c) = true)
          by (rewrite toLowerCase_is_lower; exact Hc).
        rewrite (kebabToCamel_hyphen _ _ Llc).
        cbn [restorableKey restorable_after].
        change (is_upper "-") with false. change (is_lower "-") with false.
        change (Ascii.eqb "-" "-") with true. cbn [negb orb andb].
        split.
        -- intros [= H _].
           destruct (toUpperCase_lower_not_hyphen _ Llc H).
        -- intros H. exfalso.
           destruct (is_upper c), (is_lower c); cbn in H, Hc; discriminate.
      * rewrite kebabToCamel_skip.
        2:{ intros c' s' [= <- <-]. rewrite toLowerCase_hyphen, toLowerCase_is_lower.
            exact Hmatch. }
        cbn [restorableKey restorable_after].
        destruct (is_upper a) eqn:Ua; cbn [negb andb].
        -- split; [|discriminate]. intros [= H _].
           destruct (toLowerCase_upper_moves a Ua H).
        -- rewrite (toLowerCase_not_upper_fixed a Ua).
           assert (Hfront : (negb (is_upper c) || is_lower a)
                            && negb (Ascii.eqb a "-" && is_lower c)
                            = negb (is_upper c)).
           { destruct (is_upper c) eqn:Uc; cbn [negb orb].
             - rewrite andb_true_r in Hpair. rewrite Hpair. reflexivity.
             - rewrite orb_false_r in Hmatch. rewrite Hmatch. reflexivity. }
           rewrite Hfront.
           change (negb (is_upper c) && restorable_after c rest)
             with (restorableKey (String c rest)).
           rewrite <- IHc by (cbn [String.length]; lia).
           split; [intros [= H]; exact H|intros ->; reflexivity].
Qed.

Lemma camel_words_restorable k :
  forall b prev,
    (b = true -> is_lower prev = true) ->
    Ascii.eqb prev "-" = false ->
    camel_words b k = true ->
    ascii_only k = true /\ restorable_after prev k = true.
Proof.
  induction k as [|c k IH]; intros b prev Hb Hprev Hk; [split; reflexivity|].
  cbn [camel_words] in Hk. cbn [ascii_only restorable_after]. rewrite Hprev.
  cbn [andb negb]. rewrite andb_true_r.
  destruct (is_lower c) eqn:Lc.
  - destruct (IH true c (fun _ => Lc) (lower_not_hyphen c Lc) Hk) as [-> ->].
    rewrite (lower_is_ascii c Lc), (lower_not_upper c Lc). split; reflexivity.
  - destruct (is_upper c) eqn:Uc; [|discriminate].
    apply andb_true_iff in Hk as [Hb' Hk]. subst b.
    assert (Hnever : false = true -> is_lower c = true) by discriminate.
    destruct (IH false c Hnever (upper_not_hyphen c Uc) Hk) as [-> ->].
    rewrite (upper_is_ascii c Uc), (Hb eq_refl). split; reflexivity.
Qed.

(** A capital after a digit is not restored: [base64Data], two lowercase
    words joined by one capital, comes back as [base64data]. *)
Lemma kebab_camel_roundtrip_fails_after_digit :
  camelToKebab "base64Data" = "base64data"
  /\ kebabToCamel (camelToKebab "base64Data") = "base64data"
  /\ kebabToCamel (camelToKebab "base64Data") <> "base64Data".
Proof. repeat split. discriminate. Qed.

(** C2 (amended). For every key of ASCII characters, converting it to the
    wire convention and back gives the key again if and only if every
    capital of the key directly follows a lowercase letter and no hyphen
    of the key is directly followed by a lowercase letter.  So it does for
    every key made of words of lowercase letters joined by capitalization
    (such as [organizationTypeName]), and it does not when a capital
    follows a digit or another capital. *)
Theorem kebab_camel_roundtrip :
  (forall k, ascii_only k = true ->
             kebabToCamel (camelToKebab k) = k <-> restorableKey k = true)
  /\ (forall k, singleCapitalCamel k = true ->
                ascii_only k = true /\ restorableKey k = true).
Proof.
  split.
  - intros k _. apply (roundtrip_iff (String.length k)). lia.
  - intros [|c k] Hk; [split; reflexivity|].
    unfold singleCapitalCamel in Hk. cbn [camel_words] in Hk.
    cbn [ascii_only restorableKey].
    destruct (is_lower c) eqn:Lc; [|destruct (is_upper c); discriminate].
    destruct (camel_words_restorable k true c (fun _ => Lc) (lower_not_hyphen c Lc) Hk)
      as [-> ->].
    rewrite (lower_is_ascii c Lc), (lower_not_upper c Lc). split; reflexivity.
Qed.

Lemma kebab_camel_roundtrip_witness :
  kebabToCamel (camelToKebab "organizationTypeName") = "organizationTypeName".
Proof.
  apply (proj1 kebab_camel_roundtrip "organizationTypeName"); reflexivity.
Defined.

(** Keys of objects that survive come back. *)
Lemma roundTripKey_back k :
  roundTripKey k = true -> kebabToCamel (camelToKebab k) = k.
Proof.
  unfold roundTripKey. intros [[_ Hk]%andb_true_iff _]%andb_true_iff.
  apply (roundtrip_iff (String.length k)); [lia|exact Hk].
Qed.

(** The precondition matters: a run of capitals does not survive. *)
Example roundtrip_fails_on_acronym :
  kebabToCamel (camelToKebab "someURLValue") = "someUrlvalue".
Proof. reflexivity. Qed.

End KeyConversion.

(* ===================================================================== *)
(** * Status classification (src/errors.ts)                               *)
(* ===================================================================== *)

Section StatusTable.
Import Js Errors.
Open Scope Z_scope.

Example createErrorFromResponse_defaults :
  message (createErrorFromResponse 401 (JObj []) None None)
    = "Authentication failed. Check your API key."
  /\ message (createErrorFromResponse 418 (JObj []) None None) = "HTTP error 418"
  /\ kind (createErrorFromResponse 502 JNull None None) = Server
  /\ statusCode (createErrorFromResponse 502 JNull None None) = 502.
Proof. repeat split. Qed.

(** C3. For every status code and response body [createErrorFromResponse]
    classifies by the fixed table: 401 and 403 give the authentication
    kind, 404 not-found, 422 validation carrying [errors || []] (the parsed
    errors array when the body has one), 429 rate-limit, every status from
    500 up server, and every other status the generic kind; and status 404
    with body [{errors:[{detail:"x"}]}] gives a not-found error whose
    message is ["x"]. *)
Theorem createErrorFromResponse_table
    (status : Z) (response : JsValue) (url method : option string) :
  let error := createErrorFromResponse status response url method in
  (status = 401 \/ status = 403 -> kind error = Authentication)
  /\ (status = 404 -> kind error = NotFound)
  /\ (status = 422 ->
      kind error = Validation
      /\ errors error = js_or (prop response "errors") (JArr [])
      /\ forall es, prop response "errors" = JArr es -> errors error = JArr es)
  /\ (status = 429 -> kind error = RateLimit)
  /\ (500 <= status -> kind error = Server)
  /\ (status < 500 -> status <> 401 -> status <> 403 -> status <> 404 ->
      status <> 422 -> status <> 429 ->
      kind error = Generic /\ statusCode error = status)
  /\ (let body := JObj [("errors", JArr [JObj [("detail", JStr "x")]])] in
      kind (createErrorFromResponse 404 body url method) = NotFound
      /\ message (createErrorFromResponse 404 body url method) = "x").
Proof.
  cbv zeta. unfold createErrorFromResponse.
  assert (Hother : status < 500 -> status <> 401 -> status <> 403 ->
                   status <> 404 -> status <> 422 -> status <> 429 ->
                   (status =? 401) = false /\ (status =? 403) = false
                   /\ (status =? 404) = false /\ (status =? 422) = false
                   /\ (status =? 429) = false /\ (500 <=? status) = false) by lia.
  split; [intros [-> | ->]; reflexivity|].
  split; [intros ->; reflexivity|].
  split.
  { intros ->. split; [reflexivity|]. split; [reflexivity|].
    intros es Hes. cbn. rewrite Hes. reflexivity. }
  split; [intros ->; reflexivity|].
  split.
  { intros H.
    destruct (status =? 401) eqn:E1; [lia|]. destruct (status =? 403) eqn:E2; [lia|].
    destruct (status =? 404) eqn:E3; [lia|]. destruct (status =? 422) eqn:E4; [lia|].
    destruct (status =? 429) eqn:E5; [lia|].
    cbn. destruct (500 <=? status) eqn:E6; [reflexivity|lia]. }
  split.
  { intros H1 H2 H3 H4 H5 H6.
    destruct (Hother H1 H2 H3 H4 H5 H6) as (-> & -> & -> & -> & -> & ->).
    split; reflexivity. }
  split; reflexivity.
Qed.

Lemma createErrorFromResponse_table_witness :
  kind (createErrorFromResponse 503 (JObj []) None None) = Server
  /\ kind (createErrorFromResponse 403 (JObj []) None None) = Authentication
  /\ kind (createErrorFromResponse 418 (JObj []) None None) = Generic.
Proof.
  pose proof (createErrorFromResponse_table 503 (JObj []) None None) as H503.
  pose proof (createErrorFromResponse_table 403 (JObj []) None None) as H403.
  pose proof (createErrorFromResponse_table 418 (JObj []) None None) as H418.
  cbv zeta in *.
  split; [apply H503; lia|].
  split; [apply H403; right; reflexivity|].
  apply H418; lia.
Defined.

End StatusTable.

(* ===================================================================== *)
(** * Retry policy (src/http.ts)                                          *)
(* ===================================================================== *)

Section RetryPolicy.
Import Js Errors Http.








(** A request that is refused with 503 and then answered is answered. *)
Example requestWithRetry_second_attempt :
  requestWithRetry (fun _ w => w) (mkRateLimitConfig 5000 3)
    Fixtures.once_503 0%nat
  = (inr tt, 2%nat).
Proof. reflexivity. Qed.

End RetryPolicy.

(* ===================================================================== *)
(** * Objects as ordered property lists                                   *)
(* ===================================================================== *)

Section ObjectFacts.
Import Js.

Lemma obj_get_set_eq k v o : obj_get k (obj_set k v o) = Some v.
Proof.
  induction o as [|[k' v'] o IH]; simpl.
  - rewrite String.eqb_refl. reflexivity.
  - destruct (k =? k') eqn:E; simpl; rewrite ?String.eqb_refl, ?E; auto.
Qed.

Lemma obj_get_set_ne k k' v o :
  k <> k' -> obj_get k' (obj_set k v o) = obj_get k' o.
Proof.
  intros Hne. induction o as [|[k0 v0] o IH]; simpl.
  - destruct (k' =? k) eqn:E; [apply String.eqb_eq in E; congruence|reflexivity].
  - destruct (k =? k0) eqn:E; simpl.
    + apply String.eqb_eq in E. subst k0.
      destruct (k' =? k) eqn:E'; [apply String.eqb_eq in E'; congruence|reflexivity].
    + destruct (k' =? k0); auto.
Qed.

Lemma obj_set_nonempty k v o : obj_set k v o <> [].
Proof. destruct o as [|[k' v'] o]; simpl; [|destruct (k =? k')]; discriminate. Qed.

End ObjectFacts.

(* ===================================================================== *)
(** * Filter expansion (src/jsonapi.ts)                                   *)
(* ===================================================================== *)

Section FilterParams.
Import Js Jsonapi Props.

Example buildFilterParams_tests :
  buildFilterParams
    (Some [("name", JStr "Acme"); ("organizationTypeId", JNum 42)])
  = [("name", JStr "Acme"); ("organizationTypeId", JNum 42)]
  /\ buildFilterParams (Some [("name", JStr "Acme"); ("type", JUndefined)])
     = [("name", JStr "Acme")].
Proof. split; reflexivity. Qed.

(** One guarded assignment of the source is the matching piece of
    [filter_emits]. *)
Lemma set_operator_assign key op operators result :
  set_operator key op operators result
  = assign_all
      match prop operators op with
      | JUndefined => []
      | v => [(key ++ "[" ++ op ++ "]", v)]
      end result.
Proof. unfold set_operator. destruct (prop operators op); reflexivity. Qed.

Lemma assign_all_app l1 l2 o :
  assign_all (l1 ++ l2) o = assign_all l2 (assign_all l1 o).
Proof. unfold assign_all. apply fold_left_app. Qed.

Lemma filter_step_emits result entry :
  filter_step result entry = assign_all (filter_emits entry) result.
Proof.
  destruct entry as [key value]. unfold filter_step, filter_emits.
  destruct (nullish value); [reflexivity|].
  destruct (isOperatorObject value); [|reflexivity].
  unfold operator_names. cbn [flat_map].
  rewrite !assign_all_app, !set_operator_assign. reflexivity.
Qed.

Lemma fold_filter_step props result :
  fold_left filter_step props result
  = assign_all (flat_map filter_emits props) result.
Proof.
  revert result. induction props as [|entry props IH]; intros result.
  - reflexivity.
  - cbn [fold_left flat_map]. rewrite assign_all_app, IH, filter_step_emits.
    reflexivity.
Qed.

(** Not every entry that is not an operator object is let through: an
    entry whose value is [null] is dropped. *)
Lemma buildFilterParams_drops_null_entry :
  isOperatorObject JNull = false
  /\ obj_get "name" (buildFilterParams (Some [("name", JNull)])) = None
  /\ buildFilterParams (Some [("name", JNull)]) = [].
Proof. repeat split. Qed.

(** C8 (amended). For every filter map the result of [buildFilterParams]
    is the object built by assigning, entry after entry (a later
    assignment to the same key overwrites an earlier one): nothing for an
    entry whose value is [null] or [undefined]; for an entry whose value is
    an operator object (one containing any of gt, gte, lt, lte), the key
    [field[op]] for each of these operators whose value is not
    [undefined]; and for every other entry the entry itself, its field
    name unchanged and not case-converted.  This is said of the whole
    result, with its keys in the order of their first assignment, when
    none of the keys assigned is [__proto__] or made of digits only, and of
    every own property of the result other than [__proto__] in any case.
    An absent filter gives the empty map, and
    [{createdAt: {gt:"2024-01-01", lt:"2024-12-31"}}] gives
    [{"createdAt[gt]":"2024-01-01","createdAt[lt]":"2024-12-31"}]. *)
Theorem buildFilterParams_expansion :
  (forall props,
      Forall (fun assignment => ordinary_key assignment.1 = true)
        (flat_map filter_emits props) ->
      buildFilterParams (Some props) = assign_all (flat_map filter_emits props) [])
  /\ (forall props k,
         k <> "__proto__" ->
         obj_get k (buildFilterParams (Some props))
         = obj_get k (assign_all (flat_map filter_emits props) []))
  /\ (forall field value,
         nullish value = true -> filter_emits (field, value) = [])
  /\ (forall field value,
         nullish value = false -> isOperatorObject value = false ->
         filter_emits (field, value) = [(field, value)])
  /\ (forall field value op,
         isOperatorObject value = true -> op ∈ operator_names ->
         (prop value op <> JUndefined ->
          (field ++ "[" ++ op ++ "]", prop value op) ∈ filter_emits (field, value))
         /\ forall k v, (k, v) ∈ filter_emits (field, value) ->
                        exists op', op' ∈ operator_names
                                    /\ k = field ++ "[" ++ op' ++ "]"
                                    /\ v = prop value op' /\ v <> JUndefined)
  /\ buildFilterParams None = []
  /\ buildFilterParams
       (Some [("createdAt",
               JObj [("gt", JStr "2024-01-01"); ("lt", JStr "2024-12-31")])])
     = [("createdAt[gt]", JStr "2024-01-01");
        ("createdAt[lt]", JStr "2024-12-31")].
Proof.
  split; [intros props _; apply fold_filter_step|].
  split; [intros props k _; unfold buildFilterParams; rewrite fold_filter_step;
          reflexivity|].
  split; [intros field value Hn; unfold filter_emits; rewrite Hn; reflexivity|].
  split; [intros field value Hn Ho; unfold filter_emits; rewrite Hn, Ho; reflexivity|].
  split; [|split; reflexivity].
  intros field value op Hop Hin.
  assert (Hnn : nullish value = false) by (destruct value; try discriminate; reflexivity).
  unfold filter_emits. rewrite Hnn, Hop.
  split.
  - intros Hdef. apply list_elem_of_In, in_flat_map.
    exists op. split; [apply list_elem_of_In; exact Hin|].
    destruct (prop value op); try (left; reflexivity). congruence.
  - intros k v Hkv. apply list_elem_of_In, in_flat_map in Hkv.
    destruct Hkv as (op' & Hop' & Hkv). exists op'.
    split; [apply list_elem_of_In; exact Hop'|].
    destruct (prop value op') eqn:Ep; simpl in Hkv;
      try (destruct Hkv as [[= <- <-]|[]]; repeat split; congruence).
    destruct Hkv.
Qed.

Lemma buildFilterParams_expansion_witness :
  ("updatedAt[gte]", JStr "2024-06-01")
    ∈ filter_emits ("updatedAt", JObj [("gte", JStr "2024-06-01")]).
Proof.
  pose proof buildFilterParams_expansion as (_ & _ & _ & _ & Hops & _).
  apply (Hops "updatedAt" (JObj [("gte", JStr "2024-06-01")]) "gte").
  - reflexivity.
  - apply list_elem_of_In. simpl. tauto.
  - discriminate.
Defined.

End FilterParams.

(* ===================================================================== *)
(** * Query parameters (src/jsonapi.ts)                                   *)
(* ===================================================================== *)

Section QueryParams.
Import Js Jsonapi Props.

Example buildQueryParams_tests :
  buildQueryParams
    [("filter", JObj [("name", JStr "Acme"); ("organizationTypeId", JNum 42);
                      ("excludeId", JArr [JNum 1; JNum 2; JNum 3])]);
     ("page", JObj [("size", JNum 50); ("number", JNum 2)])]
  = [("filter[name]", "Acme"); ("filter[organization-type-id]", "42");
     ("filter[exclude-id]", "1,2,3"); ("page[size]", "50"); ("page[number]", "2")]
  /\ buildQueryParams
       [("sort", JStr "name"); ("include", JNull); ("page", JUndefined)]
     = [("sort", "name")].
Proof. split; reflexivity. Qed.

(** Induction on values that reaches the elements of arrays and the
    property values of objects. *)
Lemma JsValue_nested_ind (P : JsValue -> Prop) :
  P JUndefined -> P JNull -> (forall b, P (JBool b)) -> (forall n, P (JNum n)) ->
  (forall s, P (JStr s)) ->
  (forall items, Forall P items -> P (JArr items)) ->
  (forall props, Forall (fun kv => P kv.2) props -> P (JObj props)) ->
  forall v, P v.
Proof.
  intros Hu Hn Hb Hz Hs Ha Ho. fix IH 1.
  intros [| |b|n|s|items|props];
    [exact Hu|exact Hn|apply Hb|apply Hz|apply Hs| |].
  - apply Ha. induction items as [|x items IHi]; constructor; [apply IH|exact IHi].
  - apply Ho. induction props as [|[k x] props IHp]; constructor; [apply IH|exact IHp].
Qed.

Lemma nullish_strip v : nullish (strip_nullish v) = nullish v.
Proof. destruct v; reflexivity. Qed.

Lemma addParam_nullish prefix v sp : nullish v = true -> addParam prefix v sp = sp.
Proof. destruct v; try discriminate; reflexivity. Qed.

(** [addParam] does not see the properties that [strip_nullish] removes. *)
Lemma addParam_strip v :
  forall prefix sp, addParam prefix (strip_nullish v) sp = addParam prefix v sp.
Proof.
  induction v as [| | | | | |props IH] using JsValue_nested_ind; try reflexivity.
  intros prefix sp. cbn [strip_nullish addParam].
  revert sp. induction props as [|[k x] props IHp]; intros sp; [reflexivity|].
  apply Forall_cons in IH as [Hx Hprops].
  cbn [flat_map fold_left]. rewrite fold_left_app.
  destruct (nullish x) eqn:Nx; cbn [fold_left].
  - rewrite (addParam_nullish _ x sp Nx). apply IHp, Hprops.
  - simpl in Hx. rewrite Hx. apply IHp, Hprops.
Qed.

Lemma buildQueryParams_fold_strip params sp :
  fold_left
    (fun sp '(key, value) =>
       if nullish value then sp else addParam (camelToKebab key) value sp)
    (strip_nullish_props params) sp
  = fold_left
      (fun sp '(key, value) =>
         if nullish value then sp else addParam (camelToKebab key) value sp)
      params sp.
Proof.
  revert sp. induction params as [|[k x] params IH]; intros sp; [reflexivity|].
  unfold strip_nullish_props in *. cbn [flat_map fold_left]. rewrite fold_left_app.
  destruct (nullish x) eqn:Nx; cbn [fold_left].
  - apply IH.
  - rewrite nullish_strip, Nx, addParam_strip. apply IH.
Qed.

Lemma strip_nullish_props_remove before key value after :
  nullish value = true ->
  strip_nullish_props (before ++ (key, value) :: after)
  = strip_nullish_props (before ++ after).
Proof.
  intros Hn. unfold strip_nullish_props.
  rewrite !flat_map_app. cbn [flat_map]. rewrite Hn. reflexivity.
Qed.

(** A [null] element of a list value is not dropped: [join] renders it as
    an empty segment, so the output differs from that of the list without
    it. *)
Lemma buildQueryParams_null_element_kept :
  buildQueryParams [("ids", JArr [JNum 1; JNull; JNum 2])] = [("ids", "1,,2")]
  /\ buildQueryParams [("ids", JArr [JNum 1; JNum 2])] = [("ids", "1,2")]
  /\ buildQueryParams [("ids", JArr [JNum 1; JNull; JNum 2])]
     <> buildQueryParams [("ids", JArr [JNum 1; JNum 2])].
Proof. repeat split. discriminate. Qed.

(** C6 (amended). For every parameters tree, a property whose value is
    [null] or [undefined] contributes nothing to the query parameters, at
    the top level and inside nested maps at any depth: the output is that
    of the tree with all such properties removed, and removing one of them
    changes nothing.  [buildQueryParams] is a total function: no error is
    raised.  A list value always emits its key, with its elements joined
    by commas; a [null] or [undefined] element is not dropped but rendered
    as the empty string. *)
Theorem buildQueryParams_skips_nullish :
  (forall params,
      buildQueryParams (strip_nullish_props params) = buildQueryParams params)
  /\ (forall before key value after,
         nullish value = true ->
         buildQueryParams (before ++ (key, value) :: after)
         = buildQueryParams (before ++ after))
  /\ (forall prefix before key value after sp,
         nullish value = true ->
         addParam prefix (JObj (before ++ (key, value) :: after)) sp
         = addParam prefix (JObj (before ++ after)) sp)
  /\ (forall prefix items sp,
         addParam prefix (JArr items) sp
         = usp_set prefix
             (join_strings ","
                (map (fun x => if nullish x then EmptyString else toString x) items)) sp).
Proof.
  assert (Hstrip : forall params,
             buildQueryParams (strip_nullish_props params) = buildQueryParams params).
  { intros params. apply buildQueryParams_fold_strip. }
  split; [exact Hstrip|].
  split.
  { intros before key value after Hn.
    rewrite <- (Hstrip (before ++ (key, value) :: after)%list).
    rewrite <- (Hstrip (before ++ after)%list).
    rewrite strip_nullish_props_remove by exact Hn. reflexivity. }
  split; [|reflexivity].
  intros prefix before key value after sp Hn.
  rewrite <- (addParam_strip (JObj (before ++ (key, value) :: after)%list)).
  rewrite <- (addParam_strip (JObj (before ++ after)%list)).
  cbn [strip_nullish].
  change (flat_map _ (before ++ (key, value) :: after)%list)
    with (strip_nullish_props (before ++ (key, value) :: after)%list).
  rewrite strip_nullish_props_remove by exact Hn. reflexivity.
Qed.

Lemma buildQueryParams_skips_nullish_witness :
  buildQueryParams
    ([("sort", JStr "name")] ++ ("include", JNull) :: [("page", JObj [("size", JNum 50)])])
  = buildQueryParams
      ([("sort", JStr "name")] ++ [("page", JObj [("size", JNum 50)])]).
Proof.
  apply (proj1 (proj2 buildQueryParams_skips_nullish)
           [("sort", JStr "name")] "include" JNull [("page", JObj [("size", JNum 50)])]).
  reflexivity.
Defined.

End QueryParams.

(* ===================================================================== *)
(** * Decoding resources (src/jsonapi.ts)                                 *)
(* ===================================================================== *)

Section Decoding.
Import Js Jsonapi Props.

Example deserialize_null_relationship_test :
  deserialize
    (JObj [("data",
            JObj [("id", JStr "123"); ("type", JStr "organizations");
                  ("attributes", JObj [("name", JStr "Acme")]);
                  ("relationships",
                   JObj [("locations", JObj [("data", JNull)])])])])
  = Ok {| data :=
            JObj [("id", JStr "123"); ("type", JStr "organizations");
                  ("name", JStr "Acme");
                  ("relationships", JObj [("locations", JArr [])])];
          meta := JUndefined;
          included := JUndefined |}.
Proof. reflexivity. Qed.

(** ** The relationship loop *)

Lemma relationship_step_ok result key value :
  nullish value = false ->
  relationship_step result (key, value)
  = Ok (obj_set (kebabToCamel key)
          match prop value "data" with
          | JNull => JArr []
          | JArr items => JArr items
          | d => JArr [d]
          end result).
Proof.
  intros Hv. unfold relationship_step, get_prop. rewrite Hv. simpl.
  destruct (prop value "data"); reflexivity.
Qed.

Lemma relationship_step_throws result key value :
  nullish value = true -> is_Throw (relationship_step result (key, value)) = true.
Proof. intros Hv. unfold relationship_step, get_prop. rewrite Hv. reflexivity. Qed.

Lemma relationship_loop_throws es :
  forall result,
    is_Throw (relationship_loop es result)
    = negb (forallb (fun e => negb (nullish e.2)) es).
Proof.
  induction es as [|[key value] es IH]; intros result; [reflexivity|].
  cbn [relationship_loop forallb]. simpl fst; simpl snd.
  destruct (nullish value) eqn:Hv.
  - pose proof (relationship_step_throws result key value Hv) as Ht.
    destruct (relationship_step result (key, value)); [discriminate|reflexivity].
  - rewrite (relationship_step_ok result key value Hv). simpl. apply IH.
Qed.

(** Entries that convert to other keys leave a binding alone, and the loop
    never empties its result. *)
Lemma relationship_loop_keeps es ck :
  Forall (fun e => kebabToCamel e.1 <> ck) es ->
  forall result result',
    relationship_loop es result = Ok result' ->
    obj_get ck result' = obj_get ck result /\ (result <> [] -> result' <> []).
Proof.
  induction 1 as [|[key value] es Hne _ IH]; intros result result' Hloop.
  - injection Hloop as <-. auto.
  - cbn [relationship_loop] in Hloop.
    destruct (nullish value) eqn:Hv.
    + pose proof (relationship_step_throws result key value Hv) as Ht.
      destruct (relationship_step result (key, value)); discriminate.
    + rewrite (relationship_step_ok result key value Hv) in Hloop. simpl in Hloop.
      apply IH in Hloop as [Hget Hnon]. split.
      * rewrite Hget. apply obj_get_set_ne. exact Hne.
      * intros _. apply Hnon, obj_set_nonempty.
Qed.

Lemma relationship_loop_app es1 es2 result :
  relationship_loop (es1 ++ es2) result
  = result' ← relationship_loop es1 result; relationship_loop es2 result'.
Proof.
  revert result. induction es1 as [|e es1 IH]; intros result; [reflexivity|].
  cbn [app relationship_loop].
  destruct (relationship_step result e); simpl; [apply IH|reflexivity].
Qed.

Lemma relationship_loop_total es result :
  Forall (fun e => nullish e.2 = false) es ->
  exists result', relationship_loop es result = Ok result'.
Proof.
  intros Hes. pose proof (relationship_loop_throws es result) as Ht.
  replace (forallb (fun e => negb (nullish e.2)) es) with true in Ht.
  - destruct (relationship_loop es result); [eauto|discriminate].
  - symmetry. apply forallb_forall. intros e He.
    rewrite Forall_forall in Hes. apply list_elem_of_In in He.
    rewrite (Hes e He). reflexivity.
Qed.

(** The binding of one entry survives when no later entry converts to the
    same key. *)
Lemma relationship_loop_binding before key value after :
  Forall (fun e => nullish e.2 = false) (before ++ (key, value) :: after) ->
  Forall (fun e => kebabToCamel e.1 <> kebabToCamel key) after ->
  exists decoded,
    relationship_loop (before ++ (key, value) :: after) [] = Ok decoded
    /\ decoded <> []
    /\ obj_get (kebabToCamel key) decoded
       = Some match prop value "data" with
              | JNull => JArr []
              | JArr items => JArr items
              | d => JArr [d]
              end.
Proof.
  intros Hall Hafter.
  apply Forall_app in Hall as [Hbefore Hrest].
  apply Forall_cons in Hrest as [Hv Hafter'].
  destruct (relationship_loop_total before [] Hbefore) as [r1 Hr1].
  set (r2 := obj_set (kebabToCamel key)
               match prop value "data" with
               | JNull => JArr []
               | JArr items => JArr items
               | d => JArr [d]
               end r1).
  destruct (relationship_loop_total after r2 Hafter') as [r3 Hr3].
  exists r3.
  assert (Hloop : relationship_loop (before ++ (key, value) :: after) [] = Ok r3).
  { rewrite relationship_loop_app, Hr1.
    change (relationship_loop ((key, value) :: after) r1 = Ok r3).
    cbn [relationship_loop].
    rewrite (relationship_step_ok r1 key value Hv). exact Hr3. }
  split; [exact Hloop|].
  destruct (relationship_loop_keeps after (kebabToCamel key) Hafter r2 r3 Hr3)
    as [Hget Hnon].
  split; [apply Hnon, obj_set_nonempty|].
  rewrite Hget. apply obj_get_set_eq.
Qed.

(** With two wire keys that convert to the same internal key, the later
    entry wins: the entry [a-b] has [data: null], yet [aB] ends up bound
    to the reference of the entry [aB], and [a-b] is no key of the result. *)
Lemma deserializeResource_colliding_relationship :
  deserializeResource
    (JObj [("id", JStr "1"); ("type", JStr "t");
           ("relationships",
            JObj [("a-b", JObj [("data", JNull)]);
                  ("aB", JObj [("data",
                                JObj [("id", JStr "9"); ("type", JStr "u")])])])])
  = Ok (JObj [("id", JStr "1"); ("type", JStr "t");
              ("relationships",
               JObj [("aB", JArr [JObj [("id", JStr "9"); ("type", JStr "u")]])])]).
Proof. reflexivity. Qed.

(** C4 (amended). For every wire resource (an object) whose relationships
    map has an entry [key] with [data: null], none of whose entries is
    [null] or [undefined], in which no later entry converts to the same
    internal key, and whose [key] does not convert to [__proto__] (an
    assignment to that key runs the setter of [Object.prototype] and adds
    no property), decoding produces a [relationships] map in which
    [kebabToCamel key] is present and bound to the empty list; when instead
    the data of the entry is a single reference (an object), the key is
    bound to the one-element list of that reference. *)
Theorem deserializeResource_relationship
    (props rels before after : list (string * JsValue))
    (key : string) (value : JsValue) :
  obj_get "relationships" props = Some (JObj rels) ->
  rels = (before ++ (key, value) :: after)%list ->
  Forall (fun e => nullish e.2 = false) rels ->
  Forall (fun e => kebabToCamel e.1 <> kebabToCamel key) after ->
  kebabToCamel key <> "__proto__" ->
  exists result decoded,
    deserializeResource (JObj props) = Ok (JObj result)
    /\ obj_get "relationships" result = Some (JObj decoded)
    /\ (prop value "data" = JNull ->
        obj_get (kebabToCamel key) decoded = Some (JArr []))
    /\ (forall ref, prop value "data" = JObj ref ->
        obj_get (kebabToCamel key) decoded = Some (JArr [JObj ref])).
Proof.
  intros Hrel -> Hall Hafter _.
  destruct (relationship_loop_binding before key value after Hall Hafter)
    as (decoded & Hloop & Hnon & Hget).
  unfold deserializeResource, get_prop. simpl nullish. cbn iota. simpl.
  rewrite Hrel. simpl.
  unfold deserializeRelationships. simpl. rewrite Hloop. simpl.
  destruct decoded as [|d decoded]; [congruence|]. simpl.
  eexists _, _. split; [reflexivity|].
  split; [apply obj_get_set_eq|].
  split.
  - intros Hd. rewrite Hd in Hget. exact Hget.
  - intros ref Hd. rewrite Hd in Hget. exact Hget.
Qed.

Lemma deserializeResource_relationship_witness :
  exists result decoded,
    deserializeResource
      (JObj [("id", JStr "123"); ("type", JStr "organizations");
             ("relationships", JObj [("primary-location", JObj [("data", JNull)])])])
    = Ok (JObj result)
    /\ obj_get "relationships" result = Some (JObj decoded)
    /\ obj_get "primaryLocation" decoded = Some (JArr []).
Proof.
  destruct (deserializeResource_relationship
              [("id", JStr "123"); ("type", JStr "organizations");
               ("relationships", JObj [("primary-location", JObj [("data", JNull)])])]
              [("primary-location", JObj [("data", JNull)])]
              [] [] "primary-location" (JObj [("data", JNull)]))
    as (result & decoded & Hres & Hrel & Hnull & _).
  - reflexivity.
  - reflexivity.
  - repeat constructor.
  - constructor.
  - discriminate.
  - exists result, decoded. split; [exact Hres|]. split; [exact Hrel|].
    apply Hnull. reflexivity.
Defined.

(** ** When decoding throws *)

Lemma deserializeRelationships_throws relationships :
  is_Throw (deserializeRelationships relationships)
  = truthy relationships
    && negb (forallb (fun e => negb (nullish e.2)) (entries relationships)).
Proof.
  unfold deserializeRelationships.
  destruct (truthy relationships); [|reflexivity]. simpl.
  rewrite <- (relationship_loop_throws (entries relationships) []).
  destruct (relationship_loop (entries relationships) []); reflexivity.
Qed.

Lemma deserializeResource_throws resource :
  is_Throw (deserializeResource resource) = negb (resource_decodes resource).
Proof.
  unfold deserializeResource, resource_decodes, get_prop.
  destruct (nullish resource); [reflexivity|]. simpl.
  pose proof (deserializeRelationships_throws (prop resource "relationships")) as Hr.
  set (b := forallb (fun e => negb (nullish e.2))
              (entries (prop resource "relationships"))) in *.
  destruct (deserializeRelationships (prop resource "relationships"));
    destruct (truthy (prop resource "relationships"));
    destruct b; simpl in *; congruence.
Qed.

Lemma mapM_throws {A B} (f : A -> Res B) l :
  is_Throw (mapM f l) = negb (forallb (fun x => negb (is_Throw (f x))) l).
Proof.
  induction l as [|x l IH]; [reflexivity|].
  cbn [mapM forallb]. destruct (f x); simpl; [|reflexivity].
  destruct (mapM f l); simpl in *; rewrite <- IH; reflexivity.
Qed.

Lemma mapM_deserializeResource_throws items :
  is_Throw (mapM deserializeResource items)
  = negb (forallb resource_decodes items).
Proof.
  rewrite mapM_throws. f_equal.
  induction items as [|r items IH]; [reflexivity|].
  cbn [forallb]. rewrite IH, deserializeResource_throws, negb_involutive.
  reflexivity.
Qed.

Lemma deserializeIncluded_throws included :
  is_Throw (deserializeIncluded included)
  = negb match included with
         | JUndefined | JNull => true
         | JArr items => forallb resource_decodes items
         | _ => false
         end.
Proof.
  destruct included as [| |b|n|s|items|props]; try reflexivity.
  cbn [deserializeIncluded].
  rewrite <- mapM_deserializeResource_throws.
  destruct (mapM deserializeResource items); reflexivity.
Qed.

Lemma deserialize_throws response :
  is_Throw (deserialize response) = negb (envelope_decodes response).
Proof.
  unfold deserialize, envelope_decodes, get_prop.
  destruct (nullish response); [reflexivity|]. simpl.
  pose proof (deserializeIncluded_throws (prop response "included")) as Hi.
  set (inc := match prop response "included" with
              | JUndefined | JNull => true
              | JArr items => forallb resource_decodes items
              | _ => false
              end) in *.
  assert (Hone : forall d,
             is_Throw (data ← deserializeResource d;
                       included ← deserializeIncluded (prop response "included");
                       Ok (mkDeserialized data (deserializeMeta (prop response "meta")) included))
             = negb (resource_decodes d && inc)).
  { intros d. pose proof (deserializeResource_throws d) as Hd.
    destruct (deserializeResource d); simpl in *;
      destruct (resource_decodes d); simpl in *; try discriminate; try reflexivity.
    destruct (deserializeIncluded (prop response "included")); simpl in *;
      destruct inc; simpl in *; congruence. }
  destruct (prop response "data") as [| |b|n|s|items|props] eqn:Hdata;
    try apply Hone.
  pose proof (mapM_deserializeResource_throws items) as Hm.
  destruct (mapM deserializeResource items); simpl in *;
    destruct (forallb resource_decodes items); simpl in *; try discriminate;
    try reflexivity.
  destruct (deserializeIncluded (prop response "included")); simpl in *;
    destruct inc; simpl in *; congruence.
Qed.

(** A resource without [attributes] decodes like the same resource with
    [attributes: {}]. *)
Lemma deserializeResource_missing_attributes props :
  obj_get "attributes" props = None ->
  deserializeResource (JObj props)
  = deserializeResource (JObj (obj_set "attributes" (JObj []) props)).
Proof.
  intros Hnone. unfold deserializeResource, get_prop. simpl.
  rewrite Hnone. simpl.
  rewrite !obj_get_set_eq.
  rewrite !(obj_get_set_ne "attributes" "id") by discriminate.
  rewrite !(obj_get_set_ne "attributes" "type") by discriminate.
  rewrite !(obj_get_set_ne "attributes" "relationships") by discriminate.
  reflexivity.
Qed.

(** Whether [deserialize] throws is not decided by [data] being an object
    or a list.  A number is neither, and decoding it does not throw; a
    list is a list, and decoding it throws when one of its elements is
    [null]. *)
Lemma deserialize_throw_not_by_shape :
  isPlainObject (JNum 5) || isArray (JNum 5) = false
  /\ deserialize (JObj [("data", JNum 5)])
     = Ok {| data := JObj [("id", JUndefined); ("type", JUndefined)];
             meta := JUndefined;
             included := JUndefined |}
  /\ isArray (JArr [JNull]) = true
  /\ is_Throw (deserialize (JObj [("data", JArr [JNull])])) = true.
Proof. repeat split. Qed.

(** C5 (amended). [deserialize] does not throw on a resource whose
    attributes map is missing: such a resource decodes exactly like the
    same resource with an empty attributes map, and when it has no
    relationships either the result is just its id and type.  There is no
    check of the shape of [data]: [deserialize] throws exactly when the
    envelope does not decode in the sense of [envelope_decodes], that is
    when a property is read from [null] or [undefined] (the envelope
    itself, [data], an element of the [data] or [included] list, an entry
    of a relationships map) or when [included] is present and not a list.
    So it throws when [data] is [null] or missing, and it does not throw
    when [data] is a number, a string or a boolean. *)
Theorem deserialize_failure_semantics :
  (forall props,
      obj_get "attributes" props = None ->
      deserializeResource (JObj props)
      = deserializeResource (JObj (obj_set "attributes" (JObj []) props))
      /\ (obj_get "relationships" props = None ->
          deserializeResource (JObj props)
          = Ok (JObj [("id", prop (JObj props) "id");
                      ("type", prop (JObj props) "type")])))
  /\ (forall response,
         is_Throw (deserialize response) = negb (envelope_decodes response))
  /\ (forall response,
         nullish (prop response "data") = true ->
         is_Throw (deserialize response) = true)
  /\ (forall response d,
         nullish response = false ->
         prop response "data" = d ->
         (exists b, d = JBool b) \/ (exists n, d = JNum n) \/ (exists s, d = JStr s) ->
         nullish (prop response "included") = true ->
         deserialize response
         = Ok {| data := JObj [("id", JUndefined); ("type", JUndefined)];
                 meta := deserializeMeta (prop response "meta");
                 included := JUndefined |}).
Proof.
  split.
  { intros props Hnone. split; [apply deserializeResource_missing_attributes, Hnone|].
    intros Hrel. unfold deserializeResource, get_prop. simpl.
    rewrite Hnone, Hrel. reflexivity. }
  split; [exact deserialize_throws|].
  split.
  { intros response Hdata. rewrite deserialize_throws.
    unfold envelope_decodes.
    destruct (prop response "data"); try discriminate;
      rewrite andb_false_r; reflexivity. }
  intros response d Hresp Hd Hprim Hinc.
  unfold deserialize, get_prop. rewrite Hresp, Hd. simpl.
  destruct Hprim as [[b ->]|[[n ->]|[s ->]]]; simpl;
    destruct (prop response "included"); try discriminate; reflexivity.
Qed.

Lemma deserialize_failure_semantics_witness :
  deserializeResource (JObj [("id", JStr "7"); ("type", JStr "contacts")])
  = Ok (JObj [("id", JStr "7"); ("type", JStr "contacts")])
  /\ is_Throw (deserialize (JObj [("data", JNull)])) = true
  /\ is_Throw (deserialize (JObj [("data", JStr "oops")])) = false.
Proof.
  pose proof deserialize_failure_semantics as (Hattrs & Hthrows & Hnull & Hprim).
  split.
  { apply (Hattrs [("id", JStr "7"); ("type", JStr "contacts")]); reflexivity. }
  split.
  { apply (Hnull (JObj [("data", JNull)])). reflexivity. }
  rewrite (Hprim (JObj [("data", JStr "oops")]) (JStr "oops")).
  - reflexivity.
  - reflexivity.
  - reflexivity.
  - right. right. exists "oops". reflexivity.
  - reflexivity.
Defined.

End Decoding.

(* ===================================================================== *)
(** * The item iterator (src/pagination.ts)                               *)
(* ===================================================================== *)

Section IteratorRules.
Import Pagination Props.
Context {T W E : Type}.
Implicit Types (it : Iterator T W E) (m : Machine T W) (c : Cursor T).

Lemma cursor_of_store it m c w log : cursor_of it (store it m c w log) = c.
Proof. unfold cursor_of, store. simpl. apply lookup_total_insert_eq. Qed.

Lemma cursor_of_created (fetcher : PageFetcher T W E) options m :
  let '(iterable, m') := createPaginatedIterator fetcher options m in
  cursor_of (asyncIterator iterable) m'
  = mkCursor (or_default (startPage options) 1) [] 0 0 true None.
Proof. unfold cursor_of. simpl. apply lookup_total_insert_eq. Qed.

(** Building an iterator does not disturb the cursors that exist. *)
Lemma createPaginatedIterator_fresh (fetcher : PageFetcher T W E) options m l :
  is_Some (heap m !! l) ->
  heap (createPaginatedIterator fetcher options m).2 !! l = heap m !! l.
Proof.
  intros Hl. simpl. apply lookup_insert_ne. intros <-.
  apply (is_fresh (dom (heap m))). apply elem_of_dom. exact Hl.
Qed.

(** ** The loop *)

Lemma fetch_while_exit fuel it c w log :
  (length (currentItems c) <=? currentIndex c)%nat && hasMore c = false ->
  fetch_while fuel it c w log = Some (Exited c w log).
Proof. intros H. destruct fuel; simpl; rewrite H; reflexivity. Qed.

Lemma fetch_while_page fuel it c w log response w' :
  (length (currentItems c) <=? currentIndex c)%nat && hasMore c = true ->
  it_fetcher it (mkParams (currentPage c) (it_pageSize it)) w = (inr response, w') ->
  fetch_while (S fuel) it c w log
  = Some (match data response with
          | [] => ReturnedDone (loaded c response) w'
                    (log ++ [mkParams (currentPage c) (it_pageSize it)])
          | _ :: _ => Exited (loaded c response) w'
                        (log ++ [mkParams (currentPage c) (it_pageSize it)])
          end).
Proof.
  intros Hcond Hfetch. cbn [fetch_while]. rewrite Hcond, Hfetch. cbn zeta.
  destruct (data response) as [|x xs] eqn:Hdata; cbn [currentItems length Nat.eqb].
  - unfold loaded. rewrite Hdata. reflexivity.
  - rewrite fetch_while_exit by reflexivity.
    unfold loaded. rewrite Hdata. reflexivity.
Qed.

Lemma fetch_while_reject fuel it c w log e w' :
  (length (currentItems c) <=? currentIndex c)%nat && hasMore c = true ->
  it_fetcher it (mkParams (currentPage c) (it_pageSize it)) w = (inl e, w') ->
  fetch_while (S fuel) it c w log
  = Some (Rejected e c w' (log ++ [mkParams (currentPage c) (it_pageSize it)])).
Proof. intros Hcond Hfetch. cbn [fetch_while]. rewrite Hcond, Hfetch. reflexivity. Qed.

(** One turn of fuel is enough for the loop: after a page has been
    received the buffer is either empty, and [next] returns, or not
    exhausted, and the loop ends. *)
Lemma fetch_while_total fuel it c w log :
  is_Some (fetch_while (S fuel) it c w log).
Proof.
  destruct ((length (currentItems c) <=? currentIndex c)%nat && hasMore c) eqn:Hcond.
  - destruct (it_fetcher it (mkParams (currentPage c) (it_pageSize it)) w)
      as [[e|response] w'] eqn:Hfetch.
    + rewrite (fetch_while_reject _ _ _ _ _ _ _ Hcond Hfetch). eauto.
    + rewrite (fetch_while_page _ _ _ _ _ _ _ Hcond Hfetch). eauto.
  - rewrite fetch_while_exit by exact Hcond. eauto.
Qed.

(** ** The cases of [next] *)

Lemma next_total fuel it m : is_Some (next (S fuel) it m).
Proof.
  unfold next. destruct (cap_reached it (heap m !!! it_cursor it)); [eauto|].
  destruct (fetch_while_total fuel it (heap m !!! it_cursor it) (world m) (fetchLog m))
    as [[e c w log|c w log|c w log] ->]; eauto.
  destruct (currentItems c !! currentIndex c); eauto.
Qed.

(** The cap is reached: done, nothing fetched, nothing written. *)
Lemma next_cap fuel it m :
  cap_reached it (cursor_of it m) = true ->
  next fuel it m = Some (inr IterDone, m).
Proof. unfold next, cursor_of. intros ->. reflexivity. Qed.

(** An item is buffered: it is handed out, nothing is fetched. *)
Lemma next_buffered fuel it m x :
  cap_reached it (cursor_of it m) = false ->
  currentItems (cursor_of it m) !! currentIndex (cursor_of it m) = Some x ->
  next fuel it m
  = Some (inr (IterValue x),
          store it m (advanced (cursor_of it m)) (world m) (fetchLog m)).
Proof.
  unfold next, cursor_of. intros -> Hx.
  rewrite fetch_while_exit.
  - rewrite Hx. reflexivity.
  - apply lookup_lt_Some in Hx. apply andb_false_iff. left.
    apply Nat.leb_gt. exact Hx.
Qed.

(** The buffer is exhausted and the last page had no successor: done. *)
Lemma next_exhausted fuel it m :
  cap_reached it (cursor_of it m) = false ->
  (length (currentItems (cursor_of it m)) <= currentIndex (cursor_of it m))%nat ->
  hasMore (cursor_of it m) = false ->
  next fuel it m
  = Some (inr IterDone, store it m (cursor_of it m) (world m) (fetchLog m)).
Proof.
  unfold next, cursor_of. intros -> Hlen Hmore.
  rewrite fetch_while_exit by (rewrite Hmore; apply andb_false_r).
  rewrite (lookup_ge_None_2 _ _ Hlen). reflexivity.
Qed.

(** The buffer is exhausted and a page with items arrives: its first item
    is handed out. *)
Lemma next_fetch_item fuel it m response w' x xs :
  cap_reached it (cursor_of it m) = false ->
  (length (currentItems (cursor_of it m)) <= currentIndex (cursor_of it m))%nat ->
  hasMore (cursor_of it m) = true ->
  it_fetcher it (mkParams (currentPage (cursor_of it m)) (it_pageSize it)) (world m)
  = (inr response, w') ->
  data response = x :: xs ->
  next (S fuel) it m
  = Some (inr (IterValue x),
          store it m (advanced (loaded (cursor_of it m) response)) w'
            (fetchLog m ++ [mkParams (currentPage (cursor_of it m)) (it_pageSize it)])).
Proof.
  unfold next, cursor_of. intros -> Hlen Hmore Hfetch Hdata.
  erewrite fetch_while_page; [|rewrite Hmore, andb_true_r; apply Nat.leb_le, Hlen|exact Hfetch].
  rewrite Hdata. unfold advanced, loaded. cbn. rewrite Hdata. reflexivity.
Qed.

(** The buffer is exhausted and an empty page arrives: done.  The cursor
    keeps the [hasMore] that the page announced. *)
Lemma next_fetch_empty fuel it m response w' :
  cap_reached it (cursor_of it m) = false ->
  (length (currentItems (cursor_of it m)) <= currentIndex (cursor_of it m))%nat ->
  hasMore (cursor_of it m) = true ->
  it_fetcher it (mkParams (currentPage (cursor_of it m)) (it_pageSize it)) (world m)
  = (inr response, w') ->
  data response = [] ->
  next (S fuel) it m
  = Some (inr IterDone,
          store it m (loaded (cursor_of it m) response) w'
            (fetchLog m ++ [mkParams (currentPage (cursor_of it m)) (it_pageSize it)])).
Proof.
  unfold next, cursor_of. intros -> Hlen Hmore Hfetch Hdata.
  erewrite fetch_while_page; [|rewrite Hmore, andb_true_r; apply Nat.leb_le, Hlen|exact Hfetch].
  rewrite Hdata. reflexivity.
Qed.

(** ** The drain loop, one turn at a time *)

Lemma drain_done fuel it results m m' :
  next (S fuel) it m = Some (inr IterDone, m') ->
  drain (S fuel) it results m = Some (inr results, m').
Proof. intros H. cbn [drain]. rewrite H. reflexivity. Qed.

Lemma drain_item fuel it results m m' x :
  next (S fuel) it m = Some (inr (IterValue x), m') ->
  drain (S fuel) it results m = drain fuel it (results ++ [x]) m'.
Proof. intros H. cbn [drain]. rewrite H. reflexivity. Qed.

(** ** The same cases, from state to state *)

Lemma in_state_store it m c w log : in_state it (store it m c w log) c w log.
Proof. split; [apply cursor_of_store|split; reflexivity]. Qed.

Lemma step_cap fuel it m c w log :
  in_state it m c w log ->
  cap_reached it c = true ->
  next fuel it m = Some (inr IterDone, m).
Proof. intros (<- & _ & _) Hcap. apply next_cap, Hcap. Qed.

Lemma step_buffered fuel it m c w log x :
  in_state it m c w log ->
  cap_reached it c = false ->
  currentItems c !! currentIndex c = Some x ->
  exists m', next fuel it m = Some (inr (IterValue x), m')
             /\ in_state it m' (advanced c) w log.
Proof.
  intros (<- & <- & <-) Hcap Hx. eexists. split.
  - apply next_buffered; assumption.
  - apply in_state_store.
Qed.

Lemma step_exhausted fuel it m c w log :
  in_state it m c w log ->
  cap_reached it c = false ->
  (length (currentItems c) <= currentIndex c)%nat ->
  hasMore c = false ->
  exists m', next fuel it m = Some (inr IterDone, m') /\ in_state it m' c w log.
Proof.
  intros (<- & <- & <-) Hcap Hlen Hmore. eexists. split.
  - apply next_exhausted; assumption.
  - apply in_state_store.
Qed.

Lemma step_fetch_item fuel it m c w log response w' x xs :
  in_state it m c w log ->
  cap_reached it c = false ->
  (length (currentItems c) <= currentIndex c)%nat ->
  hasMore c = true ->
  it_fetcher it (mkParams (currentPage c) (it_pageSize it)) w = (inr response, w') ->
  data response = x :: xs ->
  exists m', next (S fuel) it m = Some (inr (IterValue x), m')
             /\ in_state it m' (advanced (loaded c response)) w'
                  (log ++ [mkParams (currentPage c) (it_pageSize it)]).
Proof.
  intros (<- & <- & <-) Hcap Hlen Hmore Hfetch Hdata. eexists. split.
  - eapply next_fetch_item; eassumption.
  - apply in_state_store.
Qed.

Lemma step_fetch_empty fuel it m c w log response w' :
  in_state it m c w log ->
  cap_reached it c = false ->
  (length (currentItems c) <= currentIndex c)%nat ->
  hasMore c = true ->
  it_fetcher it (mkParams (currentPage c) (it_pageSize it)) w = (inr response, w') ->
  data response = [] ->
  exists m', next (S fuel) it m = Some (inr IterDone, m')
             /\ in_state it m' (loaded c response) w'
                  (log ++ [mkParams (currentPage c) (it_pageSize it)]).
Proof.
  intros (<- & <- & <-) Hcap Hlen Hmore Hfetch Hdata. eexists. split.
  - eapply next_fetch_empty; eassumption.
  - apply in_state_store.
Qed.

(** The state in which an iterator is born. *)
Lemma created_in_state (fetcher : PageFetcher T W E) options m :
  in_state (asyncIterator (createPaginatedIterator fetcher options m).1)
    (createPaginatedIterator fetcher options m).2
    (mkCursor (or_default (startPage options) 1) [] 0 0 true None)
    (world m) (fetchLog m).
Proof.
  split; [|split; reflexivity].
  unfold cursor_of. simpl. apply lookup_total_insert_eq.
Qed.

End IteratorRules.

Section TwoPages.
Import Pagination Props.
Context {T W E : Type}.

(** What a fetcher resolves with, whatever it does to the world. *)
Lemma fetcher_resolves (fetcher : PageFetcher T W E) page w response :
  (fetcher page w).1 = inr response ->
  fetcher page w = (inr response, (fetcher page w).2).
Proof. destruct (fetcher page w) as [r w']. simpl. intros ->. reflexivity. Qed.

(** C1. Let the fetcher resolve page 1 with two items and
    [meta.nextPage = 2], and page 2 with two items and
    [meta.nextPage = null].  Draining the item iterator built with the
    default start page and no cap yields exactly the four items, page 1
    first and in page order, and the fetcher is called exactly twice: for
    page 1, then for page 2. *)
Theorem paginated_iterator_two_pages
    (fetcher : PageFetcher T W E) (a b c d : T) (meta1 meta2 : PaginationMeta)
    (pageSize : option Z) (m : Machine T W) (fuel : nat) :
  (forall size w,
      (fetcher (mkParams 1 size) w).1 = inr (mkResponse [a; b] (Some meta1))) ->
  nextPage meta1 = Some 2%Z ->
  (forall size w,
      (fetcher (mkParams 2 size) w).1 = inr (mkResponse [c; d] (Some meta2))) ->
  nextPage meta2 = None ->
  (5 <= fuel)%nat ->
  exists m' size,
    (let '(iterable, m1) :=
       createPaginatedIterator fetcher (mkOptions None pageSize None) m in
     toArray fuel iterable m1) = Some (inr [a; b; c; d], m')
    /\ fetchLog m' = (fetchLog m ++ [mkParams 1 size; mkParams 2 size])%list.
Proof.
  intros Hpage1 Hnext1 Hpage2 Hnext2 Hfuel.
  do 5 (destruct fuel as [|fuel]; [lia|]). clear Hfuel.
  pose proof (created_in_state fetcher (mkOptions None pageSize None) m) as Hs1.
  destruct (createPaginatedIterator fetcher (mkOptions None pageSize None) m)
    as [iterable m1] eqn:Hcreate.
  assert (Hcap : it_maxItems (asyncIterator iterable) = None)
    by (injection Hcreate as <- _; reflexivity).
  assert (Hfetcher : it_fetcher (asyncIterator iterable) = fetcher)
    by (injection Hcreate as <- _; reflexivity).
  unfold toArray. cbn [fst snd startPage or_default] in Hs1.
  set (it := asyncIterator iterable) in *.
  set (size := it_pageSize it).
  assert (Hnocap : forall c0, cap_reached it c0 = false)
    by (intros c0; unfold cap_reached; rewrite Hcap; reflexivity).
  set (r1 := mkResponse [a; b] (Some meta1)).
  set (r2 := mkResponse [c; d] (Some meta2)).
  (* page 1 is fetched and its first item handed out *)
  destruct (step_fetch_item (S (S (S (S fuel)))) it m1 _ _ _ r1
              (fetcher (mkParams 1 size) (world m)).2 a [b] Hs1)
    as (m2 & Hn1 & Hs2);
    [apply Hnocap|reflexivity|reflexivity
    |rewrite Hfetcher; apply fetcher_resolves, Hpage1|reflexivity|].
  rewrite (drain_item _ _ _ _ _ _ Hn1).
  (* the second item of page 1 comes from the buffer *)
  destruct (step_buffered (S (S (S (S fuel)))) it m2 _ _ _ b Hs2) as (m3 & Hn2 & Hs3);
    [apply Hnocap|reflexivity|].
  rewrite (drain_item _ _ _ _ _ _ Hn2).
  (* page 2 is fetched and its first item handed out *)
  destruct (step_fetch_item (S (S fuel)) it m3 _ _ _ r2
              (fetcher (mkParams 2 size) (fetcher (mkParams 1 size) (world m)).2).2
              c [d] Hs3)
    as (m4 & Hn3 & Hs4);
    [apply Hnocap|reflexivity|cbn; rewrite Hnext1; reflexivity
    |rewrite Hfetcher; apply fetcher_resolves, Hpage2|reflexivity|].
  rewrite (drain_item _ _ _ _ _ _ Hn3).
  (* the second item of page 2 comes from the buffer *)
  destruct (step_buffered (S (S fuel)) it m4 _ _ _ d Hs4) as (m5 & Hn4 & Hs5);
    [apply Hnocap|reflexivity|].
  rewrite (drain_item _ _ _ _ _ _ Hn4).
  (* the buffer is exhausted and page 2 announced no successor *)
  destruct (step_exhausted (S fuel) it m5 _ _ _ Hs5) as (m6 & Hn5 & Hs6);
    [apply Hnocap|cbn; lia|cbn; rewrite Hnext2; reflexivity|].
  rewrite (drain_done _ _ _ _ _ Hn5).
  exists m6, size. split; [reflexivity|].
  destruct Hs6 as (_ & _ & ->). cbn. rewrite <- app_assoc. reflexivity.
Qed.

End TwoPages.

Section TwoPagesRun.
Import Pagination Props.

Example two_pages_run :
  (fun '(r, m) => (r, fetchLog m))
    <$> collectAll 5 Fixtures.two_pages (mkOptions None None None) Fixtures.fresh_machine
  = Some (inr ["1"; "2"; "3"; "4"], [mkParams 1 50; mkParams 2 50]).
Proof. vm_compute. reflexivity. Qed.


Lemma paginated_iterator_two_pages_witness :
  exists m' size,
    collectAll 5 Fixtures.two_pages (mkOptions None None None) Fixtures.fresh_machine
    = Some (inr ["1"; "2"; "3"; "4"], m')
    /\ fetchLog m' = [mkParams 1 size; mkParams 2 size].
Proof.
  apply (paginated_iterator_two_pages Fixtures.two_pages "1" "2" "3" "4"
           (mkMeta 1 (Some 2%Z) None 2 4) (mkMeta 2 None (Some 1%Z) 2 4)
           None Fixtures.fresh_machine 5).
  - reflexivity.
  - reflexivity.
  - reflexivity.
  - reflexivity.
  - lia.
Defined.

End TwoPagesRun.

(* ===================================================================== *)
(** * [take] over a source of pages (src/pagination.ts)                   *)
(* ===================================================================== *)

Section PagedSource.
Import Pagination Props.
Open Scope list_scope.
Context {T W E : Type}.
Implicit Types (it : Iterator T W E) (m : Machine T W) (c : Cursor T).
Implicit Types (pages : list (list T)).

Lemma page_source_fetch pages (j : nat) size (w : W) page :
  pages !! j = Some page ->
  exists mt,
    @page_source T W E pages (mkParams (Z.of_nat j + 1) size) w
    = (inr (mkResponse page (Some mt)), w)
    /\ (drop (S j) pages <> [] -> has_next (Some mt) = true).
Proof.
  intros Hj. unfold page_source. cbn [number].
  replace (Z.to_nat (Z.of_nat j + 1 - 1)) with j by lia.
  rewrite nth_lookup, Hj. eexists. split; [reflexivity|].
  intros Hrest. cbn.
  assert (S j < length pages)%nat.
  { destruct (decide (S j < length pages)%nat) as [?|Hge]; [assumption|].
    exfalso. apply Hrest, drop_ge. lia. }
  destruct (Z.of_nat j + 1 <? Z.of_nat (length pages))%Z eqn:Hlt; [reflexivity|lia].
Qed.

Lemma pages_needed_S need avail pages :
  pages_needed (S need) (S avail) pages = pages_needed need avail pages.
Proof. destruct pages; reflexivity. Qed.

Lemma pages_needed_0 avail pages : pages_needed 0 avail pages = 0%nat.
Proof. destruct pages; reflexivity. Qed.

Lemma page_requests_S size first count :
  page_requests size first (S count)
  = mkParams (Z.of_nat first + 1) size :: page_requests size (S first) count.
Proof. reflexivity. Qed.

(** [pages_needed] is the least number of pages that covers the need. *)
Lemma pages_needed_least pages :
  forall need avail,
    (need <= avail + length (concat pages))%nat ->
    (need <= avail + length (concat (firstn (pages_needed need avail pages) pages)))%nat
    /\ forall k, (k < pages_needed need avail pages)%nat ->
                 (avail + length (concat (firstn k pages)) < need)%nat.
Proof.
  induction pages as [|page pages IH]; intros need avail Hneed.
  - cbn in *. destruct (need <=? avail)%nat eqn:Hle; cbn; split; try lia;
      intros k Hk; lia.
  - cbn [pages_needed]. destruct (need <=? avail)%nat eqn:Hle.
    + apply Nat.leb_le in Hle. split; [cbn; lia|]. intros k Hk. lia.
    + apply Nat.leb_gt in Hle. cbn [concat] in Hneed. rewrite length_app in Hneed.
      destruct (IH (need - avail)%nat (length page)) as [Hcover Hleast]; [lia|].
      split.
      * cbn [firstn concat]. rewrite length_app. lia.
      * intros [|k] Hk; [cbn; lia|].
        cbn [firstn concat]. rewrite length_app.
        specialize (Hleast k). lia.
Qed.

(** Draining an iterator with a cap over a source of non-empty pages: the
    next [need] items come out, and the pages fetched are the ones needed
    to cover them, no more. *)
Lemma drain_page_source pages it (n : Z) :
  it_fetcher it = page_source pages ->
  it_maxItems it = Some n ->
  Forall (fun page => page <> []) pages ->
  forall need fuel results m c w log j,
    in_state it m c w log ->
    currentPage c = (Z.of_nat j + 1)%Z ->
    (drop j pages <> [] -> hasMore c = true) ->
    (Z.of_nat (totalReturned c) + Z.of_nat need)%Z = n ->
    (need <= length (drop (currentIndex c) (currentItems c))
             + length (concat (drop j pages)))%nat ->
    (need < fuel)%nat ->
    exists m',
      drain fuel it results m
      = Some (inr (results
                   ++ firstn need (drop (currentIndex c) (currentItems c)
                                   ++ concat (drop j pages))), m')
      /\ world m' = w
      /\ fetchLog m'
         = log ++ page_requests (it_pageSize it) j
                    (pages_needed need
                       (length (drop (currentIndex c) (currentItems c)))
                       (drop j pages)).
Proof.
  intros Hfetcher Hmax Hpages.
  induction need as [|need IH];
    intros fuel results m c w log j Hst Hpage Hmore Htotal Henough Hfuel;
    (destruct fuel as [|fuel]; [lia|]).
  - (* the cap is reached *)
    assert (Hcap : cap_reached it c = true).
    { unfold cap_reached. rewrite Hmax. apply Z.leb_le. lia. }
    rewrite (drain_done _ _ _ _ _ (step_cap _ _ _ _ _ _ Hst Hcap)).
    exists m. rewrite pages_needed_0. cbn. rewrite !app_nil_r.
    destruct Hst as (_ & -> & ->). auto.
  - assert (Hcap : cap_reached it c = false).
    { unfold cap_reached. rewrite Hmax. apply Z.leb_gt. lia. }
    destruct (currentItems c !! currentIndex c) as [x|] eqn:Hx.
    + (* the next item is buffered *)
      destruct (step_buffered (S fuel) it m c w log x Hst Hcap Hx) as (m2 & Hn & Hst2).
      rewrite (drain_item _ _ _ _ _ _ Hn).
      pose proof (drop_S _ _ _ Hx) as Hdrop.
      destruct (IH fuel (results ++ [x]) m2 (advanced c) w log j Hst2)
        as (m' & Hdrain & Hw & Hlog); cbn [advanced currentPage hasMore totalReturned
                                            currentItems currentIndex];
        try assumption; try lia.
      { rewrite Hdrop in Henough. cbn [length] in Henough. lia. }
      exists m'. rewrite Hdrain, Hw, Hlog, Hdrop.
      cbn [app firstn length]. rewrite pages_needed_S, <- app_assoc.
      auto.
    + (* the buffer is exhausted: the next page is fetched *)
      apply lookup_ge_None_1 in Hx.
      rewrite (drop_ge _ _ Hx) in *. cbn [length app] in *.
      destruct (pages !! j) as [page|] eqn:Hj.
      2:{ apply lookup_ge_None_1 in Hj. rewrite (drop_ge _ _ Hj) in Henough.
          cbn in Henough. lia. }
      pose proof (drop_S _ _ _ Hj) as Hdrop.
      assert (Hne : page <> []).
      { rewrite Forall_forall in Hpages. apply Hpages.
        apply list_elem_of_lookup. eauto. }
      destruct page as [|x xs]; [congruence|].
      destruct (page_source_fetch pages j (it_pageSize it) w (x :: xs) Hj)
        as (mt & Hfetch & Hnext).
      assert (Hmore' : hasMore c = true) by (apply Hmore; rewrite Hdrop; discriminate).
      destruct (step_fetch_item fuel it m c w log
                  (mkResponse (x :: xs) (Some mt)) w x xs Hst Hcap Hx Hmore')
        as (m2 & Hn & Hst2); [rewrite Hfetcher, Hpage; exact Hfetch|reflexivity|].
      rewrite (drain_item _ _ _ _ _ _ Hn).
      destruct (IH fuel (results ++ [x]) m2 _ w _ (S j) Hst2)
        as (m' & Hdrain & Hw & Hlog);
        cbn [advanced loaded currentPage hasMore totalReturned currentItems
               currentIndex data meta].
      { lia. }
      { exact Hnext. }
      { lia. }
      { rewrite Hdrop in Henough. cbn [concat] in Henough.
        rewrite length_app in Henough. cbn [length] in Henough.
        change (drop 1 (x :: xs)) with xs. lia. }
      { lia. }
      exists m'. rewrite Hdrain, Hw, Hlog, Hdrop.
      cbn [advanced loaded currentPage hasMore totalReturned currentItems
             currentIndex data meta drop concat app firstn length pages_needed].
      replace (S need <=? 0)%nat with false by reflexivity.
      rewrite Nat.sub_0_r, pages_needed_S, page_requests_S, Hpage.
      rewrite <- !app_assoc. auto.
Qed.

End PagedSource.

Section CappedDrain.
Import Pagination Props.
Open Scope list_scope.
Context {T W E : Type}.
Implicit Types (it : Iterator T W E) (m : Machine T W) (c : Cursor T).

(** Handing out an item counts it. *)
Lemma next_item_counts fuel it m m' x :
  next (S fuel) it m = Some (inr (IterValue x), m') ->
  totalReturned (cursor_of it m') = S (totalReturned (cursor_of it m)).
Proof.
  unfold next. fold (cursor_of it m).
  destruct (cap_reached it (cursor_of it m)); [discriminate|].
  set (c := cursor_of it m).
  destruct ((length (currentItems c) <=? currentIndex c)%nat && hasMore c) eqn:Hcond.
  - destruct (it_fetcher it (mkParams (currentPage c) (it_pageSize it)) (world m))
      as [[e|response] w'] eqn:Hfetch.
    + rewrite (fetch_while_reject _ _ _ _ _ _ _ Hcond Hfetch). discriminate.
    + rewrite (fetch_while_page _ _ _ _ _ _ _ Hcond Hfetch).
      destruct (data response) as [|y ys] eqn:Hdata; [discriminate|].
      cbn [loaded currentItems currentIndex]. rewrite Hdata. cbn [lookup list_lookup].
      intros [= _ <-]. rewrite cursor_of_store. reflexivity.
  - rewrite (fetch_while_exit _ _ _ _ _ Hcond).
    destruct (currentItems c !! currentIndex c); [|discriminate].
    intros [= _ <-]. rewrite cursor_of_store. reflexivity.
Qed.

(** With a cap the drain loop ends: [need] more items at most can be
    handed out, and [need + 1] turns are enough. *)
Lemma drain_capped_total it (n : Z) :
  it_maxItems it = Some n ->
  forall need fuel results m,
    (n <= Z.of_nat (totalReturned (cursor_of it m)) + Z.of_nat need)%Z ->
    (need < fuel)%nat ->
    is_Some (drain fuel it results m).
Proof.
  intros Hmax. induction need as [|need IH]; intros fuel results m Hn Hfuel;
    (destruct fuel as [|fuel]; [lia|]).
  - assert (Hcap : cap_reached it (cursor_of it m) = true).
    { unfold cap_reached. rewrite Hmax. apply Z.leb_le. lia. }
    rewrite (drain_done _ _ _ _ _ (next_cap _ _ _ Hcap)). eauto.
  - cbn [drain].
    destruct (next_total fuel it m) as [[[e|[|x]] m'] Hnext]; rewrite Hnext; eauto.
    apply IH; [|lia].
    rewrite (next_item_counts _ _ _ _ _ Hnext). lia.
Qed.

End CappedDrain.

Section Take.
Import Pagination Props.
Open Scope list_scope.
Context {T W E : Type}.

(** C9. [take fetchPage n options] is the item iterator built with
    [maxItems = n] and the other options unchanged, drained to an array,
    and it always comes to an end (more than [n] turns of the loop are
    enough, whatever the fetcher does).  And over a source of non-empty pages holding at least [n] items (30
    items and [n = 3], say), started at page 1, [take] returns exactly the
    first [n] items and fetches exactly the pages 1 to [k], where [k] is
    the least number of pages that together hold [n] items: no page is
    fetched that is not needed. *)
Theorem take_is_capped_drain :
  (forall fuel (fetcher : PageFetcher T W E) n options m,
      Pagination.take fuel fetcher n options m
      = drained_with_cap fuel fetcher n options m)
  /\ (forall fuel (fetcher : PageFetcher T W E) n options m,
         (Z.to_nat n < fuel)%nat ->
         is_Some (Pagination.take fuel fetcher n options m))
  /\ (forall (pages : list (list T)) (n : nat) options (m : Machine T W) fuel,
         Forall (fun page => page <> []) pages ->
         (n <= length (concat pages))%nat ->
         startPage options = None ->
         (n < fuel)%nat ->
         exists m' k,
           Pagination.take fuel (@page_source T W E pages) (Z.of_nat n) options m
           = Some (inr (firstn n (concat pages)), m')
           /\ length (firstn n (concat pages)) = n
           /\ fetchLog m'
              = fetchLog m
                ++ page_requests
                     (Z.min (or_default (pageSize options) DEFAULT_PAGE_SIZE)
                        MAX_PAGE_SIZE) 0 k
           /\ (n <= length (concat (firstn k pages)))%nat
           /\ forall k', (k' < k)%nat -> (length (concat (firstn k' pages)) < n)%nat).
Proof.
  split; [reflexivity|].
  split.
  { intros fuel fetcher n options m Hfuel. unfold Pagination.take, toArray.
    pose proof (created_in_state fetcher (spread_maxItems options n) m)
      as (Hc & _ & _).
    destruct (createPaginatedIterator fetcher (spread_maxItems options n) m)
      as [iterable m1] eqn:Hcreate.
    cbn [fst snd] in Hc.
    apply (drain_capped_total _ n) with (need := Z.to_nat n);
      [injection Hcreate as <- _; reflexivity|rewrite Hc; cbn; lia|exact Hfuel]. }
  intros pages n options m fuel Hpages Hn Hstart Hfuel.
  unfold Pagination.take, toArray.
  pose proof (created_in_state (@page_source T W E pages)
                (spread_maxItems options (Z.of_nat n)) m) as Hst.
  destruct (createPaginatedIterator (page_source pages)
              (spread_maxItems options (Z.of_nat n)) m) as [iterable m1] eqn:Hcreate.
  cbn [fst snd spread_maxItems startPage] in Hst. rewrite Hstart in Hst.
  cbn [or_default] in Hst.
  assert (Hit : asyncIterator iterable
                = mkIterator (page_source pages)
                    (Z.min (or_default (pageSize options) DEFAULT_PAGE_SIZE) MAX_PAGE_SIZE)
                    (Some (Z.of_nat n)) (fresh (dom (heap m))))
    by (injection Hcreate as <- _; reflexivity).
  set (it := asyncIterator iterable) in *.
  destruct (drain_page_source pages it (Z.of_nat n)) with
    (need := n) (fuel := fuel) (results := @nil T) (m := m1)
    (c := mkCursor (T:=T) 1 [] 0 0 true None) (w := world m) (log := fetchLog m)
    (j := 0%nat)
    as (m' & Hdrain & _ & Hlog);
    try (rewrite Hit; reflexivity); try assumption; try reflexivity;
    try (cbn; lia).
  cbn [currentItems currentIndex drop length app] in Hdrain, Hlog.
  destruct (pages_needed_least pages n 0 Hn) as [Hcover Hleast].
  exists m', (pages_needed n 0 pages).
  split; [exact Hdrain|].
  split; [apply firstn_length_le, Hn|].
  split; [rewrite Hlog, Hit; reflexivity|].
  split; [exact Hcover|exact Hleast].
Qed.

End Take.

Section TakeRun.
Import Pagination Props.

Example take_three_of_thirty :
  length (concat Fixtures.thirty_items) = 30%nat
  /\ (fun '(r, m) => (r, fetchLog m))
       <$> Pagination.take 4 (@page_source nat unit string Fixtures.thirty_items) 3
             (mkOptions None None None) Fixtures.fresh_machine
     = Some (inr [0; 1; 2]%nat, [mkParams 1 50]).
Proof. split; vm_compute; reflexivity. Qed.

Lemma take_is_capped_drain_witness :
  exists m' k,
    Pagination.take 4 (@page_source nat unit string Fixtures.thirty_items) 3
      (mkOptions None None None) Fixtures.fresh_machine
    = Some (inr (firstn 3 (concat Fixtures.thirty_items)), m')
    /\ length (firstn 3 (concat Fixtures.thirty_items)) = 3%nat
    /\ fetchLog m' = page_requests 50 0 k
    /\ (3 <= length (concat (firstn k Fixtures.thirty_items)))%nat
    /\ forall k', (k' < k)%nat ->
                  (length (concat (firstn k' Fixtures.thirty_items)) < 3)%nat.
Proof.
  apply (proj2 (proj2 (@take_is_capped_drain nat unit string))
           Fixtures.thirty_items 3%nat (mkOptions None None None)
           Fixtures.fresh_machine 4%nat).
  - repeat constructor; discriminate.
  - vm_compute. lia.
  - reflexivity.
  - lia.
Defined.

End TakeRun.

(* ===================================================================== *)
(** * Iterating one iterable again (src/pagination.ts)                    *)
(* ===================================================================== *)

Section Redrain.
Import Pagination Props.
Open Scope list_scope.
Context {T W E : Type}.
Implicit Types (it : Iterator T W E) (m : Machine T W) (c : Cursor T).

(** Once [next] has answered done it keeps answering done, fetching
    nothing, provided the cap is reached or the last page announced no
    successor. *)
Lemma next_done_stays_done fuel fuel' it m m' :
  next (S fuel) it m = Some (inr IterDone, m') ->
  cap_reached it (cursor_of it m') = true \/ hasMore (cursor_of it m') = false ->
  exists m'',
    next fuel' it m' = Some (inr IterDone, m'')
    /\ world m'' = world m' /\ fetchLog m'' = fetchLog m'.
Proof.
  intros Hnext Hquiet.
  destruct (cap_reached it (cursor_of it m')) eqn:Hcap'.
  { exists m'. rewrite (next_cap _ _ _ Hcap'). auto. }
  destruct Hquiet as [?|Hmore']; [discriminate|].
  assert (Hlen : (length (currentItems (cursor_of it m'))
                  <= currentIndex (cursor_of it m'))%nat).
  { revert Hnext. unfold next. fold (cursor_of it m).
    destruct (cap_reached it (cursor_of it m)) eqn:Hcap.
    { intros [= <-]. congruence. }
    set (c := cursor_of it m).
    destruct ((length (currentItems c) <=? currentIndex c)%nat && hasMore c) eqn:Hcond.
    - destruct (it_fetcher it (mkParams (currentPage c) (it_pageSize it)) (world m))
        as [[e|response] w'] eqn:Hfetch.
      + rewrite (fetch_while_reject _ _ _ _ _ _ _ Hcond Hfetch). discriminate.
      + rewrite (fetch_while_page _ _ _ _ _ _ _ Hcond Hfetch).
        destruct (data response) as [|x xs] eqn:Hdata.
        * intros [= <-]. rewrite cursor_of_store. cbn. rewrite Hdata. cbn. lia.
        * cbn [loaded currentItems currentIndex]. rewrite Hdata. discriminate.
    - rewrite (fetch_while_exit _ _ _ _ _ Hcond).
      destruct (currentItems c !! currentIndex c) eqn:Hx; [discriminate|].
      intros [= <-]. rewrite cursor_of_store. apply lookup_ge_None_1, Hx. }
  eexists. rewrite (next_exhausted _ _ _ Hcap' Hlen Hmore'). auto.
Qed.

Lemma drain_last_next fuel it :
  forall results m out m',
    drain fuel it results m = Some (inr out, m') ->
    exists fuel0 m0, next (S fuel0) it m0 = Some (inr IterDone, m').
Proof.
  induction fuel as [|fuel IH]; intros results m out m' Hdrain; [discriminate|].
  cbn [drain] in Hdrain.
  destruct (next (S fuel) it m) as [[[e|[|x]] m1]|] eqn:Hnext; try discriminate.
  - injection Hdrain as _ <-. eauto.
  - eapply IH, Hdrain.
Qed.

(** Iterating again after a full drain yields nothing and fetches
    nothing, provided the drain ended on the cap or after a page that
    announced no successor. *)
Lemma redrain_quiet fuel fuel' it results m out m' :
  drain fuel it results m = Some (inr out, m') ->
  cap_reached it (cursor_of it m') = true \/ hasMore (cursor_of it m') = false ->
  exists m'',
    drain (S fuel') it [] m' = Some (inr [], m'')
    /\ world m'' = world m' /\ fetchLog m'' = fetchLog m'.
Proof.
  intros Hdrain Hquiet.
  destruct (drain_last_next _ _ _ _ _ _ Hdrain) as (fuel0 & m0 & Hlast).
  destruct (next_done_stays_done fuel0 (S fuel') it m0 m' Hlast Hquiet)
    as (m'' & Hnext & Hw & Hlog).
  exists m''. rewrite (drain_done _ _ _ _ _ Hnext). auto.
Qed.

End Redrain.

Section RedrainAfterEmptyPage.
Import Pagination Props.

(** C10 (where the code departs from it). The iterable hands out its one
    iterator at every call, so a second iteration continues with the
    cursor the first one left.  After a drain that ended on an empty page
    whose [meta.nextPage] was not [null], that cursor still has
    [hasMore = true]: the second iteration fetches page 2 and yields its
    item, where a drained iterable should yield nothing and fetch
    nothing. *)
Theorem redrain_after_empty_page_fetches_again :
  exists iterable m1 m2 m3,
    createPaginatedIterator Fixtures.empty_then_item (mkOptions None None None)
      Fixtures.fresh_machine = (iterable, m1)
    /\ toArray 5 iterable m1 = Some (inr [], m2)
    /\ fetchLog m2 = [mkParams 1 50]
    /\ hasMore (cursor_of (asyncIterator iterable) m2) = true
    /\ toArray 5 iterable m2 = Some (inr ["x"], m3)
    /\ fetchLog m3 = [mkParams 1 50; mkParams 2 50].
Proof.
  eexists _, _, _, _.
  split; [reflexivity|].
  split; [vm_compute; reflexivity|].
  split; [reflexivity|].
  split; [reflexivity|].
  split; [vm_compute; reflexivity|].
  reflexivity.
Qed.

End RedrainAfterEmptyPage.

(* ===================================================================== *)
(** * More on key conversion (src/jsonapi.ts)                             *)
(* ===================================================================== *)

Section KeyConversionMore.
Import Js Jsonapi Props.

Ltac cases_on_char c :=
  destruct c as [[] [] [] [] [] [] [] []]; vm_compute; try reflexivity; try discriminate.

Lemma toLowerCase_char_not_upper c : is_upper (char_toLowerCase c) = false.
Proof. cases_on_char c. Qed.

Lemma toLowerCase_char_fixed c : is_upper c = false -> char_toLowerCase c = c.
Proof. cases_on_char c. Qed.

Lemma toUpperCase_is_upper c : is_lower c = true -> is_upper (char_toUpperCase c) = true.
Proof. cases_on_char c. Qed.

Lemma toUpperCase_not_lower c : is_lower (char_toUpperCase c) = false.
Proof. cases_on_char c. Qed.

Lemma toLowerCase_toUpperCase c :
  is_lower c = true -> char_toLowerCase (char_toUpperCase c) = c.
Proof. cases_on_char c. Qed.

Lemma hyphen_not_lower c : Ascii.eqb c "-" = true -> is_lower c = false.
Proof. cases_on_char c. Qed.

Lemma has_upper_toLowerCase s : has_upper (toLowerCase s) = false.
Proof.
  induction s as [|c s IH]; [reflexivity|].
  cbn [toLowerCase has_upper]. rewrite toLowerCase_char_not_upper, IH. reflexivity.
Qed.

Lemma toLowerCase_fixed s : has_upper s = false -> toLowerCase s = s.
Proof.
  induction s as [|c s IH]; [reflexivity|].
  cbn [toLowerCase has_upper]. intros [Hc Hs]%orb_false_iff.
  rewrite (toLowerCase_char_fixed c Hc), (IH Hs). reflexivity.
Qed.

Lemma hyphenate_fixed s : has_upper s = false -> hyphenate s = s.
Proof.
  induction s as [|a s IH]; [reflexivity|].
  cbn [has_upper]. intros [Ha Hs]%orb_false_iff.
  rewrite hyphenate_skip, (IH Hs); [reflexivity|].
  intros c s' ->. cbn [has_upper] in Hs.
  apply orb_false_iff in Hs as [-> _]. apply andb_false_r.
Qed.

(** X1. What [camelToKebab] returns holds no ASCII capital, whatever it is
    given; so converting a key that is already converted changes
    nothing. *)
Theorem camelToKebab_lowercase_idempotent (s : string) :
  has_upper (camelToKebab s) = false
  /\ camelToKebab (camelToKebab s) = camelToKebab s.
Proof.
  assert (H : has_upper (camelToKebab s) = false) by apply has_upper_toLowerCase.
  split; [exact H|].
  unfold camelToKebab at 1. rewrite (hyphenate_fixed _ H).
  apply toLowerCase_fixed, H.
Qed.

(** ** Decoding a key twice *)

Lemma has_hyphen_lower_cons a c t :
  has_hyphen_lower (String a (String c t))
  = (Ascii.eqb a "-" && is_lower c) || has_hyphen_lower (String c t).
Proof. reflexivity. Qed.

Lemma kebabToCamel_fixed s : has_hyphen_lower s = false -> kebabToCamel s = s.
Proof.
  induction s as [|a s IH]; [reflexivity|].
  destruct s as [|c s']; [reflexivity|].
  rewrite has_hyphen_lower_cons. intros [Hac Hs]%orb_false_iff.
  cbn [kebabToCamel]. rewrite Hac. fold kebabToCamel.
  change (String a (kebabToCamel (String c s')) = String a (String c s')).
  rewrite (IH Hs). reflexivity.
Qed.

Lemma kebabToCamel_decoded_ok s :
  decoded_ok s /\ forall a, decoded_ok (String a s).
Proof.
  induction s as [|c r [IHr IHcr]].
  - split.
    + split; [reflexivity|]. intros c r [=].
    + intros a. split; [reflexivity|].
      intros c r [= <- <-]. exists a, EmptyString. auto.
  - split; [apply IHcr|]. intros a.
    destruct (IHcr c) as [Hcr_no Hcr_head].
    destruct (Hcr_head c r eq_refl) as (d & r' & Hd & Hlow).
    destruct (Ascii.eqb a "-" && is_lower c) eqn:Hmatch.
    + apply andb_true_iff in Hmatch as [Ha Hc].
      assert (Hk : kebabToCamel (String a (String c r))
                   = String (char_toUpperCase c) (kebabToCamel r))
        by (cbn [kebabToCamel]; rewrite Ha, Hc; reflexivity).
      split.
      * rewrite Hk. destruct IHr as [Hr_no Hr_head].
        destruct (kebabToCamel r) as [|e r''] eqn:Hr; [reflexivity|].
        rewrite has_hyphen_lower_cons, Hr_no.
        rewrite (upper_not_hyphen _ (toUpperCase_is_upper c Hc)). reflexivity.
      * intros c0 r0 [= <- <-]. eexists _, _. split; [exact Hk|].
        rewrite toUpperCase_not_lower. discriminate.
    + assert (Hk : kebabToCamel (String a (String c r))
                   = String a (kebabToCamel (String c r)))
        by (cbn [kebabToCamel]; rewrite Hmatch; reflexivity).
      split.
      * rewrite Hk, Hd, has_hyphen_lower_cons, <- Hd, Hcr_no, orb_false_r.
        destruct (Ascii.eqb a "-") eqn:Ha; [|reflexivity].
        destruct (is_lower d) eqn:Ld; [|reflexivity].
        simpl in Hmatch. rewrite (Hlow eq_refl) in Hmatch. discriminate.
      * intros c0 r0 [= <- <-]. eexists _, _. split; [exact Hk|]. auto.
Qed.

(** X2. Decoding a key that is already decoded changes nothing, whatever
    the key. *)
Theorem kebabToCamel_idempotent (s : string) :
  kebabToCamel (kebabToCamel s) = kebabToCamel s.
Proof. apply kebabToCamel_fixed, (kebabToCamel_decoded_ok s). Qed.

(** ** From the wire and back *)

(** The encoder applied to what the decoder gives, behind one character
    [p] that the decoder has left as it is. *)
Lemma wire_step n :
  forall s p,
    (String.length s <= n)%nat ->
    is_upper p = false ->
    toLowerCase (hyphenate (String p (kebabToCamel s))) = String p s
    <-> wire_after (is_lower p) s = true.
Proof.
  induction n as [|n IH]; intros s p Hlen Up.
  { destruct s; [|cbn in Hlen; lia].
    cbn. rewrite (toLowerCase_char_fixed p Up). split; reflexivity. }
  assert (Top : forall r,
             (String.length r <= n)%nat ->
             toLowerCase (hyphenate (kebabToCamel r)) = r
             <-> wire_after false r = true).
  { intros r Hr. rewrite <- (IH r "0"%char Hr eq_refl).
    rewrite hyphenate_skip by (intros; reflexivity).
    cbn [toLowerCase]. change (char_toLowerCase "0") with "0"%char.
    split; [intros ->; reflexivity|intros [= H]; exact H]. }
  destruct s as [|a [|c rest]].
  - cbn. rewrite (toLowerCase_char_fixed p Up). split; reflexivity.
  - cbn [kebabToCamel wire_after].
    destruct (is_lower p && is_upper a) eqn:Hpair.
    + apply andb_true_iff in Hpair as [Lp Ua].
      rewrite (hyphenate_match p a _ Lp Ua), Ua. cbn.
      split; [intros [= _ _ H]; discriminate H|discriminate].
    + rewrite hyphenate_skip by (intros c s' [= <- <-]; exact Hpair).
      cbn [hyphenate toLowerCase]. rewrite (toLowerCase_char_fixed p Up).
      destruct (is_upper a) eqn:Ua; cbn [negb].
      * split; [|discriminate]. intros [= H].
        destruct (toLowerCase_upper_moves a Ua H).
      * rewrite (toLowerCase_char_fixed a Ua). split; reflexivity.
  - cbn [String.length] in Hlen.
    destruct (Ascii.eqb a "-" && is_lower c) eqn:Hconv.
    + (* a joint: the hyphen and the letter become a capital *)
      assert (Hw : wire_after (is_lower p) (String a (String c rest))
                   = is_lower p && wire_after false rest)
        by (cbn [wire_after]; rewrite Hconv; reflexivity).
      rewrite Hw. clear Hw.
      apply andb_true_iff in Hconv as [Ha Lc]. apply Ascii.eqb_eq in Ha. subst a.
      rewrite (kebabToCamel_hyphen c rest Lc).
      pose proof (toUpperCase_is_upper c Lc) as UC.
      destruct (is_lower p) eqn:Lp; cbn [andb].
      * rewrite (hyphenate_match p _ _ Lp UC). cbn [toLowerCase].
        rewrite (toLowerCase_char_fixed p Up), (toLowerCase_toUpperCase c Lc).
        change (char_toLowerCase "-") with "-"%char.
        rewrite <- (Top rest) by lia.
        split; [intros [= H]; exact H|intros ->; reflexivity].
      * rewrite hyphenate_skip by (intros c' s' _; rewrite Lp; reflexivity).
        destruct (hyphenate_head (char_toUpperCase c) (kebabToCamel rest)) as [t ->].
        cbn [toLowerCase]. rewrite (toLowerCase_toUpperCase c Lc).
        split; [|discriminate]. intros [= _ H _]. subst c. discriminate Lc.
    + (* no joint at [a] *)
      assert (Hw : wire_after (is_lower p) (String a (String c rest))
                   = negb (is_upper a) && wire_after (is_lower a) (String c rest))
        by (cbn [wire_after]; rewrite Hconv; reflexivity).
      rewrite Hw. clear Hw.
      rewrite (kebabToCamel_skip a (String c rest))
        by (intros c' s' [= <- <-]; exact Hconv).
      destruct (is_lower p && is_upper a) eqn:Hpair.
      * apply andb_true_iff in Hpair as [Lp Ua].
        rewrite (hyphenate_match p a _ Lp Ua), Ua. cbn [toLowerCase negb andb].
        split; [|discriminate]. intros [= _ H _]. subst a. discriminate Ua.
      * rewrite hyphenate_skip by (intros c' s' [= <- <-]; exact Hpair).
        cbn [toLowerCase]. rewrite (toLowerCase_char_fixed p Up).
        destruct (is_upper a) eqn:Ua; cbn [negb andb].
        -- destruct (hyphenate_head a (kebabToCamel (String c rest))) as [t ->].
           cbn [toLowerCase]. split; [|discriminate]. intros [= H _].
           destruct (toLowerCase_upper_moves a Ua H).
        -- rewrite <- (IH (String c rest) a) by (cbn [String.length]; (lia || exact Ua)).
           split; [intros [= H]; exact H|intros ->; reflexivity].
Qed.

(** The two round trips, one after the other. *)
Lemma wire_roundtrip_iff k :
  camelToKebab (kebabToCamel k) = k <-> restorableWireKey k = true.
Proof.
  unfold camelToKebab, restorableWireKey.
  rewrite <- (wire_step (String.length k) k "0"%char) by (lia || reflexivity).
  rewrite hyphenate_skip by (intros; reflexivity).
  cbn [toLowerCase]. change (char_toLowerCase "0") with "0"%char.
  split; [intros ->; reflexivity|intros [= H]; exact H].
Qed.

(** X3. For every wire key of ASCII characters, decoding it and encoding
    the result gives the wire key again if and only if the key holds no
    capital and every hyphen of it that is directly followed by a
    lowercase letter directly follows a lowercase letter that is not
    itself the first letter after such a hyphen; the decoded key is then
    one that the other round trip gives back.  A word that follows a
    digit, as in [base64-data], and a one-letter word between two hyphens
    do not come back. *)
Theorem wire_key_roundtrip :
  (forall k, ascii_only k = true ->
             camelToKebab (kebabToCamel k) = k <-> restorableWireKey k = true)
  /\ (forall k, restorableWireKey k = true ->
                restorableKey (kebabToCamel k) = true)
  /\ camelToKebab (kebabToCamel "base64-data") = "base64data"
  /\ camelToKebab (kebabToCamel "a-b-c") = "a-bc".
Proof.
  split; [intros k _; apply wire_roundtrip_iff|].
  split; [|split; reflexivity].
  intros k Hk. apply (roundtrip_iff (String.length (kebabToCamel k))); [lia|].
  apply wire_roundtrip_iff in Hk. rewrite Hk. reflexivity.
Qed.

Lemma wire_key_roundtrip_witness :
  camelToKebab (kebabToCamel "organization-type-name") = "organization-type-name".
Proof.
  apply (proj1 wire_key_roundtrip "organization-type-name"); reflexivity.
Defined.

End KeyConversionMore.

(* ===================================================================== *)
(** * Encoding requests (src/jsonapi.ts)                                  *)
(* ===================================================================== *)

Section Encoding.
Import Js Jsonapi Props.
Open Scope list_scope.

Example serialize_tests :
  serialize "organizations"
    [("name", JStr "New Organization"); ("organizationTypeId", JNum 42);
     ("quickNotes", JStr "Some notes")] None
  = JObj [("data",
           JObj [("type", JStr "organizations");
                 ("attributes",
                  JObj [("name", JStr "New Organization");
                        ("organization-type-id", JNum 42);
                        ("quick-notes", JStr "Some notes")])])]
  /\ serialize "organizations" [("name", JStr "Updated Name")] (Some "123")
     = JObj [("data",
              JObj [("id", JStr "123"); ("type", JStr "organizations");
                    ("attributes", JObj [("name", JStr "Updated Name")])])].
Proof. split; reflexivity. Qed.

(** ** Assignments of fresh keys append *)

Lemma obj_get_None k o : obj_get k o = None <-> k ∉ map fst o.
Proof.
  induction o as [|[k' v] o IH]; cbn [obj_get map fst].
  - split; [intros _; apply not_elem_of_nil|reflexivity].
  - rewrite not_elem_of_cons. destruct (k =? k') eqn:E.
    + apply String.eqb_eq in E. split; [discriminate|intros [? _]; congruence].
    + apply String.eqb_neq in E. rewrite IH. tauto.
Qed.

Lemma obj_set_fresh k v o : k ∉ map fst o -> obj_set k v o = o ++ [(k, v)].
Proof.
  induction o as [|[k' v'] o IH]; cbn [obj_set map fst app]; [reflexivity|].
  rewrite not_elem_of_cons. intros [Hne Hk].
  destruct (k =? k') eqn:E; [apply String.eqb_eq in E; congruence|].
  rewrite (IH Hk). reflexivity.
Qed.

Lemma fold_obj_set_fresh (F : string -> string) (G : JsValue -> JsValue) l :
  forall acc,
    NoDup (map fst acc ++ map (fun e => F e.1) l) ->
    fold_left (fun acc '(k, v) => obj_set (F k) (G v) acc) l acc
    = acc ++ map (fun '(k, v) => (F k, G v)) l.
Proof.
  induction l as [|[k v] l IH]; intros acc Hnd; cbn [fold_left map].
  - rewrite app_nil_r. reflexivity.
  - cbn [map fst] in Hnd.
    assert (Hk : F k ∉ map fst acc).
    { apply NoDup_app in Hnd as (_ & Hdisj & _). intros Hin.
      apply (Hdisj _ Hin). apply list_elem_of_here. }
    rewrite (obj_set_fresh _ _ _ Hk), IH.
    + rewrite <- app_assoc. reflexivity.
    + rewrite map_app, <- app_assoc. exact Hnd.
Qed.

Lemma NoDup_map_inj_on {A B} (f : A -> B) (l : list A) :
  (forall x y, x ∈ l -> y ∈ l -> f x = f y -> x = y) ->
  NoDup l -> NoDup (map f l).
Proof.
  intros Hinj. induction 1 as [|x l Hx Hnd IH]; cbn [map]; constructor.
  - intros Hin. apply list_elem_of_In, in_map_iff in Hin as (y & Hfy & Hy).
    apply list_elem_of_In in Hy.
    assert (x = y) as <-.
    { apply Hinj; [apply list_elem_of_here|apply list_elem_of_further, Hy|congruence]. }
    contradiction.
  - apply IH. intros a b Ha Hb. apply Hinj; apply list_elem_of_further; assumption.
Qed.

(** ** Keys *)

Lemma camelToKebab_inj k1 k2 :
  roundTripKey k1 = true -> roundTripKey k2 = true ->
  camelToKebab k1 = camelToKebab k2 -> k1 = k2.
Proof.
  intros H1 H2 Heq.
  rewrite <- (roundTripKey_back k1 H1), <- (roundTripKey_back k2 H2).
  rewrite Heq. reflexivity.
Qed.

Lemma NoDup_encoded_keys (props : list (string * JsValue)) :
  Forall (fun e => roundTripKey e.1 = true) props ->
  NoDup (map fst props) ->
  NoDup (map (fun e => camelToKebab e.1) props).
Proof.
  intros Hkeys Hnd. rewrite <- (map_map fst camelToKebab).
  apply NoDup_map_inj_on; [|exact Hnd].
  intros k1 k2 Hk1 Hk2. rewrite Forall_forall in Hkeys.
  apply list_elem_of_In, in_map_iff in Hk1 as (e1 & <- & He1).
  apply list_elem_of_In, in_map_iff in Hk2 as (e2 & <- & He2).
  apply camelToKebab_inj; apply Hkeys, list_elem_of_In; assumption.
Qed.

Lemma decoded_entries (G G' : JsValue -> JsValue) (props : list (string * JsValue)) :
  Forall (fun e => roundTripKey e.1 = true /\ G' (G e.2) = e.2) props ->
  map (fun '(k, v) => (kebabToCamel k, G' v))
    (map (fun '(k, v) => (camelToKebab k, G v)) props) = props.
Proof.
  induction 1 as [|[k v] props [Hk Hv] _ IH]; [reflexivity|].
  cbn [map]. cbn [fst snd] in Hk, Hv.
  rewrite IH, Hv, (roundTripKey_back k Hk). reflexivity.
Qed.

Lemma decoded_keys (G : JsValue -> JsValue) (props : list (string * JsValue)) :
  Forall (fun e => roundTripKey e.1 = true) props ->
  map (fun e => kebabToCamel e.1) (map (fun '(k, v) => (camelToKebab k, G v)) props)
  = map fst props.
Proof.
  induction 1 as [|[k v] props Hk _ IH]; [reflexivity|].
  cbn [map fst]. cbn [fst] in Hk.
  rewrite IH, (roundTripKey_back k Hk). reflexivity.
Qed.

Lemma camelClean_obj props :
  camelClean (JObj props) = true ->
  Forall (fun e => roundTripKey e.1 = true /\ camelClean e.2 = true) props
  /\ NoDup (map fst props).
Proof.
  cbn [camelClean]. intros [Hall Hnd]%andb_true_iff.
  split; [|apply bool_decide_eq_true in Hnd; exact Hnd].
  apply Forall_forall. intros [k x] Hin. apply list_elem_of_In in Hin.
  rewrite forallb_forall in Hall. specialize (Hall _ Hin). cbn in Hall.
  apply andb_true_iff in Hall. exact Hall.
Qed.

(** Encoding and then decoding the keys of a clean value. *)
Lemma camelClean_encode_decode (v : JsValue) :
  camelClean v = true -> convertKeysToCamel (convertKeysToKebab v) = v.
Proof.
  induction v as [| | | | |items IH|props IH] using JsValue_nested_ind;
    try reflexivity.
  - intros Hclean. cbn [convertKeysToKebab convertKeysToCamel camelClean] in *.
    f_equal. rewrite map_map.
    induction IH as [|x items Hx _ IHitems]; [reflexivity|].
    cbn [forallb] in Hclean. apply andb_true_iff in Hclean as [Hcx Hcitems].
    cbn [map]. rewrite (Hx Hcx), (IHitems Hcitems). reflexivity.
  - intros Hclean. apply camelClean_obj in Hclean as [Hall Hnd].
    assert (Hkeys : Forall (fun e => roundTripKey e.1 = true) props)
      by (eapply Forall_impl; [exact Hall|]; intros e [? _]; assumption).
    assert (Hback : Forall (fun e => roundTripKey e.1 = true
                                     /\ convertKeysToCamel (convertKeysToKebab e.2) = e.2)
                      props).
    { clear Hnd Hkeys. induction IH as [|e props He _ IHprops]; [constructor|].
      apply Forall_cons in Hall as [[Hk Hc] Hall].
      constructor; [split; [exact Hk|apply He, Hc]|apply IHprops, Hall]. }
    cbn [convertKeysToKebab].
    rewrite (fold_obj_set_fresh camelToKebab convertKeysToKebab props [])
      by (apply NoDup_encoded_keys; assumption).
    cbn [app convertKeysToCamel].
    rewrite (fold_obj_set_fresh kebabToCamel convertKeysToCamel _ []).
    + cbn [app]. rewrite decoded_entries by exact Hback. reflexivity.
    + cbn [map app]. rewrite decoded_keys by exact Hkeys. exact Hnd.
Qed.

(** X4. A value comes back unchanged from [convertKeysToKebab] followed
    by [convertKeysToCamel] when every object in it, at any depth, has no
    key twice and only keys of ASCII characters in which every capital
    directly follows a lowercase letter and no hyphen is directly followed
    by a lowercase letter, none of them [__proto__] or made of digits
    only.  A key with a capital after a digit, such as [base64Data], is
    outside: it comes back as [base64data]. *)
Theorem convertKeys_roundtrip (v : JsValue) :
  camelClean v = true -> convertKeysToCamel (convertKeysToKebab v) = v.
Proof. apply camelClean_encode_decode. Qed.

Lemma convertKeys_roundtrip_witness :
  convertKeysToCamel
    (convertKeysToKebab
       (JObj [("contactEmails",
               JArr [JObj [("value", JStr "a@b.c"); ("isPrimary", JBool true)]])]))
  = JObj [("contactEmails",
           JArr [JObj [("value", JStr "a@b.c"); ("isPrimary", JBool true)]])].
Proof.
  apply (convertKeys_roundtrip
           (JObj [("contactEmails",
                   JArr [JObj [("value", JStr "a@b.c"); ("isPrimary", JBool true)]])])).
  vm_compute. reflexivity.
Defined.

(** A capital after a digit is lost on the way. *)
Example convertKeys_capital_after_digit :
  roundTripKey "base64Data" = false
  /\ convertKeysToCamel (convertKeysToKebab (JObj [("base64Data", JStr "x")]))
     = JObj [("base64data", JStr "x")].
Proof. split; reflexivity. Qed.

(** Two keys that encode alike collide: the round trip loses one. *)
Example convertKeys_collision :
  convertKeysToCamel
    (convertKeysToKebab (JObj [("someURL", JNum 1); ("someUrl", JNum 2)]))
  = JObj [("someUrl", JNum 2)].
Proof. reflexivity. Qed.

(** ** [serialize] *)

(** The entries called [id] and [type] do not reach the attributes. *)
Lemma serializeAttributes_fold fields :
  forall acc,
    fold_left
      (fun attributes '(key, value) =>
         if (key =? "id") || (key =? "type") then attributes
         else obj_set (camelToKebab key) (convertKeysToKebab value) attributes)
      fields acc
    = fold_left
        (fun acc '(k, v) => obj_set (camelToKebab k) (convertKeysToKebab v) acc)
        (List.filter (fun e => is_attribute_key e.1) fields) acc.
Proof.
  induction fields as [|[k v] fields IH]; intros acc; [reflexivity|].
  cbn [fold_left List.filter]. unfold is_attribute_key at 1. cbn [fst].
  destruct ((k =? "id") || (k =? "type")); cbn [negb fold_left]; apply IH.
Qed.




(** An attribute can still be called [id]: the test is made on the key
    before it is converted. *)
Example serialize_capital_Id :
  serializeAttributes [("Id", JNum 1); ("id", JNum 2)] = [("id", JNum 1)].
Proof. reflexivity. Qed.

Lemma filter_keeps_Forall {A} (P : A -> Prop) (f : A -> bool) (l : list A) :
  Forall P l -> Forall P (List.filter f l).
Proof.
  induction 1 as [|x l Hx _ IH]; cbn [List.filter]; [constructor|].
  destruct (f x); [constructor|]; assumption.
Qed.

Lemma filter_keeps_NoDup_keys (f : string * JsValue -> bool) (l : list (string * JsValue)) :
  NoDup (map fst l) -> NoDup (map fst (List.filter f l)).
Proof.
  induction l as [|e l IH]; cbn [List.filter map]; [auto|].
  intros [Hx Hnd]%NoDup_cons. destruct (f e); [|auto].
  cbn [map]. constructor; [|auto].
  intros Hin. apply Hx.
  apply list_elem_of_In, in_map_iff in Hin as (e' & He' & Hin).
  apply filter_In in Hin as [Hin _].
  apply list_elem_of_In, in_map_iff. eauto.
Qed.

Lemma attribute_keys_not_id_type (l : list (string * JsValue)) :
  Forall (fun e => e.1 <> "id" /\ e.1 <> "type")
    (List.filter (fun e => is_attribute_key e.1) l).
Proof.
  induction l as [|[k v] l IH]; cbn [List.filter]; [constructor|].
  unfold is_attribute_key at 1. cbn [fst].
  destruct (k =? "id") eqn:E1; [exact IH|].
  destruct (k =? "type") eqn:E2; [exact IH|].
  cbn [orb negb]. constructor; [|exact IH].
  apply String.eqb_neq in E1, E2. split; assumption.
Qed.

(** X6. Decoding the envelope that [serialize] builds gives the data back,
    after the id and the type: when no key of the data occurs twice, every
    key is of ASCII characters, has every capital directly after a
    lowercase letter and no hyphen directly before a lowercase letter, and
    is neither [__proto__] nor made of digits only, and the values are
    clean in the same sense at every depth, the decoded resource is the id
    (or [undefined] when none was given), the type, and then the entries
    of the data in their order, without those called [id] or [type].  A
    key with a capital after a digit, such as [base64Data], is outside: it
    is sent as [base64data] and does not come back. *)
Theorem serialize_deserialize_roundtrip (type : string)
    (fields : list (string * JsValue)) (id : option string) :
  NoDup (map fst fields) ->
  Forall (fun e => roundTripKey e.1 = true /\ camelClean e.2 = true) fields ->
  deserialize (serialize type fields id)
  = Ok {| data :=
            JObj ([("id", match id with
                          | Some (String c s) => JStr (String c s)
                          | _ => JUndefined
                          end);
                   ("type", JStr type)]
                  ++ List.filter (fun e => is_attribute_key e.1) fields);
          meta := JUndefined;
          included := JUndefined |}.
Proof.
  intros Hnd Hall.
  set (kept := List.filter (fun e => is_attribute_key e.1) fields).
  assert (Hkept : Forall (fun e => roundTripKey e.1 = true
                                   /\ camelClean e.2 = true) kept)
    by (apply filter_keeps_Forall, Hall).
  assert (Hkeys : Forall (fun e => roundTripKey e.1 = true) kept)
    by (eapply Forall_impl; [exact Hkept|]; intros e [? _]; assumption).
  assert (Hback : Forall (fun e => roundTripKey e.1 = true
                                   /\ convertKeysToCamel (convertKeysToKebab e.2) = e.2)
                    kept).
  { eapply Forall_impl; [exact Hkept|]. intros e [Hk Hc].
    split; [exact Hk|apply camelClean_encode_decode, Hc]. }
  assert (Hnd' : NoDup (map fst kept)) by apply filter_keeps_NoDup_keys, Hnd.
  assert (Hattrs : serializeAttributes fields
                   = map (fun '(k, v) => (camelToKebab k, convertKeysToKebab v)) kept).
  { unfold serializeAttributes. rewrite serializeAttributes_fold. fold kept.
    rewrite (fold_obj_set_fresh camelToKebab convertKeysToKebab kept [])
      by (apply NoDup_encoded_keys; assumption).
    reflexivity. }
  assert (Hdecode : forall idv,
             fold_left
               (fun result '(key, value) =>
                  obj_set (kebabToCamel key) (convertKeysToCamel value) result)
               (serializeAttributes fields) [("id", idv); ("type", JStr type)]
             = [("id", idv); ("type", JStr type)] ++ kept).
  { intros idv. rewrite Hattrs.
    rewrite (fold_obj_set_fresh kebabToCamel convertKeysToCamel).
    - rewrite decoded_entries by exact Hback. reflexivity.
    - rewrite decoded_keys by exact Hkeys. cbn [map fst app].
      pose proof (attribute_keys_not_id_type fields) as Hne. fold kept in Hne.
      rewrite Forall_forall in Hne.
      constructor; [|constructor; [|exact Hnd']].
      + rewrite not_elem_of_cons. split; [discriminate|].
        intros Hin. apply list_elem_of_In, in_map_iff in Hin as (e & He & Hin).
        apply list_elem_of_In in Hin. destruct (Hne e Hin) as [Hid _]. congruence.
      + intros Hin. apply list_elem_of_In, in_map_iff in Hin as (e & He & Hin).
        apply list_elem_of_In in Hin. destruct (Hne e Hin) as [_ Hty]. congruence. }
  unfold serialize, deserialize, get_prop.
  destruct id as [[|c s]|]; cbn -[serializeAttributes kept fold_left app];
    unfold deserializeResource, get_prop;
    cbn -[serializeAttributes kept fold_left app];
    rewrite Hdecode; reflexivity.
Qed.

Lemma serialize_deserialize_roundtrip_witness :
  deserialize
    (serialize "organizations"
       [("name", JStr "Acme"); ("organizationTypeId", JNum 42)] (Some "123"))
  = Ok {| data :=
            JObj [("id", JStr "123"); ("type", JStr "organizations");
                  ("name", JStr "Acme"); ("organizationTypeId", JNum 42)];
          meta := JUndefined;
          included := JUndefined |}.
Proof.
  apply (serialize_deserialize_roundtrip "organizations"
           [("name", JStr "Acme"); ("organizationTypeId", JNum 42)] (Some "123")).
  - apply (bool_decide_eq_true_1 _). vm_compute. reflexivity.
  - repeat constructor.
Defined.

End Encoding.

(* ===================================================================== *)
(** * Flattening attributes (src/jsonapi.ts)                              *)
(* ===================================================================== *)

Section Flattening.
Import Js Jsonapi Props.
Open Scope list_scope.

(** The entries that [deserializeResource] flattens: those of a truthy
    [attributes]. *)
Lemma attribute_fold_keeps (ents : list (string * JsValue)) ck :
  Forall (fun e => kebabToCamel e.1 <> ck) ents ->
  forall acc,
    obj_get ck
      (fold_left
         (fun result '(key, value) =>
            obj_set (kebabToCamel key) (convertKeysToCamel value) result)
         ents acc)
    = obj_get ck acc.
Proof.
  induction 1 as [|[k v] ents Hne _ IH]; intros acc; [reflexivity|].
  cbn [fold_left]. rewrite IH. apply obj_get_set_ne. exact Hne.
Qed.

Lemma deserializeResource_shape props :
  resource_decodes (JObj props) = true ->
  exists relationships,
    deserializeResource (JObj props)
    = Ok (JObj
            (let flat :=
               if truthy (prop (JObj props) "attributes")
               then fold_left
                      (fun result '(key, value) =>
                         obj_set (kebabToCamel key) (convertKeysToCamel value) result)
                      (entries (prop (JObj props) "attributes"))
                      [("id", prop (JObj props) "id");
                       ("type", prop (JObj props) "type")]
               else [("id", prop (JObj props) "id");
                     ("type", prop (JObj props) "type")] in
             if truthy relationships
             then obj_set "relationships" relationships flat
             else flat)).
Proof.
  intros Hdec. pose proof (deserializeResource_throws (JObj props)) as Hthrow.
  rewrite Hdec in Hthrow. cbn [negb] in Hthrow.
  unfold deserializeResource, get_prop in *. cbn [nullish] in *.
  cbn [mbind Res_bind] in *.
  destruct (deserializeRelationships (prop (JObj props) "relationships"))
    as [relationships|e]; [|discriminate].
  exists relationships. reflexivity.
Qed.

Lemma obj_get_under_relationships ck relationships flat :
  ck <> "relationships" ->
  obj_get ck (if truthy relationships
              then obj_set "relationships" relationships flat
              else flat)
  = obj_get ck flat.
Proof.
  intros Hne. destruct (truthy relationships); [|reflexivity].
  apply obj_get_set_ne. congruence.
Qed.

(** An attribute named [id] takes the place of the id of the resource. *)
Example deserializeResource_attribute_id :
  deserializeResource
    (JObj [("id", JStr "1"); ("type", JStr "t");
           ("attributes", JObj [("id", JNum 7)])])
  = Ok (JObj [("id", JNum 7); ("type", JStr "t")]).
Proof. reflexivity. Qed.

(** X7. Decoding a resource that decodes puts every attribute at the top
    level under its converted key, with its value decoded, provided no
    later attribute converts to the same key and the converted key is
    neither [relationships] nor [__proto__] (an assignment to the latter
    runs the setter of [Object.prototype] and adds no property). *)
Theorem deserializeResource_flattens
    (props attrs before after : list (string * JsValue))
    (key : string) (value : JsValue) :
  resource_decodes (JObj props) = true ->
  obj_get "attributes" props = Some (JObj attrs) ->
  attrs = before ++ (key, value) :: after ->
  Forall (fun e => kebabToCamel e.1 <> kebabToCamel key) after ->
  kebabToCamel key <> "relationships" ->
  kebabToCamel key <> "__proto__" ->
  exists result,
    deserializeResource (JObj props) = Ok (JObj result)
    /\ obj_get (kebabToCamel key) result = Some (convertKeysToCamel value).
Proof.
  intros Hdec Hattrs -> Hafter Hrel _.
  destruct (deserializeResource_shape props Hdec) as (relationships & ->).
  eexists. split; [reflexivity|].
  cbv zeta. rewrite obj_get_under_relationships by exact Hrel.
  cbn [prop]. rewrite Hattrs. cbn [default from_option id truthy entries].
  rewrite fold_left_app. cbn [fold_left].
  rewrite attribute_fold_keeps by exact Hafter.
  apply obj_get_set_eq.
Qed.

Lemma deserializeResource_flattens_witness :
  exists result,
    deserializeResource
      (JObj [("id", JStr "123"); ("type", JStr "organizations");
             ("attributes",
              JObj [("organization-type-name", JStr "Customer");
                    ("created-at", JStr "2024-01-15T10:30:00.000Z")])])
    = Ok (JObj result)
    /\ obj_get "organizationTypeName" result = Some (JStr "Customer").
Proof.
  apply (deserializeResource_flattens
           [("id", JStr "123"); ("type", JStr "organizations");
            ("attributes",
             JObj [("organization-type-name", JStr "Customer");
                   ("created-at", JStr "2024-01-15T10:30:00.000Z")])]
           [("organization-type-name", JStr "Customer");
            ("created-at", JStr "2024-01-15T10:30:00.000Z")]
           [] [("created-at", JStr "2024-01-15T10:30:00.000Z")]
           "organization-type-name" (JStr "Customer")).
  - reflexivity.
  - reflexivity.
  - reflexivity.
  - repeat constructor. discriminate.
  - discriminate.
  - discriminate.
Defined.

(** X8. The id and the type of a resource that decodes are copied as they
    are, unless an attribute converts to the key [id] (or [type]): then
    the attribute takes their place. *)
Theorem deserializeResource_id_type (props : list (string * JsValue)) :
  resource_decodes (JObj props) = true ->
  let attributes := prop (JObj props) "attributes" in
  let ents := if truthy attributes then entries attributes else [] in
  exists result,
    deserializeResource (JObj props) = Ok (JObj result)
    /\ (Forall (fun e => kebabToCamel e.1 <> "id") ents ->
        obj_get "id" result = Some (prop (JObj props) "id"))
    /\ (Forall (fun e => kebabToCamel e.1 <> "type") ents ->
        obj_get "type" result = Some (prop (JObj props) "type")).
Proof.
  intros Hdec. cbv zeta.
  destruct (deserializeResource_shape props Hdec) as (relationships & ->).
  eexists. split; [reflexivity|]. cbv zeta.
  rewrite !obj_get_under_relationships by discriminate.
  destruct (truthy (prop (JObj props) "attributes")).
  - split; intros Hents; rewrite attribute_fold_keeps by exact Hents; reflexivity.
  - split; intros _; reflexivity.
Qed.

Lemma deserializeResource_id_type_witness :
  exists result,
    deserializeResource
      (JObj [("id", JStr "123"); ("type", JStr "organizations");
             ("attributes", JObj [("name", JStr "Acme")])])
    = Ok (JObj result)
    /\ obj_get "id" result = Some (JStr "123")
    /\ obj_get "type" result = Some (JStr "organizations").
Proof.
  destruct (deserializeResource_id_type
              [("id", JStr "123"); ("type", JStr "organizations");
               ("attributes", JObj [("name", JStr "Acme")])] eq_refl)
    as (result & Hres & Hid & Htype).
  exists result. split; [exact Hres|].
  split; [apply Hid|apply Htype]; repeat constructor; discriminate.
Defined.

End Flattening.

(* ===================================================================== *)
(** * Names in the query string (src/jsonapi.ts)                          *)
(* ===================================================================== *)

Section QueryNames.
Import Js Jsonapi Props.
Open Scope list_scope.





(** Two keys that convert alike share one parameter: the later wins. *)
Example buildQueryParams_later_wins :
  buildQueryParams [("pageSize", JNum 10); ("page-size", JNum 20)]
  = [("page-size", "20")].
Proof. reflexivity. Qed.

End QueryNames.

(* ===================================================================== *)
(** * What an error carries (src/errors.ts, src/http.ts)                  *)
(* ===================================================================== *)

Section ErrorContents.
Import Js Errors Http.
Open Scope Z_scope.

Ltac by_status status :=
  unfold createErrorFromResponse;
  destruct (status =? 401) eqn:E401; [apply Z.eqb_eq in E401|apply Z.eqb_neq in E401];
  [|destruct (status =? 403) eqn:E403; [apply Z.eqb_eq in E403|apply Z.eqb_neq in E403];
    [|destruct (status =? 404) eqn:E404; [apply Z.eqb_eq in E404|apply Z.eqb_neq in E404];
      [|destruct (status =? 422) eqn:E422; [apply Z.eqb_eq in E422|apply Z.eqb_neq in E422];
        [|destruct (status =? 429) eqn:E429; [apply Z.eqb_eq in E429|apply Z.eqb_neq in E429];
          [|destruct (500 <=? status) eqn:E500;
            [apply Z.leb_le in E500|apply Z.leb_gt in E500]]]]]];
  cbn [orb].

(** Whatever the status, the error that [createErrorFromResponse] builds
    carries that status, the response body, the url and the method it was
    given. *)
Lemma createErrorFromResponse_carries
    (status : Z) (body : JsValue) (u m : option string) :
  let error := createErrorFromResponse status body u m in
  statusCode error = status /\ response error = body
  /\ url error = u /\ method error = m.
Proof. cbv zeta. by_status status; cbn; repeat split; congruence. Qed.

(** X10. A request is retried exactly when the status of its response is
    429 or at least 500: the predicate of [requestWithRetry] accepts the
    error built from a response if and only if the status is one of
    those. *)
Theorem retried_statuses (status : Z) (body : JsValue) (u m : option string) :
  shouldRetry (ThrownITGlue (createErrorFromResponse status body u m)) = true
  <-> status = 429 \/ 500 <= status.
Proof.
  by_status status; cbn; split; intros H; try discriminate; try reflexivity;
    try lia; auto.
Qed.

Lemma retried_statuses_witness :
  shouldRetry (ThrownITGlue (createErrorFromResponse 503 JNull None None)) = true.
Proof. apply (proj2 (retried_statuses 503 JNull None None)). right. lia. Defined.

(** X11. The message of the error is the detail of the first error of the
    body when that is a non-empty string; failing a truthy detail, its
    title when that is a non-empty string; failing both, the [message] of
    the body when that is a non-empty string: and this for every
    status. *)
Theorem createErrorFromResponse_message
    (status : Z) (body : JsValue) (u m : option string) (text : string) :
  text <> EmptyString ->
  let first := get_index0_opt (prop body "errors") in
  (prop first "detail" = JStr text
   \/ (truthy (prop first "detail") = false /\ prop first "title" = JStr text)
   \/ (truthy (prop first "detail") = false /\ truthy (prop first "title") = false
       /\ prop body "message" = JStr text)) ->
  message (createErrorFromResponse status body u m) = text.
Proof.
  intros Htext. cbv zeta. intros Hsel.
  destruct text as [|c t]; [congruence|].
  assert (Hmsg : forall fallback,
             message_or
               (js_or (js_or (prop (get_index0_opt (prop body "errors")) "detail")
                             (prop (get_index0_opt (prop body "errors")) "title"))
                      (prop body "message")) fallback = String c t).
  { intros fallback. unfold message_or, js_or.
    destruct Hsel as [Hd|[[Hd Ht]|(Hd & Ht & Hm)]].
    - rewrite Hd. reflexivity.
    - rewrite Hd, Ht. reflexivity.
    - rewrite Hd, Ht, Hm. reflexivity. }
  by_status status; cbn [message]; apply Hmsg.
Qed.

Lemma createErrorFromResponse_message_witness :
  message
    (createErrorFromResponse 500
       (JObj [("errors", JArr [JObj [("title", JStr "Boom")]])]) None None)
  = "Boom".
Proof.
  apply (createErrorFromResponse_message 500
           (JObj [("errors", JArr [JObj [("title", JStr "Boom")]])]) None None "Boom").
  - discriminate.
  - right. left. split; reflexivity.
Defined.

End ErrorContents.

Section ValidationMessages.
Import Js Errors Props.
Open Scope list_scope.

Example getErrorMessages_format :
  getErrorMessages
    (JArr [JObj [("title", JStr "Invalid"); ("detail", JStr "is blank");
                 ("source", JObj [("pointer", JStr "/data/attributes/name")])];
           JObj [("detail", JStr "too long")];
           JObj []])
  = Ok ["Invalid: is blank: (/data/attributes/name)"; "too long";
        "Unknown validation error"].
Proof. reflexivity. Qed.

Lemma errorMessage_nonempty error :
  nullish error = false ->
  exists text, errorMessage error = Ok text /\ text <> EmptyString.
Proof.
  intros Hn. unfold errorMessage, get_prop. rewrite Hn. cbn [mbind Res_bind].
  eexists. split; [reflexivity|].
  match goal with |- (if ?j =? EmptyString then _ else _) <> _ =>
    destruct (j =? EmptyString) eqn:E end.
  - discriminate.
  - apply String.eqb_neq in E. exact E.
Qed.

Lemma errorMessage_throws error :
  nullish error = true -> is_Throw (errorMessage error) = true.
Proof. intros Hn. unfold errorMessage, get_prop. rewrite Hn. reflexivity. Qed.

(** The message of an error whose title, detail and pointer are absent
    or strings. *)
Lemma errorMessage_described error title detail pointer :
  nullish error = false ->
  prop error "title" = as_field title ->
  prop error "detail" = as_field detail ->
  prop (prop error "source") "pointer" = as_field pointer ->
  errorMessage error = Ok (described_message title detail pointer).
Proof.
  intros Hn Ht Hd Hp. unfold errorMessage, get_prop. rewrite Hn.
  cbn [mbind Res_bind]. rewrite Ht, Hd, Hp. f_equal.
  destruct title as [[|c1 t1]|], detail as [[|c2 t2]|], pointer as [[|c3 t3]|];
    cbn [as_field truthy String.eqb negb app]; try reflexivity;
    unfold described_message, join;
    cbn [present app map nullish toString join_strings];
    match goal with
    | |- (if ?j =? EmptyString then _ else _) = _ =>
        destruct (j =? EmptyString) eqn:E;
        [apply String.eqb_eq in E; discriminate E|reflexivity]
    end.
Qed.

Lemma getErrorMessages_each es :
  Forall (fun error => nullish error = false) es ->
  exists texts,
    getErrorMessages (JArr es) = Ok texts
    /\ Forall2 (fun error text => errorMessage error = Ok text /\ text <> EmptyString)
         es texts.
Proof.
  induction 1 as [|error es Herr _ (texts & Htexts & Hall)].
  - exists []. split; [reflexivity|constructor].
  - destruct (errorMessage_nonempty error Herr) as (text & Htext & Hnonempty).
    exists (text :: texts). cbn [getErrorMessages mapM] in *.
    rewrite Htext, Htexts. split; [reflexivity|].
    constructor; [split; assumption|exact Hall].
Qed.

(** X12. [getErrorMessages] gives, for a list of validation errors none
    of which is [null] or [undefined], the list of their messages, one
    for each error and in the order of the errors, none of them empty;
    the message of an error whose title, detail and source pointer are
    absent or strings is made of those that are present and not empty,
    the pointer in parentheses, joined by a colon and a space, and is
    [Unknown validation error] when none is.  It throws when one of the
    elements is [null] or [undefined], and when the errors are not a
    list. *)
Theorem getErrorMessages_one_each :
  (forall es,
      Forall (fun error => nullish error = false) es ->
      exists texts,
        getErrorMessages (JArr es) = Ok texts
        /\ Forall2
             (fun error text =>
                text <> EmptyString
                /\ forall title detail pointer,
                     prop error "title" = as_field title ->
                     prop error "detail" = as_field detail ->
                     prop (prop error "source") "pointer" = as_field pointer ->
                     text = described_message title detail pointer)
             es texts)
  /\ (forall es,
         Exists (fun error => nullish error = true) es ->
         is_Throw (getErrorMessages (JArr es)) = true)
  /\ (forall errors, isArray errors = false ->
                     is_Throw (getErrorMessages errors) = true).
Proof.
  split; [|split].
  - intros es Hes. destruct (getErrorMessages_each es Hes) as (texts & Htexts & Hall).
    exists texts. split; [exact Htexts|].
    clear Htexts. induction Hall as [|error text es texts [Htext Hne] _ IH];
      [constructor|].
    apply Forall_cons in Hes as [Herr Hes].
    constructor; [|apply IH, Hes].
    split; [exact Hne|]. intros title detail pointer Ht Hd Hp.
    rewrite (errorMessage_described error title detail pointer Herr Ht Hd Hp) in Htext.
    injection Htext as <-. reflexivity.
  - induction 1 as [error es Herr|error es _ IH]; cbn [getErrorMessages mapM] in *.
    + pose proof (errorMessage_throws error Herr) as Ht.
      destruct (errorMessage error); [discriminate|reflexivity].
    + destruct (errorMessage error); [|reflexivity]. cbn.
      destruct (mapM errorMessage es); [discriminate|reflexivity].
  - intros errors Harr. destruct errors; try reflexivity. discriminate.
Qed.

Lemma getErrorMessages_one_each_witness :
  exists texts,
    getErrorMessages
      (JArr [JObj [("title", JStr "Invalid"); ("detail", JStr "is blank")]; JObj []])
    = Ok texts
    /\ Forall2
         (fun error text =>
            text <> EmptyString
            /\ forall title detail pointer,
                 prop error "title" = as_field title ->
                 prop error "detail" = as_field detail ->
                 prop (prop error "source") "pointer" = as_field pointer ->
                 text = described_message title detail pointer)
         [JObj [("title", JStr "Invalid"); ("detail", JStr "is blank")]; JObj []]
         texts.
Proof.
  apply (proj1 getErrorMessages_one_each
           [JObj [("title", JStr "Invalid"); ("detail", JStr "is blank")]; JObj []]).
  repeat constructor.
Defined.

(** The messages follow the errors, each with its own text. *)
Example getErrorMessages_in_order :
  getErrorMessages
    (JArr [JObj [("title", JStr "Invalid"); ("detail", JStr "is blank")];
           JObj [("source", JObj [("pointer", JStr "/data")])]])
  = Ok [described_message (Some "Invalid") (Some "is blank") None;
        described_message None None (Some "/data")]
  /\ described_message (Some "Invalid") (Some "is blank") None = "Invalid: is blank"
  /\ described_message None None (Some "/data") = "(/data)".
Proof. repeat split. Qed.

End ValidationMessages.

(* ===================================================================== *)
(** * The requests an iteration makes (src/pagination.ts)                 *)
(* ===================================================================== *)

Section RequestDiscipline.
Import Pagination Props.
Open Scope list_scope.
Context {T W E : Type}.
Implicit Types (it : Iterator T W E) (m : Machine T W) (c : Cursor T).

Lemma requests_from_cons first size k :
  requests_from first size (S k)
  = mkParams first size :: requests_from (first + 1) size k.
Proof.
  unfold requests_from. cbn [seq map]. rewrite Z.add_0_r. f_equal.
  rewrite <- seq_shift, map_map. apply map_ext. intros i. f_equal. lia.
Qed.

(** What one call of [next] does to the log, the page counter and the
    count of items: at most one request, for the page the cursor points
    at; a rejection leaves the cursor as it was. *)
Lemma next_cases fuel it m r m' :
  next fuel it m = Some (r, m') ->
  (fetchLog m' = fetchLog m
   /\ currentPage (cursor_of it m') = currentPage (cursor_of it m)
   /\ match r with
      | inl _ => False
      | inr IterDone => True
      | inr (IterValue _) =>
          cap_reached it (cursor_of it m) = false
          /\ totalReturned (cursor_of it m') = S (totalReturned (cursor_of it m))
      end)
  \/ (fetchLog m'
      = fetchLog m ++ [mkParams (currentPage (cursor_of it m)) (it_pageSize it)]
      /\ cap_reached it (cursor_of it m) = false
      /\ (length (currentItems (cursor_of it m)) <=? currentIndex (cursor_of it m))%nat
         && hasMore (cursor_of it m) = true
      /\ match r with
         | inl _ => cursor_of it m' = cursor_of it m
         | inr IterDone =>
             currentPage (cursor_of it m') = (currentPage (cursor_of it m) + 1)%Z
         | inr (IterValue _) =>
             currentPage (cursor_of it m') = (currentPage (cursor_of it m) + 1)%Z
             /\ totalReturned (cursor_of it m') = S (totalReturned (cursor_of it m))
         end).
Proof.
  unfold next. fold (cursor_of it m).
  destruct (cap_reached it (cursor_of it m)) eqn:Hcap.
  { intros [= <- <-]. left. auto. }
  set (c := cursor_of it m).
  destruct ((length (currentItems c) <=? currentIndex c)%nat && hasMore c) eqn:Hcond.
  - destruct fuel as [|fuel]; [cbn [fetch_while]; rewrite Hcond; discriminate|].
    destruct (it_fetcher it (mkParams (currentPage c) (it_pageSize it)) (world m))
      as [[e|response] w'] eqn:Hfetch.
    + rewrite (fetch_while_reject _ _ _ _ _ _ _ Hcond Hfetch).
      intros [= <- <-]. right. rewrite cursor_of_store. auto.
    + rewrite (fetch_while_page _ _ _ _ _ _ _ Hcond Hfetch).
      destruct (data response) as [|x xs] eqn:Hdata.
      * intros [= <- <-]. right. rewrite cursor_of_store. auto.
      * cbn [loaded currentItems currentIndex]. rewrite Hdata. cbn [lookup list_lookup].
        intros [= <- <-]. right. rewrite cursor_of_store. auto.
  - rewrite (fetch_while_exit _ _ _ _ _ Hcond).
    destruct (currentItems c !! currentIndex c).
    + intros [= <- <-]. left. rewrite cursor_of_store. auto.
    + intros [= <- <-]. left. rewrite cursor_of_store. auto.
Qed.

(** The requests of a drain are consecutive pages from the one the cursor
    points at, all of the iterator's page size; a drain that ends well has
    made at most one request more than it has gathered items, and one that
    is rejected leaves the cursor on the page that was refused. *)
Lemma drain_log it :
  forall fuel results m r m',
    drain fuel it results m = Some (r, m') ->
    exists k,
      fetchLog m'
      = fetchLog m ++ requests_from (currentPage (cursor_of it m)) (it_pageSize it) k
      /\ match r with
         | inl _ =>
             (0 < k)%nat
             /\ currentPage (cursor_of it m')
                = (currentPage (cursor_of it m) + Z.of_nat k - 1)%Z
         | inr items =>
             (length results + k <= S (length items))%nat
             /\ currentPage (cursor_of it m')
                = (currentPage (cursor_of it m) + Z.of_nat k)%Z
         end.
Proof.
  induction fuel as [|fuel IH]; intros results m r m' Hdrain; [discriminate|].
  cbn [drain] in Hdrain.
  destruct (next (S fuel) it m) as [[[e|[|x]] m1]|] eqn:Hnext; try discriminate.
  - injection Hdrain as <- <-.
    destruct (next_cases _ _ _ _ _ Hnext) as [(_ & _ & [])|(Hlog & _ & _ & Hc)].
    exists 1%nat. rewrite Hlog, Hc. cbn. rewrite Z.add_0_r. split; [reflexivity|].
    split; lia.
  - injection Hdrain as <- <-.
    destruct (next_cases _ _ _ _ _ Hnext) as [(Hlog & Hp & _)|(Hlog & _ & _ & Hp)].
    + exists 0%nat. rewrite Hlog, Hp. cbn. rewrite app_nil_r. split; [reflexivity|].
      split; lia.
    + exists 1%nat. rewrite Hlog, Hp. cbn. rewrite Z.add_0_r. split; [reflexivity|].
      split; lia.
  - destruct (IH _ _ _ _ Hdrain) as (k & Hlog' & Hr).
    destruct (next_cases _ _ _ _ _ Hnext)
      as [(Hlog & Hp & _)|(Hlog & _ & _ & Hp & _)].
    + exists k. rewrite Hlog', Hlog, Hp. split; [reflexivity|].
      destruct r as [e|items]; rewrite Hp in Hr; [exact Hr|].
      rewrite length_app in Hr. cbn [length] in Hr. split; lia.
    + exists (S k). rewrite Hlog', Hlog, Hp, requests_from_cons, <- app_assoc.
      split; [reflexivity|].
      destruct r as [e|items]; rewrite Hp in Hr.
      * split; lia.
      * rewrite length_app in Hr. cbn [length] in Hr. split; lia.
Qed.

(** X13. Whatever the fetcher does, [collectAll] asks for consecutive
    pages, starting at the start page (1 when the option is missing or 0),
    never skipping or repeating one, and every request carries the same
    size: the [pageSize] option (50 when missing or 0) cut down to 1000.
    When it returns items it has made at most one request more than it
    returns items; when it fails, the rejected request is the last one. *)
Theorem collectAll_requests fuel (fetcher : PageFetcher T W E) options m r m' :
  collectAll fuel fetcher options m = Some (r, m') ->
  exists k,
    fetchLog m'
    = fetchLog m
      ++ requests_from (or_default (startPage options) 1)
           (Z.min (or_default (pageSize options) DEFAULT_PAGE_SIZE) MAX_PAGE_SIZE) k
    /\ (Z.min (or_default (pageSize options) DEFAULT_PAGE_SIZE) MAX_PAGE_SIZE <= 1000)%Z
    /\ match r with
       | inl _ => (0 < k)%nat
       | inr items => (k <= S (length items))%nat
       end.
Proof.
  unfold collectAll, toArray. intros Hdrain.
  pose proof (created_in_state fetcher options m) as (Hc & _ & Hlog0).
  destruct (createPaginatedIterator fetcher options m) as [iterable m1] eqn:Hcreate.
  cbn [fst snd] in Hc, Hlog0.
  assert (Hsize : it_pageSize (asyncIterator iterable)
                  = Z.min (or_default (pageSize options) DEFAULT_PAGE_SIZE) MAX_PAGE_SIZE)
    by (injection Hcreate as <- _; reflexivity).
  destruct (drain_log _ _ _ _ _ _ Hdrain) as (k & Hlog & Hr).
  rewrite Hc, Hlog0, Hsize in Hlog. cbn [currentPage] in Hlog.
  exists k. split; [exact Hlog|]. split; [unfold MAX_PAGE_SIZE; lia|].
  destruct r as [e|items]; cbn [length] in Hr; lia.
Qed.

Lemma drain_rejected_last fuel it :
  forall results m e m',
    drain fuel it results m = Some (inl e, m') ->
    exists fuel0 m0, next (S fuel0) it m0 = Some (inl e, m').
Proof.
  induction fuel as [|fuel IH]; intros results m e m' Hdrain; [discriminate|].
  cbn [drain] in Hdrain.
  destruct (next (S fuel) it m) as [[[e1|[|x]] m1]|] eqn:Hnext; try discriminate.
  - injection Hdrain as <- <-. eauto.
  - eapply IH, Hdrain.
Qed.

(** X14. When a fetch is rejected the iteration fails, and the iterator
    is left on the page that was refused: the last request logged is for
    that page, and the next call of [next] asks for the same page again.
    No page is skipped by a failure. *)
Theorem rejected_page_is_asked_again fuel fuel' it results m e m' :
  drain fuel it results m = Some (inl e, m') ->
  let page := mkParams (currentPage (cursor_of it m')) (it_pageSize it) in
  exists log0 r m'',
    fetchLog m' = log0 ++ [page]
    /\ next (S fuel') it m' = Some (r, m'')
    /\ fetchLog m'' = fetchLog m' ++ [page].
Proof.
  intros Hdrain page. subst page.
  destruct (drain_rejected_last _ _ _ _ _ _ Hdrain) as (fuel0 & m0 & Hnext).
  destruct (next_cases _ _ _ _ _ Hnext) as [(_ & _ & [])|(Hlog & Hcap & Hcond & Hc)].
  rewrite Hc. exists (fetchLog m0).
  destruct (next_total fuel' it m') as [[r m''] Hnext'].
  exists r, m''. split; [exact Hlog|]. split; [exact Hnext'|].
  revert Hnext'. unfold next. fold (cursor_of it m'). rewrite Hc, Hcap.
  destruct (it_fetcher it (mkParams (currentPage (cursor_of it m0)) (it_pageSize it))
              (world m')) as [[e'|response] w'] eqn:Hfetch.
  - rewrite (fetch_while_reject _ _ _ _ _ _ _ Hcond Hfetch).
    intros [= _ <-]. reflexivity.
  - rewrite (fetch_while_page _ _ _ _ _ _ _ Hcond Hfetch).
    destruct (data response) as [|x xs] eqn:Hdata.
    + intros [= _ <-]. reflexivity.
    + cbn [loaded currentItems currentIndex]. rewrite Hdata. cbn [lookup list_lookup].
      intros [= _ <-]. reflexivity.
Qed.

(** With a cap of [n] a drain hands out at most the items still missing
    to [n], and makes at most as many requests. *)
Lemma drain_capped_bound it (n : Z) :
  it_maxItems it = Some n ->
  forall fuel results m r m',
    drain fuel it results m = Some (r, m') ->
    (length (fetchLog m')
     <= length (fetchLog m) + (Z.to_nat n - totalReturned (cursor_of it m)))%nat
    /\ match r with
       | inl _ => True
       | inr items =>
           (length items
            <= length results + (Z.to_nat n - totalReturned (cursor_of it m)))%nat
       end.
Proof.
  intros Hmax. induction fuel as [|fuel IH]; intros results m r m' Hdrain;
    [discriminate|].
  cbn [drain] in Hdrain.
  assert (Hopen : cap_reached it (cursor_of it m) = false ->
                  (totalReturned (cursor_of it m) < Z.to_nat n)%nat).
  { unfold cap_reached. rewrite Hmax. intros H. apply Z.leb_gt in H. lia. }
  destruct (next (S fuel) it m) as [[[e|[|x]] m1]|] eqn:Hnext; try discriminate.
  - injection Hdrain as <- <-.
    destruct (next_cases _ _ _ _ _ Hnext) as [(_ & _ & [])|(Hlog & Hcap & _ & _)].
    rewrite Hlog, length_app. cbn [length]. specialize (Hopen Hcap). split; [lia|exact I].
  - injection Hdrain as <- <-.
    destruct (next_cases _ _ _ _ _ Hnext) as [(Hlog & _ & _)|(Hlog & Hcap & _ & _)].
    + rewrite Hlog. split; lia.
    + rewrite Hlog, length_app. cbn [length]. specialize (Hopen Hcap). split; lia.
  - destruct (IH _ _ _ _ Hdrain) as [Hlog' Hr].
    destruct (next_cases _ _ _ _ _ Hnext)
      as [(Hlog & _ & Hcap & Ht)|(Hlog & Hcap & _ & _ & Ht)];
      specialize (Hopen Hcap); rewrite Ht, Hlog in Hlog'; rewrite Ht in Hr.
    + split; [lia|]. destruct r as [e|items]; [exact I|].
      rewrite length_app in Hr. cbn [length] in Hr. lia.
    + rewrite length_app in Hlog'. cbn [length] in Hlog'. split; [lia|].
      destruct r as [e|items]; [exact I|].
      rewrite length_app in Hr. cbn [length] in Hr. lia.
Qed.

(** X15. Whatever the fetcher does, [take fetchPage n] returns at most
    [n] items and makes at most [n] requests (none at all when [n] is 0
    or negative). *)
Theorem take_bounds fuel (fetcher : PageFetcher T W E) (n : Z) options m r m' :
  Pagination.take fuel fetcher n options m = Some (r, m') ->
  (length (fetchLog m') <= length (fetchLog m) + Z.to_nat n)%nat
  /\ match r with
     | inl _ => True
     | inr items => (length items <= Z.to_nat n)%nat
     end.
Proof.
  unfold Pagination.take, toArray. intros Hdrain.
  pose proof (created_in_state fetcher (spread_maxItems options n) m) as (Hc & _ & Hlog0).
  destruct (createPaginatedIterator fetcher (spread_maxItems options n) m)
    as [iterable m1] eqn:Hcreate.
  cbn [fst snd] in Hc, Hlog0.
  assert (Hmax : it_maxItems (asyncIterator iterable) = Some n)
    by (injection Hcreate as <- _; reflexivity).
  destruct (drain_capped_bound _ n Hmax _ _ _ _ _ Hdrain) as [Hlog Hr].
  rewrite Hc, Hlog0 in Hlog. rewrite Hc in Hr. cbn [totalReturned length] in Hlog, Hr.
  split; [lia|]. destruct r as [e|items]; [exact I|lia].
Qed.

End RequestDiscipline.

Section RequestDisciplineRun.
Import Pagination Props.
Open Scope list_scope.

Lemma collectAll_requests_witness :
  exists k,
    [mkParams 1 50; mkParams 2 50]
    = [] ++ requests_from (or_default None 1)
              (Z.min (or_default None DEFAULT_PAGE_SIZE) MAX_PAGE_SIZE) k
    /\ (Z.min (or_default None DEFAULT_PAGE_SIZE) MAX_PAGE_SIZE <= 1000)%Z
    /\ (k <= S (length ["1"; "2"; "3"; "4"]))%nat.
Proof.
  apply (collectAll_requests 5 Fixtures.two_pages (mkOptions None None None)
           Fixtures.fresh_machine (inr ["1"; "2"; "3"; "4"])
           (mkMachine
              (<[fresh (dom (∅ : gmap nat (Cursor string))) :=
                   mkCursor 3 ["3"; "4"] 2 4 false (Some (mkMeta 2 None (Some 1%Z) 2 4))]> ∅)
              tt [mkParams 1 50; mkParams 2 50])).
  vm_compute. reflexivity.
Defined.

Lemma rejected_page_is_asked_again_witness :
  exists log0 r m'',
    fetchLog (mkMachine (<[0%nat := mkCursor (T:=string) 3 [] 0 0 true None]> ∅) tt [mkParams 3 50])
    = log0
      ++ [mkParams
            (currentPage
               (cursor_of (mkIterator Fixtures.two_pages 50 None 0)
                  (mkMachine (<[0%nat := mkCursor (T:=string) 3 [] 0 0 true None]> ∅) tt [mkParams 3 50])))
            (it_pageSize (mkIterator Fixtures.two_pages 50 None 0))]
    /\ next 1 (mkIterator Fixtures.two_pages 50 None 0)
         (mkMachine (<[0%nat := mkCursor (T:=string) 3 [] 0 0 true None]> ∅) tt [mkParams 3 50])
       = Some (r, m'')
    /\ fetchLog m''
       = fetchLog (mkMachine (<[0%nat := mkCursor (T:=string) 3 [] 0 0 true None]> ∅) tt [mkParams 3 50])
         ++ [mkParams
               (currentPage
                  (cursor_of (mkIterator Fixtures.two_pages 50 None 0)
                     (mkMachine (<[0%nat := mkCursor (T:=string) 3 [] 0 0 true None]> ∅) tt [mkParams 3 50])))
               (it_pageSize (mkIterator Fixtures.two_pages 50 None 0))].
Proof.
  apply (rejected_page_is_asked_again 1 0 (mkIterator Fixtures.two_pages 50 None 0) []
           (mkMachine (<[0%nat := mkCursor (T:=string) 3 [] 0 0 true None]> ∅) tt [])
           "no such page"
           (mkMachine (<[0%nat := mkCursor (T:=string) 3 [] 0 0 true None]> ∅) tt [mkParams 3 50])).
  vm_compute. reflexivity.
Defined.

Lemma take_bounds_witness :
  (length [mkParams 1 50] <= length (@nil PaginationParams) + Z.to_nat 3)%nat
  /\ (length [0; 1; 2]%nat <= Z.to_nat 3)%nat.
Proof.
  apply (take_bounds 4 (@page_source nat unit string Fixtures.thirty_items) 3
           (mkOptions None None None) Fixtures.fresh_machine (inr [0; 1; 2]%nat)
           (mkMachine
              (<[fresh (dom (∅ : gmap nat (Cursor nat))) :=
                   mkCursor 2 [0; 1; 2]%nat 3 3 true
                     (Some (mkMeta 1 (Some 2%Z) None 10 30))]> ∅)
              tt [mkParams 1 50])).
  vm_compute. reflexivity.
Defined.

End RequestDisciplineRun.

(* ===================================================================== *)
(** * Collecting a whole source (src/pagination.ts)                       *)
(* ===================================================================== *)

Section WholeSource.
Import Pagination Props.
Open Scope list_scope.
Context {T W E : Type}.
Implicit Types (it : Iterator T W E) (m : Machine T W) (c : Cursor T).
Implicit Types (pages : list (list T)).

(** What the source answers for page [j + 1], and whether it announces a
    successor. *)
Lemma page_source_answer pages (j : nat) size (w : W) :
  exists mt,
    @page_source T W E pages (mkParams (Z.of_nat j + 1) size) w
    = (inr (mkResponse (nth j pages []) (Some mt)), w)
    /\ (has_next (Some mt) = true <-> drop (S j) pages <> []).
Proof.
  unfold page_source. cbn [number].
  replace (Z.to_nat (Z.of_nat j + 1 - 1)) with j by lia.
  eexists. split; [reflexivity|]. cbn.
  destruct (Z.of_nat j + 1 <? Z.of_nat (length pages))%Z eqn:Hlt.
  - split; [|reflexivity]. intros _ Heq.
    apply (f_equal length) in Heq. rewrite length_drop in Heq. cbn in Heq. lia.
  - split; [discriminate|]. intros Hne. exfalso. apply Hne, drop_ge. lia.
Qed.

Lemma further_requests_empty (rest : list (list T)) :
  further_requests ([] :: rest) = 1%nat.
Proof. reflexivity. Qed.

Lemma further_requests_cons (x : T) xs (rest : list (list T)) :
  further_requests ((x :: xs) :: rest) = S (further_requests rest).
Proof.
  unfold further_requests. cbn [leading_pages length].
  change (S (length (leading_pages rest)) <? S (length rest))%nat
    with (length (leading_pages rest) <? length rest)%nat.
  destruct (length (leading_pages rest) <? length rest)%nat; reflexivity.
Qed.

Lemma leading_pages_nonempty pages :
  Forall (fun page => page <> []) pages ->
  leading_pages pages = pages /\ further_requests pages = length pages.
Proof.
  induction 1 as [|page pages Hne _ [IH1 IH2]]; [split; reflexivity|].
  destruct page as [|x xs]; [congruence|].
  rewrite further_requests_cons, IH2. cbn [leading_pages]. rewrite IH1.
  split; reflexivity.
Qed.

(** Draining an iterator without a cap over a paged source: the buffered
    items come out, then the pages up to the first empty one. *)
Lemma drain_all_page_source pages it :
  it_fetcher it = page_source pages ->
  it_maxItems it = None ->
  forall fuel results m c w log j,
    in_state it m c w log ->
    currentPage c = (Z.of_nat j + 1)%Z ->
    (hasMore c = true <-> drop j pages <> []) ->
    (length (drop (currentIndex c) (currentItems c))
     + length (concat (leading_pages (drop j pages))) < fuel)%nat ->
    exists m',
      drain fuel it results m
      = Some (inr (results ++ drop (currentIndex c) (currentItems c)
                           ++ concat (leading_pages (drop j pages))), m')
      /\ world m' = w
      /\ fetchLog m'
         = log ++ page_requests (it_pageSize it) j (further_requests (drop j pages)).
Proof.
  intros Hfetcher Hmax.
  induction fuel as [|fuel IH]; intros results m c w log j Hst Hpage Hmore Hfuel; [lia|].
  assert (Hcap : cap_reached it c = false) by (unfold cap_reached; rewrite Hmax; reflexivity).
  destruct (currentItems c !! currentIndex c) as [x|] eqn:Hx.
  - (* the next item is buffered *)
    destruct (step_buffered (S fuel) it m c w log x Hst Hcap Hx) as (m2 & Hn & Hst2).
    rewrite (drain_item _ _ _ _ _ _ Hn).
    pose proof (drop_S _ _ _ Hx) as Hdrop.
    rewrite Hdrop in Hfuel. cbn [length] in Hfuel.
    destruct (IH (results ++ [x]) m2 (advanced c) w log j Hst2 Hpage Hmore)
      as (m' & Hdrain & Hw & Hlog);
      [cbn [advanced currentItems currentIndex]; lia|].
    exists m'. rewrite Hdrain, Hdrop.
    cbn [advanced currentItems currentIndex app]. rewrite <- app_assoc. auto.
  - apply lookup_ge_None_1 in Hx.
    rewrite (drop_ge _ _ Hx) in *. cbn [length app] in *.
    destruct (hasMore c) eqn:Hmore'.
    + (* the next page is fetched *)
      destruct (pages !! j) as [page|] eqn:Hj.
      2:{ exfalso. apply (proj1 Hmore eq_refl), drop_ge.
          apply lookup_ge_None_1, Hj. }
      pose proof (drop_S _ _ _ Hj) as Hdrop.
      destruct (page_source_answer pages j (it_pageSize it) w) as (mt & Hfetch & Hnext).
      rewrite nth_lookup, Hj in Hfetch. cbn [default from_option id] in Hfetch.
      rewrite <- Hpage, <- Hfetcher in Hfetch.
      rewrite Hdrop in *.
      destruct page as [|x xs].
      * destruct (step_fetch_empty fuel it m c w log
                    (mkResponse [] (Some mt)) w Hst Hcap Hx Hmore' Hfetch eq_refl)
          as (m2 & Hn & Hst2).
        rewrite (drain_done _ _ _ _ _ Hn). exists m2.
        rewrite further_requests_empty. cbn [leading_pages concat].
        destruct Hst2 as (_ & -> & ->). rewrite Hpage, app_nil_r.
        split; [reflexivity|split; reflexivity].
      * destruct (step_fetch_item fuel it m c w log
                    (mkResponse (x :: xs) (Some mt)) w x xs Hst Hcap Hx Hmore' Hfetch eq_refl)
          as (m2 & Hn & Hst2).
        rewrite (drain_item _ _ _ _ _ _ Hn).
        cbn [leading_pages concat] in Hfuel. rewrite length_app in Hfuel.
        cbn [length] in Hfuel.
        destruct (IH (results ++ [x]) m2 _ w _ (S j) Hst2)
          as (m' & Hdrain & Hw & Hlog);
          cbn [advanced loaded currentPage hasMore currentItems currentIndex data meta].
        { lia. }
        { exact Hnext. }
        { change (drop 1 (x :: xs)) with xs. lia. }
        exists m'. rewrite Hdrain, Hw, Hlog.
        cbn [advanced loaded currentPage hasMore currentItems currentIndex data meta
               leading_pages concat].
        change (drop 1 (x :: xs)) with xs.
        rewrite further_requests_cons, page_requests_S, Hpage.
        cbn [app]. rewrite <- !app_assoc. auto.
    + (* the last page has been handed out *)
      assert (Hend : drop j pages = []).
      { destruct (drop j pages) eqn:Hd; [reflexivity|].
        assert (false = true) by (apply Hmore; discriminate).
        discriminate. }
      destruct (step_exhausted (S fuel) it m c w log Hst Hcap Hx Hmore')
        as (m2 & Hn & Hst2).
      rewrite (drain_done _ _ _ _ _ Hn). exists m2. rewrite Hend.
      cbn. rewrite !app_nil_r. destruct Hst2 as (_ & -> & ->). auto.
Qed.

(** X16. Over a paged source, started at page 1 and without a cap,
    [collectAll] returns the items of the pages up to the first empty one,
    in order, and asks for exactly those pages and the empty one that
    stopped it: it makes no request after a page that announces no
    successor, but always asks for page 1.  When no page is empty these
    are all the items, in as many requests as there are pages. *)
Theorem collectAll_page_source pages options (m : Machine T W) fuel :
  or_default (startPage options) 1 = 1%Z ->
  maxItems options = None ->
  (length (concat (leading_pages pages)) < fuel)%nat ->
  (exists m',
      collectAll fuel (@page_source T W E pages) options m
      = Some (inr (concat (leading_pages pages)), m')
      /\ world m' = world m
      /\ fetchLog m'
         = fetchLog m
           ++ page_requests
                (Z.min (or_default (pageSize options) DEFAULT_PAGE_SIZE) MAX_PAGE_SIZE)
                0 (Nat.max 1 (further_requests pages)))
  /\ (Forall (fun page => page <> []) pages ->
      leading_pages pages = pages /\ further_requests pages = length pages).
Proof.
  intros Hstart Hmax Hfuel. split; [|apply leading_pages_nonempty].
  unfold collectAll, toArray.
  pose proof (created_in_state (@page_source T W E pages) options m) as Hst.
  destruct (createPaginatedIterator (page_source pages) options m)
    as [iterable m1] eqn:Hcreate.
  cbn [fst snd] in Hst. rewrite Hstart in Hst.
  assert (Hit : asyncIterator iterable
                = mkIterator (page_source pages)
                    (Z.min (or_default (pageSize options) DEFAULT_PAGE_SIZE) MAX_PAGE_SIZE)
                    None (fresh (dom (heap m))))
    by (injection Hcreate as <- _; rewrite <- Hmax; reflexivity).
  set (it := asyncIterator iterable) in *.
  destruct pages as [|page pages].
  - destruct fuel as [|fuel]; [cbn in Hfuel; lia|].
    destruct (page_source_answer [] 0 (it_pageSize it) (world m)) as (mt & Hfetch & _).
    destruct (step_fetch_empty fuel it m1 _ _ _ (mkResponse [] (Some mt)) (world m) Hst)
      as (m2 & Hn & Hst2);
      [rewrite Hit; reflexivity|cbn; lia|reflexivity
      |rewrite Hit in *; exact Hfetch|reflexivity|].
    rewrite (drain_done _ _ _ _ _ Hn). exists m2.
    destruct Hst2 as (_ & -> & ->). rewrite Hit. auto.
  - destruct (drain_all_page_source (page :: pages) it) with
      (fuel := fuel) (results := @nil T) (m := m1)
      (c := mkCursor (T:=T) 1 [] 0 0 true None) (w := world m) (log := fetchLog m)
      (j := 0%nat)
      as (m' & Hdrain & Hw & Hlog);
      try (rewrite Hit; reflexivity); try assumption; try reflexivity.
    { cbn. split; [discriminate|reflexivity]. }
    cbn [currentItems currentIndex drop length app] in Hdrain, Hlog.
    exists m'. rewrite Hdrain, Hw, Hlog, Hit. cbn [it_pageSize].
    replace (Nat.max 1 (further_requests (page :: pages)))
      with (further_requests (page :: pages)); [auto|].
    destruct page as [|x xs];
      [rewrite further_requests_empty|rewrite further_requests_cons]; reflexivity.
Qed.

End WholeSource.

Section WholeSourceRun.
Import Pagination Props.
Open Scope list_scope.

Lemma collectAll_page_source_witness :
  (exists m',
      collectAll 31 (@page_source nat unit string Fixtures.thirty_items)
        (mkOptions None None None) Fixtures.fresh_machine
      = Some (inr (concat (leading_pages Fixtures.thirty_items)), m')
      /\ world m' = tt
      /\ fetchLog m'
         = [] ++ page_requests
                   (Z.min (or_default None DEFAULT_PAGE_SIZE) MAX_PAGE_SIZE)
                   0 (Nat.max 1 (further_requests Fixtures.thirty_items)))
  /\ (Forall (fun page => page <> []) Fixtures.thirty_items ->
      leading_pages Fixtures.thirty_items = Fixtures.thirty_items
      /\ further_requests Fixtures.thirty_items = length Fixtures.thirty_items).
Proof.
  apply (@collectAll_page_source nat unit string Fixtures.thirty_items
           (mkOptions None None None) Fixtures.fresh_machine 31).
  - reflexivity.
  - reflexivity.
  - vm_compute. lia.
Defined.

End WholeSourceRun.

(* ===================================================================== *)
(** * The page iterator (src/pagination.ts)                               *)
(* ===================================================================== *)

Section PageIteration.
Import Pagination Props.
Open Scope list_scope.
Context {T W E : Type}.
Implicit Types (it : PageIterator T W E) (m : PageMachine W) (c : PageCursor).
Implicit Types (pages : list (list T)).

(** One call of [next] of the page iterator when the fetcher resolves. *)
Lemma page_next_resolved it m c w log response w' :
  page_state it m c w log ->
  pc_hasMore c = true ->
  pit_fetcher it (mkParams (pc_currentPage c) (pit_pageSize it)) w = (inr response, w') ->
  page_next it m
  = (if (length (data response) =? 0)%nat
        && (pit_startPage it + 1 <? pc_currentPage c + 1)%Z
     then inr PageDone else inr (PageValue response),
     mkPageMachine
       (<[pit_cursor it :=
            mkPageCursor (pc_currentPage c + 1) (has_next (meta response))]> (pheap m))
       w' (log ++ [mkParams (pc_currentPage c) (pit_pageSize it)])).
Proof.
  intros (<- & <- & <-) Hmore Hfetch. unfold page_next. rewrite Hmore, Hfetch.
  cbn [negb pc_currentPage].
  destruct ((length (data response) =? 0)%nat
            && (pit_startPage it + 1 <? pc_currentPage (pheap m !!! pit_cursor it) + 1)%Z);
    reflexivity.
Qed.

(** Draining a page iterator that has already yielded a page, over a
    paged source: the pages up to the first empty one are yielded. *)
Lemma page_drain_page_source pages it :
  pit_fetcher it = page_source pages ->
  forall fuel results m c w log j,
    page_state it m c w log ->
    pc_currentPage c = (Z.of_nat j + 1)%Z ->
    (pit_startPage it < pc_currentPage c)%Z ->
    (pc_hasMore c = true <-> drop j pages <> []) ->
    (length (leading_pages (drop j pages)) < fuel)%nat ->
    exists rs m',
      page_drain fuel it results m = Some (inr (results ++ rs), m')
      /\ map data rs = leading_pages (drop j pages)
      /\ pworld m' = w
      /\ pfetchLog m'
         = log ++ page_requests (pit_pageSize it) j (further_requests (drop j pages)).
Proof.
  intros Hfetcher.
  induction fuel as [|fuel IH]; intros results m c w log j Hst Hpage Hstart Hmore Hfuel;
    [lia|].
  destruct Hst as (Hc & Hw & Hlog).
  cbn [page_drain]. unfold page_next. rewrite Hc.
  destruct (pc_hasMore c) eqn:Hmore'; cbn [negb].
  - destruct (pages !! j) as [page|] eqn:Hj.
    2:{ exfalso. apply (proj1 Hmore eq_refl), drop_ge.
        apply lookup_ge_None_1, Hj. }
    pose proof (drop_S _ _ _ Hj) as Hdrop.
    destruct (@page_source_answer T W E pages j (pit_pageSize it) w)
      as (mt & Hfetch & Hnext).
    rewrite nth_lookup, Hj in Hfetch. cbn [default from_option id] in Hfetch.
    rewrite Hfetcher, Hpage, Hw, Hfetch. cbn [data meta length pc_currentPage].
    rewrite Hdrop in *.
    destruct page as [|x xs].
    + cbn [length Nat.eqb andb].
      replace (pit_startPage it + 1 <? Z.of_nat j + 1 + 1)%Z with true
        by (symmetry; apply Z.ltb_lt; lia).
      eexists [], _. rewrite app_nil_r, further_requests_empty, Hlog.
      cbn. auto.
    + cbn [length Nat.eqb andb].
      cbn [leading_pages length] in Hfuel.
      destruct (IH (results ++ [mkResponse (x :: xs) (Some mt)])
                  (mkPageMachine
                     (<[pit_cursor it :=
                          mkPageCursor (Z.of_nat j + 1 + 1) (has_next (Some mt))]> (pheap m))
                     w (pfetchLog m ++ [mkParams (Z.of_nat j + 1) (pit_pageSize it)]))
                  (mkPageCursor (Z.of_nat j + 1 + 1) (has_next (Some mt)))
                  w (log ++ [mkParams (Z.of_nat j + 1) (pit_pageSize it)]) (S j))
        as (rs & m' & Hdrain & Hdata & Hw' & Hlog').
      { split; [|split]; [apply lookup_total_insert_eq|reflexivity|cbn; rewrite Hlog; reflexivity]. }
      { cbn. lia. }
      { cbn. lia. }
      { exact Hnext. }
      { lia. }
      exists (mkResponse (x :: xs) (Some mt) :: rs), m'.
      rewrite Hdrain, Hw', Hlog', further_requests_cons, page_requests_S.
      cbn [map data leading_pages]. rewrite Hdata, <- !app_assoc. auto.
  - assert (Hend : drop j pages = []).
    { destruct (drop j pages) eqn:Hd; [reflexivity|].
      assert (false = true) by (apply Hmore; discriminate).
      discriminate. }
    exists [], m. rewrite Hend, app_nil_r. cbn. rewrite app_nil_r. auto.
Qed.

(** X17. Over a paged source, started at page 1, the page iterator always
    asks for page 1 and yields what it gets, even an empty page; after
    that it yields the pages up to the first empty one, which ends the
    iteration without being yielded, and it makes no request after a page
    that announces no successor. *)
Theorem page_iterator_page_source pages options (m : PageMachine W) fuel :
  or_default (startPage options) 1 = 1%Z ->
  (S (length (leading_pages (tail pages))) < fuel)%nat ->
  exists rs m',
    page_toArray fuel (createPageIterator (@page_source T W E pages) options m).1
      (createPageIterator (@page_source T W E pages) options m).2
    = Some (inr rs, m')
    /\ map data rs = nth 0 pages [] :: leading_pages (tail pages)
    /\ pworld m' = pworld m
    /\ pfetchLog m'
       = pfetchLog m
         ++ page_requests
              (Z.min (or_default (pageSize options) DEFAULT_PAGE_SIZE) MAX_PAGE_SIZE)
              0 (S (further_requests (tail pages))).
Proof.
  intros Hstart Hfuel. destruct fuel as [|fuel]; [lia|].
  unfold page_toArray, createPageIterator. cbn [fst snd page_iterator].
  rewrite Hstart.
  set (size := Z.min (or_default (pageSize options) DEFAULT_PAGE_SIZE) MAX_PAGE_SIZE).
  set (l := fresh (dom (pheap m))).
  set (it := mkPageIterator (page_source pages) size 1 l).
  set (m1 := mkPageMachine (<[l := mkPageCursor 1 true]> (pheap m)) (pworld m) (pfetchLog m)).
  assert (Hst : page_state it m1 (mkPageCursor 1 true) (pworld m) (pfetchLog m))
    by (split; [apply lookup_total_insert_eq|split; reflexivity]).
  destruct (@page_source_answer T W E pages 0 size (pworld m))
    as (mt & Hfetch & Hnext).
  change (Z.of_nat 0 + 1)%Z with 1%Z in Hfetch.
  cbn [page_drain].
  rewrite (page_next_resolved it m1 _ _ _ _ _ Hst eq_refl Hfetch).
  cbn [pc_currentPage pit_startPage it data meta pit_pageSize pit_cursor].
  rewrite Z.ltb_irrefl, andb_false_r.
  replace (drop 1 pages) with (tail pages) in Hnext by (destruct pages; reflexivity).
  destruct (page_drain_page_source pages it eq_refl fuel
              [mkResponse (nth 0 pages []) (Some mt)]
              (mkPageMachine
                 (<[l := mkPageCursor (1 + 1) (has_next (Some mt))]> (pheap m1))
                 (pworld m) (pfetchLog m ++ [mkParams 1 size]))
              (mkPageCursor (1 + 1) (has_next (Some mt)))
              (pworld m) (pfetchLog m ++ [mkParams 1 size]) 1%nat)
    as (rs & m' & Hdrain & Hdata & Hw & Hlog).
  { split; [apply lookup_total_insert_eq|split; reflexivity]. }
  { reflexivity. }
  { cbn. lia. }
  { replace (drop 1 pages) with (tail pages) by (destruct pages; reflexivity).
    exact Hnext. }
  { replace (drop 1 pages) with (tail pages) by (destruct pages; reflexivity). lia. }
  replace (drop 1 pages) with (tail pages) in * by (destruct pages; reflexivity).
  exists (mkResponse (nth 0 pages []) (Some mt) :: rs), m'.
  cbn [app] in Hdrain |- *.
  rewrite Hdrain, Hw, Hlog, page_requests_S. cbn [map data]. rewrite Hdata.
  cbn [pit_pageSize it app]. rewrite <- !app_assoc. auto.
Qed.

End PageIteration.

Section PageIterationRun.
Import Pagination Props.
Open Scope list_scope.

(** The two iterators part ways on a source whose first page is empty but
    announces a successor: the item iterator stops there, the page
    iterator goes on. *)
Example empty_first_page_items_and_pages :
  (fun '(r, m) => (r, fetchLog m))
    <$> collectAll 5 (@page_source nat unit string [[]; [7%nat]])
          (mkOptions None None None) Fixtures.fresh_machine
  = Some (inr [], [mkParams 1 50])
  /\ (fun '(r, m) => (sum_map id (map data) r, pfetchLog m))
       <$> page_toArray 5
             (createPageIterator (@page_source nat unit string [[]; [7%nat]])
                (mkOptions None None None) (mkPageMachine ∅ tt [])).1
             (createPageIterator (@page_source nat unit string [[]; [7%nat]])
                (mkOptions None None None) (mkPageMachine ∅ tt [])).2
     = Some (inr [[]; [7%nat]], [mkParams 1 50; mkParams 2 50]).
Proof. split; vm_compute; reflexivity. Qed.

Lemma page_iterator_page_source_witness :
  exists rs m',
    page_toArray 12
      (createPageIterator (@page_source nat unit string Fixtures.thirty_items)
         (mkOptions None None None) (mkPageMachine ∅ tt [])).1
      (createPageIterator (@page_source nat unit string Fixtures.thirty_items)
         (mkOptions None None None) (mkPageMachine ∅ tt [])).2
    = Some (inr rs, m')
    /\ map data rs
       = nth 0 Fixtures.thirty_items [] :: leading_pages (tail Fixtures.thirty_items)
    /\ pworld m' = tt
    /\ pfetchLog m'
       = [] ++ page_requests
                 (Z.min (or_default None DEFAULT_PAGE_SIZE) MAX_PAGE_SIZE)
                 0 (S (further_requests (tail Fixtures.thirty_items))).
Proof.
  apply (@page_iterator_page_source nat unit string Fixtures.thirty_items
           (mkOptions None None None) (mkPageMachine ∅ tt []) 12).
  - reflexivity.
  - vm_compute. lia.
Defined.

End PageIterationRun.

(* ===================================================================== *)
(** * The query of a list request (src/resources/base.ts, src/jsonapi.ts) *)
(* ===================================================================== *)

Section ListQueries.
Import Js Jsonapi Pagination Resources Props.
Open Scope list_scope.

Lemma toLowerCase_app s t :
  toLowerCase (s ++ t)%string = (toLowerCase s ++ toLowerCase t)%string.
Proof. induction s as [|c s IH]; [reflexivity|]. simpl. rewrite IH. reflexivity. Qed.

Lemma string_app_assoc (s t u : string) :
  ((s ++ t) ++ u)%string = (s ++ (t ++ u))%string.
Proof.
  induction s as [|c s IH]; [reflexivity|].
  change (String c ((s ++ t) ++ u) = String c (s ++ (t ++ u)))%string.
  f_equal. exact IH.
Qed.

(** The scan for lowercase-capital pairs does not see across a character
    that is no capital. *)
Lemma hyphenate_app n :
  forall s b t,
    (String.length s <= n)%nat ->
    is_upper b = false ->
    hyphenate (s ++ String b t)%string
    = (hyphenate s ++ hyphenate (String b t))%string.
Proof.
  induction n as [|n IH]; intros s b t Hlen Hb.
  - destruct s; [reflexivity|cbn in Hlen; lia].
  - destruct s as [|a [|c rest]].
    + reflexivity.
    + change ((String a EmptyString ++ String b t)%string) with (String a (String b t)).
      rewrite hyphenate_skip; [reflexivity|].
      intros c s' [= <- <-]. rewrite Hb. apply andb_false_r.
    + change ((String a (String c rest) ++ String b t)%string)
        with (String a (String c (rest ++ String b t)%string)).
      destruct (is_lower a && is_upper c) eqn:Hpair.
      * apply andb_true_iff in Hpair as [Ha Hc].
        rewrite !(hyphenate_match _ _ _ Ha Hc).
        rewrite (IH rest b t); [reflexivity|cbn in Hlen; lia|exact Hb].
      * rewrite (hyphenate_skip a (String c (rest ++ String b t)%string));
          [|intros c' s' [= <- <-]; exact Hpair].
        rewrite (hyphenate_skip a (String c rest));
          [|intros c' s' [= <- <-]; exact Hpair].
        change (String c (rest ++ String b t)%string)
          with ((String c rest ++ String b t)%string).
        rewrite (IH (String c rest) b t); [reflexivity|cbn in Hlen |- *; lia|exact Hb].
Qed.

Lemma camelToKebab_app s b t :
  is_upper b = false ->
  camelToKebab (s ++ String b t)%string
  = (camelToKebab s ++ camelToKebab (String b t))%string.
Proof.
  intros Hb. unfold camelToKebab.
  rewrite (hyphenate_app (String.length s)) by (auto; lia).
  apply toLowerCase_app.
Qed.

(** X18. A list request whose filter holds one comparison,
    [{filter: {field: {op: v}}}] with [op] one of gt, gte, lt, lte and
    [v] a string, number or boolean, is sent with the single query
    parameter [filter[<field in kebab case>[<op>]]] set to [v]: the
    operator bracket ends up inside the bracket of the field. *)
Theorem list_operator_filter_query (field op : string) (v : JsValue) :
  op ∈ ["gt"; "gte"; "lt"; "lte"] ->
  is_primitive v = true ->
  buildQueryParams
    (buildListParams (Some [("filter", JObj [(field, JObj [(op, v)])])]))
  = [(("filter[" ++ camelToKebab field ++ "[" ++ op ++ "]]")%string, toString v)].
Proof.
  intros Hop Hv.
  assert (Hkey : forall o, o ∈ ["gt"; "gte"; "lt"; "lte"] ->
            camelToKebab (field ++ "[" ++ o ++ "]")%string
            = (camelToKebab field ++ "[" ++ o ++ "]")%string).
  { intros o Ho.
    change ((field ++ "[" ++ o ++ "]")%string)
      with ((field ++ String "[" (o ++ "]"))%string).
    rewrite camelToKebab_app by reflexivity. f_equal.
    repeat (apply elem_of_cons in Ho as [->|Ho]; [reflexivity|]).
    apply elem_of_nil in Ho as []. }
  pose proof (Hkey op Hop) as Hk.
  repeat (apply elem_of_cons in Hop as [->|Hop];
          [destruct v; try discriminate Hv;
           cbn [buildListParams obj_has obj_get prop String.eqb Ascii.eqb Bool.eqb
                  default from_option id truthy andb entries buildFilterParams
                  fold_left filter_step nullish isOperatorObject orb set_operator
                  obj_set];
           unfold buildQueryParams;
           cbn [fold_left nullish addParam];
           change (camelToKebab "filter") with "filter";
           cbn [paramKey String.eqb Ascii.eqb Bool.eqb];
           rewrite Hk, string_app_assoc; reflexivity|]).
  apply elem_of_nil in Hop as [].
Qed.

(** The query of the example of a range filter. *)
Example list_range_filter_query :
  buildQueryParams
    (buildListParams
       (Some [("filter",
               JObj [("createdAt",
                      JObj [("gt", JStr "2024-01-01"); ("lt", JStr "2024-12-31")])])]))
  = [("filter[created-at[gt]]", "2024-01-01"); ("filter[created-at[lt]]", "2024-12-31")].
Proof. vm_compute. reflexivity. Qed.

Lemma list_operator_filter_query_witness :
  buildQueryParams
    (buildListParams (Some [("filter", JObj [("createdAt", JObj [("gte", JNum 5)])])]))
  = [(("filter[" ++ camelToKebab "createdAt" ++ "[" ++ "gte" ++ "]]")%string,
      toString (JNum 5))].
Proof.
  apply (list_operator_filter_query "createdAt" "gte" (JNum 5)).
  - repeat constructor.
  - reflexivity.
Defined.

End ListQueries.

(* ===================================================================== *)
(** * The page parameters of listAll (src/resources/base.ts)              *)
(* ===================================================================== *)

Section ListAllQueries.
Import Js Jsonapi Pagination Resources Props.
Open Scope list_scope.

Lemma is_page_name_eq (n v : string) : is_page_name (n, v) = String.prefix "page" n.
Proof. reflexivity. Qed.

Lemma starts_off_page_prefix prefix :
  starts_off_page prefix = true -> String.prefix "page" prefix = false.
Proof.
  destruct prefix as [|c p]; [discriminate|]. cbn [starts_off_page String.prefix].
  intros Hc. destruct (ascii_dec "p" c) as [<-|_]; [discriminate|reflexivity].
Qed.

Lemma starts_off_page_paramKey prefix k :
  starts_off_page prefix = true -> starts_off_page (paramKey prefix k) = true.
Proof. destruct prefix as [|c p]; [discriminate|]. intros H. exact H. Qed.

(** Setting a name that is not of the page leaves the page entries as
    they are. *)
Lemma filter_page_usp_set_other name value sp :
  String.prefix "page" name = false ->
  List.filter is_page_name (usp_set name value sp) = List.filter is_page_name sp.
Proof.
  intros Hn. induction sp as [|[n v] sp IH]; cbn [usp_set List.filter].
  - rewrite is_page_name_eq, Hn. reflexivity.
  - destruct (name =? n) eqn:E.
    + apply String.eqb_eq in E. subst n. cbn [List.filter].
      rewrite !is_page_name_eq, Hn. clear IH.
      induction sp as [|[n' v'] sp IH]; [reflexivity|].
      cbn [List.filter fst]. destruct (name =? n') eqn:E'; cbn [negb].
      * apply String.eqb_eq in E'. subst n'. rewrite is_page_name_eq, Hn. exact IH.
      * cbn [List.filter]. rewrite IH. reflexivity.
    + cbn [List.filter]. rewrite IH. reflexivity.
Qed.

(** Setting a name of the page acts on the page entries alone. *)
Lemma filter_page_usp_set_page name value sp :
  String.prefix "page" name = true ->
  List.filter is_page_name (usp_set name value sp)
  = usp_set name value (List.filter is_page_name sp).
Proof.
  intros Hn. induction sp as [|[n v] sp IH]; cbn [usp_set List.filter].
  - rewrite is_page_name_eq, Hn. reflexivity.
  - destruct (name =? n) eqn:E.
    + apply String.eqb_eq in E. subst n. cbn [List.filter].
      rewrite !is_page_name_eq, Hn. cbn [usp_set]. rewrite String.eqb_refl. f_equal.
      clear IH. induction sp as [|[n' v'] sp IH]; [reflexivity|].
      cbn [List.filter fst]. rewrite is_page_name_eq.
      destruct (name =? n') eqn:E'; cbn [negb];
        destruct (String.prefix "page" n') eqn:P'; cbn [List.filter fst];
        rewrite ?is_page_name_eq, ?P', ?E'; cbn [negb]; rewrite IH; reflexivity.
    + cbn [List.filter]. rewrite !is_page_name_eq.
      destruct (String.prefix "page" n) eqn:P; cbn [usp_set].
      * rewrite E, IH. reflexivity.
      * exact IH.
Qed.

Lemma filter_page_addParam v :
  forall prefix sp,
    starts_off_page prefix = true ->
    List.filter is_page_name (addParam prefix v sp) = List.filter is_page_name sp.
Proof.
  induction v as [| | | | | |props IH] using JsValue_nested_ind;
    intros prefix sp Hp; cbn [addParam]; try reflexivity;
    try (apply filter_page_usp_set_other, starts_off_page_prefix, Hp).
  revert sp. induction IH as [|[k x] props Hx _ IHprops]; intros sp; [reflexivity|].
  cbn [fold_left]. rewrite IHprops. apply Hx, starts_off_page_paramKey, Hp.
Qed.

(** The parameters other than [page] add nothing to the page entries. *)
Lemma filter_page_fold_other (l : list (string * JsValue)) :
  Forall (fun e => starts_off_page (camelToKebab e.1) = true) l ->
  forall sp,
    List.filter is_page_name
      (fold_left
         (fun sp '(key, value) =>
            if nullish value then sp else addParam (camelToKebab key) value sp)
         l sp)
    = List.filter is_page_name sp.
Proof.
  induction 1 as [|[k v] l Hk _ IH]; intros sp; [reflexivity|].
  cbn [fold_left]. rewrite IH. destruct (nullish v); [reflexivity|].
  apply filter_page_addParam, Hk.
Qed.

(** Where the page descriptor ends up among the parameters: in the place
    of the caller's [page] when there is one, at the end otherwise. *)
Lemma spread_page_shape ps page :
  let f := if obj_has "filter" ps && truthy (prop (JObj ps) "filter")
           then [("filter",
                  JObj (buildFilterParams (Some (entries (prop (JObj ps) "filter")))))]
           else [] in
  let s := if truthy (prop (JObj ps) "sort")
           then [("sort", prop (JObj ps) "sort")] else [] in
  let i := if truthy (prop (JObj ps) "include")
           then [("include", prop (JObj ps) "include")] else [] in
  spread_page (buildListParams (Some ps)) page
  = if truthy (prop (JObj ps) "page")
    then f ++ ("page", page_object page) :: s ++ i
    else f ++ s ++ i ++ [("page", page_object page)].
Proof.
  unfold spread_page, buildListParams. cbn zeta.
  destruct (obj_has "filter" ps && truthy (prop (JObj ps) "filter")),
    (truthy (prop (JObj ps) "page")), (truthy (prop (JObj ps) "sort")),
    (truthy (prop (JObj ps) "include")); reflexivity.
Qed.

Lemma page_entry_query page sp :
  List.filter is_page_name sp = [] ->
  List.filter is_page_name
    (addParam (camelToKebab "page") (page_object page) sp)
  = [("page[number]", pretty (number page)); ("page[size]", pretty (size page))].
Proof.
  intros Hsp. change (camelToKebab "page") with "page".
  unfold page_object. cbn [addParam fold_left].
  change (paramKey "page" (camelToKebab "number")) with "page[number]".
  change (paramKey "page" (camelToKebab "size")) with "page[size]".
  cbn [toString].
  rewrite !filter_page_usp_set_page by reflexivity. rewrite Hsp. reflexivity.
Qed.

(** X19. Whatever list parameters the caller of [listAll] gives, a
    [page] among them included, the request for a page carries exactly two
    page parameters, [page[number]] and [page[size]], with the values of
    the page the iterator asks for; and the iterator asks for consecutive
    pages from 1, each of size 50. *)
Theorem listAll_page_query :
  (forall params page,
      List.filter is_page_name
        (buildQueryParams (spread_page (buildListParams params) page))
      = [("page[number]", pretty (number page)); ("page[size]", pretty (size page))])
  /\ (forall (T W E : Type)
             (client_list : string -> list (string * JsValue) -> W
                            -> (E + PaginatedResponse T) * W)
             basePath params (m : Machine T W) fuel r m',
         toArray fuel (listAll client_list basePath params m).1
           (listAll client_list basePath params m).2 = Some (r, m') ->
         exists k, fetchLog m' = fetchLog m ++ requests_from 1 50 k).
Proof.
  split.
  - intros [ps|] page; [|reflexivity].
    assert (Hoff : forall (c : bool) (k : string) (v : JsValue),
               starts_off_page (camelToKebab k) = true ->
               Forall (fun e : string * JsValue => starts_off_page (camelToKebab e.1) = true)
                 (if c then [(k, v)] else [])).
    { intros [] k v Hk; repeat constructor. exact Hk. }
    rewrite spread_page_shape. cbn zeta. unfold buildQueryParams.
    destruct (truthy (prop (JObj ps) "page")).
    + rewrite fold_left_app. cbn [fold_left nullish page_object].
      rewrite filter_page_fold_other
        by (apply Forall_app; split; apply Hoff; reflexivity).
      apply page_entry_query.
      rewrite filter_page_fold_other by (apply Hoff; reflexivity). reflexivity.
    + rewrite !app_assoc, fold_left_app. cbn [fold_left nullish page_object].
      apply page_entry_query.
      rewrite filter_page_fold_other; [reflexivity|].
      repeat (apply Forall_app; split); apply Hoff; reflexivity.
  - intros T W E client_list basePath params m fuel r m' Hdrain.
    unfold toArray, listAll in Hdrain.
    destruct (drain_log _ _ _ _ _ _ Hdrain) as (k & Hlog & _).
    pose proof (created_in_state
                  (fun page w =>
                     client_list basePath
                       (spread_page (buildListParams params) page) w)
                  (mkOptions None (Some DEFAULT_PAGE_SIZE) None) m) as (Hc & _ & _).
    rewrite Hc in Hlog. exists k. exact Hlog.
Qed.

Lemma listAll_page_query_witness :
  exists k,
    [mkParams 1 50; mkParams 2 50] = [] ++ requests_from 1 50 k.
Proof.
  apply (proj2 listAll_page_query string unit string
           (fun _ queryParams w =>
              Fixtures.two_pages
                (mkParams
                   match prop (prop (JObj queryParams) "page") "number" with
                   | JNum n => n
                   | _ => 0
                   end 50) w)
           "/organizations" None Fixtures.fresh_machine 5
           (inr ["1"; "2"; "3"; "4"])
           (mkMachine
              (<[fresh (dom (∅ : gmap nat (Cursor string))) :=
                   mkCursor 3 ["3"; "4"] 2 4 false (Some (mkMeta 2 None (Some 1%Z) 2 4))]> ∅)
              tt [mkParams 1 50; mkParams 2 50])).
  vm_compute. reflexivity.
Defined.

End ListAllQueries.

(* ===================================================================== *)
(** * The base URL (src/config.ts)                                        *)
(* ===================================================================== *)

Section BaseUrl.
Import Js Config Props.

Lemma strip_empty s :
  strip_trailing_slashes s = EmptyString <-> only_slashes s = true.
Proof.
  destruct s as [|c s]; [split; reflexivity|].
  cbn [strip_trailing_slashes only_slashes].
  destruct (Ascii.eqb c "/" && only_slashes s); split; auto; discriminate.
Qed.

Lemma strip_no_trailing_slash s : ends_with_slash (strip_trailing_slashes s) = false.
Proof.
  induction s as [|c s IH]; [reflexivity|].
  cbn [strip_trailing_slashes].
  destruct (Ascii.eqb c "/" && only_slashes s) eqn:Hc; [reflexivity|].
  destruct (strip_trailing_slashes s) as [|c' s'] eqn:Hs.
  - cbn [ends_with_slash]. apply strip_empty in Hs. rewrite Hs, andb_true_r in Hc.
    exact Hc.
  - exact IH.
Qed.

Lemma only_slashes_slashes s :
  only_slashes s = true -> s = slashes (String.length s).
Proof.
  induction s as [|c s IH]; [reflexivity|].
  cbn [only_slashes]. intros [Hc Hs]%andb_true_iff.
  apply Ascii.eqb_eq in Hc. subst c. cbn [String.length slashes]. f_equal. auto.
Qed.

Lemma strip_decompose s :
  exists k, s = (strip_trailing_slashes s ++ slashes k)%string.
Proof.
  induction s as [|c s [k IH]]; [exists 0%nat; reflexivity|].
  cbn [strip_trailing_slashes].
  destruct (Ascii.eqb c "/" && only_slashes s) eqn:Hc.
  - exists (String.length (String c s)).
    apply (only_slashes_slashes (String c s)). exact Hc.
  - exists k. change (String c s = String c (strip_trailing_slashes s ++ slashes k)%string).
    f_equal. exact IH.
Qed.

Example resolveBaseUrl_tests :
  resolveBaseUrl (mkClientConfig None (Some "https://custom.itglue.com/"))
  = inr "https://custom.itglue.com"
  /\ resolveBaseUrl (mkClientConfig (Some "eu") None) = inr "https://api.eu.itglue.com"
  /\ resolveBaseUrl (mkClientConfig None None) = inr "https://api.itglue.com"
  /\ resolveBaseUrl (mkClientConfig (Some "eu") (Some "///")) = inr EmptyString.
Proof. repeat split; reflexivity. Qed.

(** X20. The base URL that [resolveBaseUrl] returns never ends with a
    slash.  An explicit, non-empty [baseUrl] wins over the region and is
    returned with its trailing slashes removed and nothing else changed
    (a base URL made of slashes only resolves to the empty string). *)
Theorem resolveBaseUrl_normalised config :
  (forall url, resolveBaseUrl config = inr url -> ends_with_slash url = false)
  /\ (forall c b, baseUrl config = Some (String c b) ->
        exists url k,
          resolveBaseUrl config = inr url
          /\ String c b = (url ++ slashes k)%string).
Proof.
  unfold resolveBaseUrl. split.
  - intros url. destruct (baseUrl config) as [[|c b]|].
    2:{ intros [= <-]. apply (strip_no_trailing_slash (String c b)). }
    all: cbn [REGION_URLS table_get];
      destruct (string_or (region config) DEFAULT_CONFIG_region =? "us");
      [intros [= <-]; reflexivity|];
      destruct (string_or (region config) DEFAULT_CONFIG_region =? "eu");
      [intros [= <-]; reflexivity|];
      destruct (string_or (region config) DEFAULT_CONFIG_region =? "au");
      [intros [= <-]; reflexivity|discriminate].
  - intros c b ->. destruct (strip_decompose (String c b)) as [k Hk]. eauto.
Qed.

Lemma resolveBaseUrl_normalised_witness :
  exists url k,
    resolveBaseUrl (mkClientConfig (Some "eu") (Some "https://itglue.example//"))
    = inr url
    /\ "https://itglue.example//" = (url ++ slashes k)%string.
Proof.
  apply (proj2 (resolveBaseUrl_normalised
                  (mkClientConfig (Some "eu") (Some "https://itglue.example//")))
           "h"%char "ttps://itglue.example//").
  reflexivity.
Defined.

End BaseUrl.
